(** * Incident consolidation pipeline: a shallow embedding

    The pipeline is a set of batch scripts over one relational store:

    - [tweet_classify.py]            classifier stage
    - [tweet_processer_1.py]         extractor stage
    - [tweet_classify_processer.py]  combined extract-and-classify stage
    - [tweet_grouper.py]             clustering stage
    - [tweet_geocoder_new.py]        geocoding stage
    - [api_server_new.py]            dispatch workflow

    Tables are lists of rows in insertion order, SQL statements are
    functions on the store, and every collaborator (language model,
    embedding service, geocoder) is an oracle passed to the stage that
    calls it. *)

From stdpp Require Import gmap strings list.
From Stdlib Require Import ZArith Lia.

Local Open Scope string_scope.
Local Open Scope list_scope.
Local Open Scope Z_scope.

(** ** The store *)

(** [tweets]: the table is created by the ingestion script; the stages read
    [id], [text], [created_at] and the [status] column the classifier adds
    with default ['unclassified']. *)
Record tweet := {
  tw_id : Z;
  tw_text : string;
  tw_created_at : Z;
  tw_status : string
}.

(** [actionable_tweets (id SERIAL, source_tweet_id UNIQUE, original_tweet_text)] *)
Record actionable_tweet := {
  at_id : Z;
  at_source_tweet_id : Z;
  at_original_tweet_text : string
}.

(** [incident_reports], with the [status] column the grouper adds with
    default ['unprocessed']. *)
Record incident_report := {
  ir_id : Z;
  ir_original_tweet_id : Z;
  ir_extracted_location : string;
  ir_extracted_issue : string;
  ir_issue_time : string;
  ir_original_tweet_text : string;
  ir_status : string
}.

(** [final_report (id SERIAL, event_summary, event_location,
    source_incident_ids BIGINT[], number_of_reports INTEGER)] *)
Record final_report_row := {
  fr_id : Z;
  fr_event_summary : string;
  fr_event_location : string;
  fr_source_incident_ids : list Z;
  fr_number_of_reports : Z
}.

(** [geocoded_tweets]. Coordinates are carried, never computed with; they
    are kept as opaque numbers. *)
Record geocoded_tweet := {
  gt_id : Z;
  gt_source_report_id : Z;
  gt_latitude : option Z;
  gt_longitude : option Z;
  gt_event_summary : string;
  gt_event_location : string;
  gt_number_of_reports : Z;
  gt_status : string
}.

(** The store: the five tables and the sequences behind the SERIAL columns
    (a sequence advances on every INSERT attempt, also when ON CONFLICT
    discards the row). The timestamp columns filled by [DEFAULT NOW()] are
    left out: no stage reads them. *)
Record DB := {
  tweets : list tweet;
  actionable_tweets : list actionable_tweet;
  incident_reports : list incident_report;
  final_report : list final_report_row;
  geocoded_tweets : list geocoded_tweet;
  actionable_tweets_seq : Z;
  incident_reports_seq : Z;
  final_report_seq : Z;
  geocoded_tweets_seq : Z
}.

Definition empty_db : DB :=
  {| tweets := []; actionable_tweets := []; incident_reports := [];
     final_report := []; geocoded_tweets := [];
     actionable_tweets_seq := 1; incident_reports_seq := 1;
     final_report_seq := 1; geocoded_tweets_seq := 1 |}.

Definition set_tweets (f : list tweet → list tweet) (db : DB) : DB :=
  {| tweets := f (tweets db);
     actionable_tweets := actionable_tweets db;
     incident_reports := incident_reports db;
     final_report := final_report db;
     geocoded_tweets := geocoded_tweets db;
     actionable_tweets_seq := actionable_tweets_seq db;
     incident_reports_seq := incident_reports_seq db;
     final_report_seq := final_report_seq db;
     geocoded_tweets_seq := geocoded_tweets_seq db |}.

Definition set_incident_reports
    (f : list incident_report → list incident_report) (db : DB) : DB :=
  {| tweets := tweets db;
     actionable_tweets := actionable_tweets db;
     incident_reports := f (incident_reports db);
     final_report := final_report db;
     geocoded_tweets := geocoded_tweets db;
     actionable_tweets_seq := actionable_tweets_seq db;
     incident_reports_seq := incident_reports_seq db;
     final_report_seq := final_report_seq db;
     geocoded_tweets_seq := geocoded_tweets_seq db |}.

Definition set_geocoded_tweets
    (f : list geocoded_tweet → list geocoded_tweet) (db : DB) : DB :=
  {| tweets := tweets db;
     actionable_tweets := actionable_tweets db;
     incident_reports := incident_reports db;
     final_report := final_report db;
     geocoded_tweets := f (geocoded_tweets db);
     actionable_tweets_seq := actionable_tweets_seq db;
     incident_reports_seq := incident_reports_seq db;
     final_report_seq := final_report_seq db;
     geocoded_tweets_seq := geocoded_tweets_seq db |}.

(** ** Dispatch workflow ([api_server_new.py]) *)

Module Api.

(** The payload handed to [jsonify], the error page Flask produces for
    an exception that leaves the view function, or its page for a request
    that matches no route. *)
Inductive body :=
| DispatchOk (new_status : string)   (* {'success': True, 'new_status': _} *)
| CompleteOk                         (* {'success': True} *)
| Failure (error : string)           (* {'success': False, 'error': _} *)
| Unhandled (exn : string)           (* exception escaped the view *)
| NoRoute.                           (* no route matches the request *)

Record response := { status_code : Z; payload : body }.

Definition set_gt_status (s : string) (r : geocoded_tweet) : geocoded_tweet :=
  {| gt_id := gt_id r;
     gt_source_report_id := gt_source_report_id r;
     gt_latitude := gt_latitude r;
     gt_longitude := gt_longitude r;
     gt_event_summary := gt_event_summary r;
     gt_event_location := gt_event_location r;
     gt_number_of_reports := gt_number_of_reports r;
     gt_status := s |}.

(** [SELECT status FROM geocoded_tweets WHERE source_report_id = %s]
    followed by [fetchone()]: the first matching row, or [None]. *)
Definition select_status (report_id : Z) (db : DB) : option string :=
  gt_status <$> head (filter (λ r, gt_source_report_id r = report_id) (geocoded_tweets db)).

(** [UPDATE geocoded_tweets SET status = %s WHERE source_report_id = %s] *)
Definition update_status (new_status : string) (report_id : Z) (db : DB) : DB :=
  set_geocoded_tweets
    (fmap (λ r, if decide (gt_source_report_id r = report_id)
                then set_gt_status new_status r else r)) db.

(** The view function [dispatch_incident(report_id)], as Python defines
    it. [reachable] says whether [get_db_connection] returned a connection.
    On a missing row [fetchone()] is [None] and the subscript raises
    [TypeError]: the [finally] block closes the connection with nothing
    committed and Flask answers 500. The server calls the function through
    its route, [post_dispatch] below, and so with an id that is not
    negative. *)
Definition dispatch_incident (reachable : bool) (report_id : Z) (db : DB)
    : DB * response :=
  if reachable then
    match select_status report_id db with
    | None => (db, {| status_code := 500; payload := Unhandled "TypeError" |})
    | Some current_status =>
        let new_status :=
          if decide (current_status = "dispatched") then "reported" else "dispatched" in
        (update_status new_status report_id db,
         {| status_code := 200; payload := DispatchOk new_status |})
    end
  else (db, {| status_code := 500; payload := Failure "Database connection failed" |}).

(** The view function [complete_incident(report_id)]: a blind UPDATE,
    committed, then success. The server calls it through [post_complete]. *)
Definition complete_incident (reachable : bool) (report_id : Z) (db : DB)
    : DB * response :=
  if reachable then
    (update_status "completed" report_id db,
     {| status_code := 200; payload := CompleteOk |})
  else (db, {| status_code := 500; payload := Failure "Database connection failed" |}).

(** The [<int:report_id>] segment of the two POST routes. Flask's [int]
    converter matches a run of digits only: the view is entered with the
    number the segment spells, which is never negative; a segment that
    spells a negative number matches no route. [report_id] is the number
    the segment of the request spells. *)
Definition int_converter (report_id : Z) : option Z :=
  if decide (0 ≤ report_id) then Some report_id else None.

(** Flask's answer to a request that matches no route; no view runs. *)
Definition not_found : response := {| status_code := 404; payload := NoRoute |}.

(** [@app.route('/api/incidents/<int:report_id>/dispatch', methods=['POST'])]:
    what the server does with POST /api/incidents/<report_id>/dispatch. *)
Definition post_dispatch (reachable : bool) (report_id : Z) (db : DB)
    : DB * response :=
  match int_converter report_id with
  | Some id => dispatch_incident reachable id db
  | None => (db, not_found)
  end.

(** [@app.route('/api/incidents/<int:report_id>/complete', methods=['POST'])]:
    what the server does with POST /api/incidents/<report_id>/complete. *)
Definition post_complete (reachable : bool) (report_id : Z) (db : DB)
    : DB * response :=
  match int_converter report_id with
  | Some id => complete_incident reachable id db
  | None => (db, not_found)
  end.

(** [get_incidents]: the active set shown on the dashboard. *)
Definition get_incidents (reachable : bool) (db : DB) : list geocoded_tweet :=
  if reachable then
    filter (λ r, is_Some (gt_latitude r) ∧ is_Some (gt_longitude r)
                 ∧ gt_status r ≠ "completed") (geocoded_tweets db)
  else [].

Definition row_exists (report_id : Z) (db : DB) : Prop :=
  report_id ∈ gt_source_report_id <$> geocoded_tweets db.

(** A geocoded event as the geocoding stage creates it. *)
Definition sample_row (report_id : Z) (st : string) : geocoded_tweet :=
  {| gt_id := 1; gt_source_report_id := report_id;
     gt_latitude := Some 12; gt_longitude := Some 79;
     gt_event_summary := "Flooding in Gandhi Nagar";
     gt_event_location := "Gandhi Nagar";
     gt_number_of_reports := 2; gt_status := st |}.

Definition sample_db (report_id : Z) (st : string) : DB :=
  set_geocoded_tweets (λ _, [sample_row report_id st]) empty_db.

End Api.

(** ** Collaborator replies *)

(** What [json.loads] hands back. Only objects answer [.get]; the
    collaborator interface fixes their values to strings. Any other JSON
    value is kept with its Python truth value only. *)
Inductive json :=
| JObject (fields : gmap string string)
| JOther (truthy : bool).

(** One language-model call followed by [json.loads] on the cleaned text:
    either of the two raised, or a JSON value came back. *)
Inductive llm_reply :=
| Raised
| Parsed (j : json).

(** Python's [bool(x)] on a parsed value: an empty dict is false. *)
Definition truthy (j : json) : bool :=
  match j with
  | JObject fields => negb (bool_decide (fields = ∅))
  | JOther b => b
  end.

(** [d.get(key, dflt)] *)
Definition dict_get (d : gmap string string) (key dflt : string) : string :=
  default dflt (d !! key).

(** How a batch loop ended: it ran through, or an exception left the loop. *)
Inductive run_end :=
| Completed
| Aborted (exn : string).

(** The language-model oracle of one run: the reply to the [i]-th item of
    the batch, given its text. *)
Definition llm := nat → string → llm_reply.

(** ** Extractor stage ([tweet_processer_1.py]) *)

Module Extractor.

(** [fetch_unprocessed_tweets]: the tweets with no incident report
    (LEFT JOIN ... WHERE ir.original_tweet_id IS NULL). *)
Definition fetch_unprocessed_tweets (db : DB) : list tweet :=
  filter (λ t, tw_id t ∉ ir_original_tweet_id <$> incident_reports db) (tweets db).

(** The [report] dict built in the main loop. *)
Record report_data := {
  original_tweet_id : Z;
  location : string;
  issue : string;
  time : string;
  original_tweet_text : string
}.

(** [insert_incident_report]: INSERT ... ON CONFLICT (original_tweet_id)
    DO NOTHING, then commit. *)
Definition insert_incident_report (report : report_data) (db : DB) : DB :=
  let row :=
    {| ir_id := incident_reports_seq db;
       ir_original_tweet_id := original_tweet_id report;
       ir_extracted_location := location report;
       ir_extracted_issue := issue report;
       ir_issue_time := time report;
       ir_original_tweet_text := original_tweet_text report;
       ir_status := "unprocessed" |} in
  {| tweets := tweets db;
     actionable_tweets := actionable_tweets db;
     incident_reports :=
       if decide (original_tweet_id report ∈ ir_original_tweet_id <$> incident_reports db)
       then incident_reports db
       else incident_reports db ++ [row];
     final_report := final_report db;
     geocoded_tweets := geocoded_tweets db;
     actionable_tweets_seq := actionable_tweets_seq db;
     incident_reports_seq := incident_reports_seq db + 1;
     final_report_seq := final_report_seq db;
     geocoded_tweets_seq := geocoded_tweets_seq db |}.

(** [extract_incident_details]: the parsed reply, [None] when the call or
    the parse raised. *)
Definition extract_incident_details (reply : llm_reply) : option json :=
  match reply with
  | Raised => None
  | Parsed j => Some j
  end.

Definition make_report (id : Z) (text : string) (d : gmap string string)
    : report_data :=
  {| original_tweet_id := id;
     location := dict_get d "location" "Extraction Failed";
     issue := dict_get d "issue" "Extraction Failed";
     time := dict_get d "time" "Extraction Failed";
     original_tweet_text := text |}.

(** One pass of the main loop's body. [Some db'] when the loop goes on,
    [None] when [extracted_data.get] raises [AttributeError] (a truthy
    reply that is not an object). *)
Definition process_tweet (reply : llm_reply) (t : tweet) (db : DB) : option DB :=
  match extract_incident_details reply with
  | Some j =>
      if truthy j then
        match j with
        | JObject d => Some (insert_incident_report (make_report (tw_id t) (tw_text t) d) db)
        | JOther _ => None
        end
      else Some db
  | None => Some db
  end.

(** The [for i, tweet in enumerate(tweets_to_process)] loop, from index [i]. *)
Fixpoint process_tweets (oracle : llm) (i : nat) (items : list tweet) (db : DB)
    : DB * run_end :=
  match items with
  | [] => (db, Completed)
  | t :: rest =>
      match process_tweet (oracle i (tw_text t)) t db with
      | Some db' => process_tweets oracle (S i) rest db'
      | None => (db, Aborted "AttributeError")
      end
  end.

(** The script's main block, on an open connection. *)
Definition run (oracle : llm) (db : DB) : DB * run_end :=
  process_tweets oracle 0 (fetch_unprocessed_tweets db) db.

Definition has_report (id : Z) (db : DB) : Prop :=
  id ∈ ir_original_tweet_id <$> incident_reports db.

End Extractor.

(** ** Classifier stage ([tweet_classify.py]) *)

Module Classifier.

(** [classify_text]: every failure inside the [try] block, a reply that
    is not an object included, ends in ["Error"]. *)
Definition classify_text (reply : llm_reply) : string :=
  match reply with
  | Parsed (JObject d) => dict_get d "classification" "Error"
  | Parsed (JOther _) => "Error"
  | Raised => "Error"
  end.

(** [SELECT id, text FROM tweets WHERE status = 'unclassified'] *)
Definition fetch_unclassified_tweets (db : DB) : list (Z * string) :=
  (λ t, (tw_id t, tw_text t)) <$> filter (λ t, tw_status t = "unclassified") (tweets db).

(** [insert_actionable_tweet]: INSERT ... ON CONFLICT (source_tweet_id)
    DO NOTHING. *)
Definition insert_actionable_tweet (text_content : string) (source_id : Z) (db : DB)
    : DB :=
  let row := {| at_id := actionable_tweets_seq db;
                at_source_tweet_id := source_id;
                at_original_tweet_text := text_content |} in
  {| tweets := tweets db;
     actionable_tweets :=
       if decide (source_id ∈ at_source_tweet_id <$> actionable_tweets db)
       then actionable_tweets db
       else actionable_tweets db ++ [row];
     incident_reports := incident_reports db;
     final_report := final_report db;
     geocoded_tweets := geocoded_tweets db;
     actionable_tweets_seq := actionable_tweets_seq db + 1;
     incident_reports_seq := incident_reports_seq db;
     final_report_seq := final_report_seq db;
     geocoded_tweets_seq := geocoded_tweets_seq db |}.

Definition set_tw_status (s : string) (t : tweet) : tweet :=
  {| tw_id := tw_id t; tw_text := tw_text t;
     tw_created_at := tw_created_at t; tw_status := s |}.

(** [UPDATE tweets SET status = %s WHERE id = %s] *)
Definition update_tweet_status_to (new_status : string) (tweet_id : Z) (db : DB) : DB :=
  set_tweets (fmap (λ t, if decide (tw_id t = tweet_id)
                         then set_tw_status new_status t else t)) db.

(** [update_tweet_status] of [tweet_classify.py] *)
Definition update_tweet_status (tweet_id : Z) (db : DB) : DB :=
  update_tweet_status_to "classified" tweet_id db.

Definition classify_tweet (reply : llm_reply) (item : Z * string) (db : DB) : DB :=
  let classification := classify_text reply in
  let db1 := if decide (classification = "Actionable")
             then insert_actionable_tweet item.2 item.1 db else db in
  update_tweet_status item.1 db1.

(** The [for tweet_id, tweet_text in tweets_to_process] loop. *)
Fixpoint classify_tweets (oracle : llm) (i : nat) (items : list (Z * string)) (db : DB)
    : DB :=
  match items with
  | [] => db
  | item :: rest => classify_tweets oracle (S i) rest (classify_tweet (oracle i item.2) item db)
  end.

Definition run (oracle : llm) (db : DB) : DB :=
  classify_tweets oracle 0 (fetch_unclassified_tweets db) db.

End Classifier.

(** ** Combined extract-and-classify stage ([tweet_classify_processer.py]) *)

Module Combined.

(** One pass of the loop body: task 1 extracts and saves, task 2
    classifies, step 4 marks the tweet ['processed'] whatever happened. *)
Definition process_tweet (extraction classification : llm_reply) (item : Z * string)
    (db : DB) : option DB :=
  let after_extract :=
    match Extractor.extract_incident_details extraction with
    | Some j =>
        if truthy j then
          match j with
          | JObject d =>
              Some (Extractor.insert_incident_report
                      (Extractor.make_report item.1 item.2 d) db)
          | JOther _ => None
          end
        else Some db
    | None => Some db
    end in
  match after_extract with
  | None => None
  | Some db1 =>
      let label := Classifier.classify_text classification in
      let db2 := if decide (label = "Actionable")
                 then Classifier.insert_actionable_tweet item.2 item.1 db1 else db1 in
      Some (Classifier.update_tweet_status_to "processed" item.1 db2)
  end.

Fixpoint process_tweets (extractor classifier : llm) (i : nat)
    (items : list (Z * string)) (db : DB) : DB * run_end :=
  match items with
  | [] => (db, Completed)
  | item :: rest =>
      match process_tweet (extractor i item.2) (classifier i item.2) item db with
      | Some db' => process_tweets extractor classifier (S i) rest db'
      | None => (db, Aborted "AttributeError")
      end
  end.

Definition run (extractor classifier : llm) (db : DB) : DB * run_end :=
  process_tweets extractor classifier 0 (Classifier.fetch_unclassified_tweets db) db.

End Combined.

(** ** Geocoding stage ([tweet_geocoder_new.py]) *)

Module Geocoder.

(** [DataManager.get_coordinates]: coordinates, [None] (no result, missing
    key or a request error, which the method catches), or an exception of
    another class, which leaves the method. *)
Inductive geo_reply :=
| GeoFound (lat lon : Z)
| GeoNone
| GeoRaised.

Definition geocoder := nat → string → geo_reply.

(** [fetch_unprocessed_reports]: final reports with no geocoded row. *)
Definition fetch_unprocessed_reports (db : DB) : list final_report_row :=
  filter (λ fr, fr_id fr ∉ gt_source_report_id <$> geocoded_tweets db) (final_report db).

(** [insert_geocoded_report]: INSERT ... ON CONFLICT (source_report_id)
    DO NOTHING; [status] takes its default ['reported']. *)
Definition insert_geocoded_report (report : final_report_row) (lat lon : Z) (db : DB)
    : DB :=
  let row := {| gt_id := geocoded_tweets_seq db;
                gt_source_report_id := fr_id report;
                gt_latitude := Some lat;
                gt_longitude := Some lon;
                gt_event_summary := fr_event_summary report;
                gt_event_location := fr_event_location report;
                gt_number_of_reports := fr_number_of_reports report;
                gt_status := "reported" |} in
  {| tweets := tweets db;
     actionable_tweets := actionable_tweets db;
     incident_reports := incident_reports db;
     final_report := final_report db;
     geocoded_tweets :=
       if decide (fr_id report ∈ gt_source_report_id <$> geocoded_tweets db)
       then geocoded_tweets db
       else geocoded_tweets db ++ [row];
     actionable_tweets_seq := actionable_tweets_seq db;
     incident_reports_seq := incident_reports_seq db;
     final_report_seq := final_report_seq db;
     geocoded_tweets_seq := geocoded_tweets_seq db + 1 |}.

Definition search_query (location_name : string) : string :=
  location_name +:+ ", Vellore".

Definition geocode_report (reply : geo_reply) (report : final_report_row) (db : DB)
    : option DB :=
  match reply with
  | GeoFound lat lon => Some (insert_geocoded_report report lat lon db)
  | GeoNone => Some db
  | GeoRaised => None
  end.

Fixpoint geocode_reports (oracle : geocoder) (i : nat) (items : list final_report_row)
    (db : DB) : DB * run_end :=
  match items with
  | [] => (db, Completed)
  | report :: rest =>
      match geocode_report (oracle i (search_query (fr_event_location report))) report db with
      | Some db' => geocode_reports oracle (S i) rest db'
      | None => (db, Aborted "Exception")
      end
  end.

Definition run (oracle : geocoder) (db : DB) : DB * run_end :=
  geocode_reports oracle 0 (fetch_unprocessed_reports db) db.

End Geocoder.

(** ** Density-based clustering *)

Module Dbscan.
Section dbscan.
Context {E : Type}.
(** [near x y]: the distance from [x] to [y] is at most ε. *)
Variable near : E → E → bool.
Variable min_samples : nat.

(** Modelled from the spec: the density-based clustering step of the
    Clustering Stage ([DBSCAN(eps, min_samples, metric).fit] in
    [tweet_grouper.py] comes from a library that is not part of the
    sources). Neighbourhoods hold, for each sample, the indices of the
    samples within ε, the sample itself included when [near x x]. *)
Definition radius_neighbors (xs : list E) : list (list nat) :=
  (λ x, filter (λ j, from_option (near x) false (xs !! j)) (seq 0 (length xs))) <$> xs.

(** Modelled from the spec: a sample is a core sample when its
    neighbourhood holds at least [min_samples] samples. *)
Definition core_samples (neighborhoods : list (list nat)) : list bool :=
  (λ nb, bool_decide (min_samples ≤ length nb)%nat) <$> neighborhoods.

Definition unlabeled (labels : list Z) (v : nat) : bool :=
  bool_decide (labels !! v = Some (-1)).

(** Modelled from the spec: growing one cluster. A depth-first search
    from the sample [i]: an unlabeled sample takes the label; if it is a
    core sample its unlabeled neighbours are pushed; then the top of the
    stack is taken, until the stack is empty. The head of [stack] is the
    top. [fuel] bounds the number of iterations; [fit] passes enough of it
    for the search to end with an empty stack. *)
Fixpoint expand (fuel : nat) (is_core : list bool) (neighborhoods : list (list nat))
    (label_num : Z) (i : nat) (stack : list nat) (labels : list Z) : list Z :=
  match fuel with
  | O => labels
  | S fuel' =>
      let labels' := if unlabeled labels i then <[i := label_num]> labels else labels in
      let stack' :=
        if unlabeled labels i && default false (is_core !! i)
        then reverse (filter (λ v, unlabeled labels' v) (default [] (neighborhoods !! i))) ++ stack
        else stack in
      match stack' with
      | [] => labels'
      | v :: rest => expand fuel' is_core neighborhoods label_num v rest labels'
      end
  end.

(** Modelled from the spec: the sweep over the samples in index order.
    A labeled or non-core sample is passed over; an unlabeled core
    sample starts the next cluster. *)
Fixpoint sweep (fuel : nat) (is_core : list bool) (neighborhoods : list (list nat))
    (indices : list nat) (label_num : Z) (labels : list Z) : list Z :=
  match indices with
  | [] => labels
  | i :: rest =>
      if negb (unlabeled labels i) || negb (default false (is_core !! i))
      then sweep fuel is_core neighborhoods rest label_num labels
      else sweep fuel is_core neighborhoods rest (label_num + 1)
             (expand fuel is_core neighborhoods label_num i [] labels)
  end.

(** Modelled from the spec: [fit(X).labels_]. Every sample starts as
    noise (−1). *)
Definition fit (xs : list E) : list Z :=
  let n := length xs in
  let neighborhoods := radius_neighbors xs in
  sweep (S (n * S n)) (core_samples neighborhoods) neighborhoods
        (seq 0 n) 0 (replicate n (-1)).

(** Two samples of one run share a cluster. *)
Definition same_cluster (xs : list E) (i j : nat) : Prop :=
  ∃ l, l ≠ -1 ∧ fit xs !! i = Some l ∧ fit xs !! j = Some l.

Definition noise (xs : list E) (i : nat) : Prop :=
  fit xs !! i = Some (-1).
End dbscan.
End Dbscan.

(** The exact test "cosine distance at most 1/2" on integer vectors:
    [x·y ≥ |x||y|/2], squared; a vector is at distance 0 from itself. *)
Definition dot (x y : list Z) : Z :=
  foldr Z.add 0 (zip_with Z.mul x y).

Definition cosine_near (x y : list Z) : bool :=
  bool_decide (x = y
               ∨ (0 ≤ dot x y ∧ 0 < dot x x * dot y y
                  ∧ dot x x * dot y y ≤ 4 * (dot x y * dot x y))).

(** ** Clustering stage ([tweet_grouper.py]) *)

Module Grouper.

(** A psycopg2 connection: statements act on the open transaction,
    [commit] makes its state durable. [commits] is the log of committed
    states, newest first. *)
Record conn := { pending : DB; commits : list DB }.

Definition execute (stmt : DB → DB) (c : conn) : conn :=
  {| pending := stmt (pending c); commits := commits c |}.

Definition commit (c : conn) : conn :=
  {| pending := pending c; commits := pending c :: commits c |}.

Definition connect (db : DB) : conn := {| pending := db; commits := [] |}.

(** [setup_database_schema]: the column and the table are part of the
    store already; what is left is the commit. *)
Definition setup_database_schema (c : conn) : conn := commit c.

(** [fetch_unprocessed_incidents] *)
Definition fetch_unprocessed_incidents (db : DB) : list incident_report :=
  filter (λ r, ir_status r = "unprocessed") (incident_reports db).

(** [INSERT INTO final_report (event_summary, event_location,
    source_incident_ids, number_of_reports) VALUES (...)] *)
Definition sql_insert_final_report (summary location : string) (incident_ids : list Z)
    (db : DB) : DB :=
  let row := {| fr_id := final_report_seq db;
                fr_event_summary := summary;
                fr_event_location := location;
                fr_source_incident_ids := incident_ids;
                fr_number_of_reports := Z.of_nat (length incident_ids) |} in
  {| tweets := tweets db;
     actionable_tweets := actionable_tweets db;
     incident_reports := incident_reports db;
     final_report := final_report db ++ [row];
     geocoded_tweets := geocoded_tweets db;
     actionable_tweets_seq := actionable_tweets_seq db;
     incident_reports_seq := incident_reports_seq db;
     final_report_seq := final_report_seq db + 1;
     geocoded_tweets_seq := geocoded_tweets_seq db |}.

Definition set_ir_status (s : string) (r : incident_report) : incident_report :=
  {| ir_id := ir_id r;
     ir_original_tweet_id := ir_original_tweet_id r;
     ir_extracted_location := ir_extracted_location r;
     ir_extracted_issue := ir_extracted_issue r;
     ir_issue_time := ir_issue_time r;
     ir_original_tweet_text := ir_original_tweet_text r;
     ir_status := s |}.

(** [UPDATE incident_reports SET status = 'grouped' WHERE id IN %s] *)
Definition sql_update_incident_status (incident_ids : list Z) (db : DB) : DB :=
  set_incident_reports
    (fmap (λ r, if decide (ir_id r ∈ incident_ids) then set_ir_status "grouped" r else r))
    db.

(** [insert_final_event_report]: the INSERT, then [conn.commit()]. *)
Definition insert_final_event_report (summary location : string) (incident_ids : list Z)
    (c : conn) : conn :=
  commit (execute (sql_insert_final_report summary location incident_ids) c).

(** [update_incident_status]: the UPDATE, then [conn.commit()]. *)
Definition update_incident_status (incident_ids : list Z) (c : conn) : conn :=
  commit (execute (sql_update_incident_status incident_ids) c).

(** [summarize_cluster], after the model call: the two [.get] defaults on
    an object, the [except] branch for everything that raises ([.get] on a
    value that is not an object raises [AttributeError] inside the [try]). *)
Definition summarize_cluster (reply : llm_reply) : string * string :=
  match reply with
  | Parsed (JObject result) =>
      (dict_get result "summary" "Could not generate summary.",
       dict_get result "location" "Not specified")
  | Parsed (JOther _) => ("Could not generate summary.", "Error")
  | Raised => ("Could not generate summary.", "Error")
  end.

(** The summarizer oracle of one run: the reply for the cluster [label],
    given the member texts. *)
Definition summarizer := Z → list string → llm_reply.

(** The iteration order of [set(labels)]: CPython keeps small integers in
    hash-slot order, the non-negative ones ascending, then −1. *)
Definition unique_labels (labels : list Z) : list Z :=
  filter (λ l, l ∈ labels) (Z.of_nat <$> seq 0 (S (Z.to_nat (foldr Z.max 0 labels))))
  ++ remove_dups (filter (λ l, l < 0) labels).

Definition cluster_indices (labels : list Z) (label : Z) : list nat :=
  filter (λ i, labels !! i = Some label) (seq 0 (length labels)).

(** [[incidents[i] for i in cluster_indices]]; the labels are one per
    incident, so every index is in range. *)
Definition cluster_incidents (incidents : list incident_report) (labels : list Z)
    (label : Z) : list incident_report :=
  omap (λ i, incidents !! i) (cluster_indices labels label).

(** The body of [for label in unique_labels] for a label other than −1. *)
Definition persist_cluster (summ : summarizer) (incidents : list incident_report)
    (labels : list Z) (label : Z) (c : conn) : conn :=
  let members := cluster_incidents incidents labels label in
  let incident_ids_in_cluster := ir_id <$> members in
  let incident_texts_in_cluster := ir_original_tweet_text <$> members in
  let summary_data := summarize_cluster (summ label incident_texts_in_cluster) in
  update_incident_status incident_ids_in_cluster
    (insert_final_event_report summary_data.1 summary_data.2 incident_ids_in_cluster c).

Fixpoint group_labels (summ : summarizer) (incidents : list incident_report)
    (labels : list Z) (todo : list Z) (c : conn) : conn :=
  match todo with
  | [] => c
  | label :: rest =>
      if decide (label = -1) then group_labels summ incidents labels rest c
      else group_labels summ incidents labels rest
             (persist_cluster summ incidents labels label c)
  end.

Section run.
Context {E : Type}.
Variable near : E → E → bool.

(** The embedding service of one run: [None] when the call raises,
    otherwise the vector it gives each text. *)
Definition embedder := option (string → E).

(** [get_embeddings] *)
Definition get_embeddings (svc : embedder) (texts : list string) : option (list E) :=
  (λ e, e <$> texts) <$> svc.

Definition text_for_embedding (inc : incident_report) : string :=
  ir_extracted_location inc +:+ ": " +:+ ir_extracted_issue inc.

(** [DBSCAN(eps=0.5, min_samples=2, metric='cosine').fit(embeddings).labels_] *)
Definition cluster (embeddings : list E) : list Z :=
  Dbscan.fit near 2 embeddings.

(** The script's main block, on an open connection. *)
Definition run (svc : embedder) (summ : summarizer) (c : conn) : conn :=
  let c1 := setup_database_schema c in
  let incidents := fetch_unprocessed_incidents (pending c1) in
  match incidents with
  | [] => c1
  | _ =>
      match get_embeddings svc (text_for_embedding <$> incidents) with
      | None => c1
      | Some embeddings =>
          let labels := cluster embeddings in
          group_labels summ incidents labels (unique_labels labels) c1
      end
  end.
End run.

End Grouper.

(** ** A small store: three reports, two of them about the same flood *)

Module Scenario.

Definition report (id : Z) (loc iss text : string) : incident_report :=
  {| ir_id := id; ir_original_tweet_id := 100 + id;
     ir_extracted_location := loc; ir_extracted_issue := iss;
     ir_issue_time := "Now"; ir_original_tweet_text := text;
     ir_status := "unprocessed" |}.

Definition reports : list incident_report :=
  [ report 1 "Gandhi Nagar" "flooding" "Water entering houses in Gandhi Nagar";
    report 2 "Gandhi Nagar" "water rising" "Gandhi Nagar street is underwater";
    report 3 "Katpadi Road" "tree fallen" "Tree blocks Katpadi Road" ].

Definition store : DB :=
  {| tweets := []; actionable_tweets := []; incident_reports := reports;
     final_report := []; geocoded_tweets := [];
     actionable_tweets_seq := 1; incident_reports_seq := 4;
     final_report_seq := 1; geocoded_tweets_seq := 1 |}.

(** An embedding service that puts the two Gandhi Nagar texts close
    together and the third text at a right angle to them. *)
Definition embedding (text : string) : list Z :=
  if decide (text = "Gandhi Nagar: flooding") then [10; 1]
  else if decide (text = "Gandhi Nagar: water rising") then [9; 2]
  else [0; 1].

Definition embedder : Grouper.embedder := Some embedding.

(** A summarizer whose call fails. *)
Definition failing_summarizer : Grouper.summarizer := λ _ _, Raised.

(** A language model that is down, and one that answers with all three
    fields. *)
Definition llm_down : llm := λ _ _, Raised.

Definition llm_up : llm :=
  λ _ _, Parsed (JObject {[ "location" := "Gandhi Nagar";
                            "issue" := "flooding";
                            "time" := "Now" ]}).

(** A language model that leaves the location out of its answer. *)
Definition llm_partial : llm :=
  λ _ _, Parsed (JObject {[ "issue" := "flooding"; "time" := "Now" ]}).

Definition one_tweet : DB :=
  set_tweets (λ _, [{| tw_id := 42; tw_text := "Water entering houses in Gandhi Nagar";
                       tw_created_at := 0; tw_status := "unclassified" |}]) empty_db.

End Scenario.

(** ** Vocabulary of the proofs *)

(** The tweets table after the status of every tweet with an id in [ids]
    was set to [s]. *)
Definition mark_tweets (s : string) (ids : list Z) (ts : list tweet) : list tweet :=
  (λ t, if decide (tw_id t ∈ ids) then Classifier.set_tw_status s t else t) <$> ts.

(** The incident reports after the status of every report with an id in
    [ids] was set to ["grouped"]. *)
Definition mark_reports (ids : list Z) (rs : list incident_report)
    : list incident_report :=
  (λ r, if decide (ir_id r ∈ ids) then Grouper.set_ir_status "grouped" r else r) <$> rs.

(** The member ids of the cluster [label], and of all the clusters a loop
    over [todo] persists. *)
Definition cluster_ids (incidents : list incident_report) (labels : list Z)
    (label : Z) : list Z :=
  ir_id <$> Grouper.cluster_incidents incidents labels label.

Definition grouped_ids (incidents : list incident_report) (labels todo : list Z)
    : list Z :=
  mjoin (cluster_ids incidents labels <$> filter (λ l, l ≠ -1) todo).

(** The grouping invariant of a store: report ids are unique; every Event
    has members, counts them, and lists only reports that exist with status
    ["grouped"]; no id is listed by two Events. *)
Definition grouping_inv (db : DB) : Prop :=
  NoDup (ir_id <$> incident_reports db)
  ∧ (∀ ev, ev ∈ final_report db →
       fr_source_incident_ids ev ≠ []
       ∧ fr_number_of_reports ev = Z.of_nat (length (fr_source_incident_ids ev))
       ∧ ∀ id, id ∈ fr_source_incident_ids ev →
               ∃ r, r ∈ incident_reports db ∧ ir_id r = id ∧ ir_status r = "grouped")
  ∧ (∀ k1 k2 ev1 ev2 id,
       final_report db !! k1 = Some ev1 → final_report db !! k2 = Some ev2 →
       id ∈ fr_source_incident_ids ev1 → id ∈ fr_source_incident_ids ev2 → k1 = k2).

(** The vocabulary of the clustering proofs: the ε-graph on the sample
    indices, core samples for [min_samples = 2], and the invariants of the
    two loops. *)
Module DbscanSpec.
Section spec.
Context {E : Type}.
Variable near : E → E → bool.
Variable xs : list E.

Definition adjacent (i j : nat) : Prop :=
  ∃ x y, xs !! i = Some x ∧ xs !! j = Some y ∧ near x y = true.

Definition core (i : nat) : Prop :=
  Dbscan.core_samples 2 (Dbscan.radius_neighbors near xs) !! i = Some true.

(** Samples linked by a chain of ε-steps inside [xs]. *)
Definition linked : relation E :=
  rtc (λ x y, x ∈ xs ∧ y ∈ xs ∧ near x y = true).

(** The number of iterations [Dbscan.expand] still needs, at most. *)
Definition budget (labels : list Z) (stack : list nat) : nat :=
  length (filter (λ l, l = -1) labels) * S (length xs) + length stack.

(** While the cluster [c] grows from [root]: [pend] holds the sample in
    hand and the stack. *)
Record expand_inv (c : Z) (root : nat) (pend : list nat) (labels : list Z) : Prop := {
  ei_length : length labels = length xs;
  ei_core : ∀ u l, labels !! u = Some l → l ≠ -1 → core u;
  ei_closed : ∀ u v l, labels !! u = Some l → l ≠ -1 → adjacent u v →
                labels !! v = Some l ∨ (l = c ∧ labels !! v = Some (-1) ∧ v ∈ pend);
  ei_root : ∀ u, labels !! u = Some c → rtc adjacent root u;
  ei_pend : ∀ v, v ∈ pend → rtc adjacent root v ∧ core v;
  ei_old : ∀ u v l, labels !! u = Some l → labels !! v = Some l → l ≠ -1 → l ≠ c →
             rtc adjacent u v;
  ei_range : ∀ u l, labels !! u = Some l → l = -1 ∨ 0 ≤ l ≤ c
}.

(** After the sweep has passed the samples below [k], with [c] the next
    label. *)
Record sweep_inv (c : Z) (k : nat) (labels : list Z) : Prop := {
  si_length : length labels = length xs;
  si_core : ∀ u l, labels !! u = Some l → l ≠ -1 → core u;
  si_closed : ∀ u v l, labels !! u = Some l → l ≠ -1 → adjacent u v →
                labels !! v = Some l;
  si_linked : ∀ u v l, labels !! u = Some l → labels !! v = Some l → l ≠ -1 →
                rtc adjacent u v;
  si_range : ∀ u l, labels !! u = Some l → l = -1 ∨ 0 ≤ l < c;
  si_done : ∀ u, (u < k)%nat → core u → ∃ l, labels !! u = Some l ∧ l ≠ -1
}.

End spec.
End DbscanSpec.

(** The shape the extractor and the geocoder share: a loop over the items
    selected by an anti-join, each pass skipping the item, inserting its
    derived row, or leaving the loop with an exception. *)
Module AntiJoin.

Inductive kind := Skip | Insert | Abort.

Section stage.
Context {A : Type}.
Variable step : A → DB → option DB.

Fixpoint loop (items : list A) (db : DB) : DB :=
  match items with
  | [] => db
  | a :: rest =>
      match step a db with
      | Some db' => loop rest db'
      | None => db
      end
  end.
End stage.

(** What a reply of the extraction collaborator makes of a loop pass. *)
Definition kind_of_reply (reply : llm_reply) : kind :=
  match reply with
  | Raised => Skip
  | Parsed (JObject d) => if truthy (JObject d) then Insert else Skip
  | Parsed (JOther b) => if b then Abort else Skip
  end.

(** What a reply of the geocoding collaborator makes of a loop pass. *)
Definition kind_of_geo (reply : Geocoder.geo_reply) : kind :=
  match reply with
  | Geocoder.GeoFound _ _ => Insert
  | Geocoder.GeoNone => Skip
  | Geocoder.GeoRaised => Abort
  end.

End AntiJoin.

(** The key discipline of the derived tables: the SERIAL ids are unique and
    below their sequence, and the source-id column is unique. *)
Definition report_keys_ok (db : DB) : Prop :=
  NoDup (ir_id <$> incident_reports db)
  ∧ (∀ r, r ∈ incident_reports db → ir_id r < incident_reports_seq db)
  ∧ NoDup (ir_original_tweet_id <$> incident_reports db).

Definition event_keys_ok (db : DB) : Prop :=
  NoDup (fr_id <$> final_report db)
  ∧ (∀ ev, ev ∈ final_report db → fr_id ev < final_report_seq db).

Definition geocoded_keys_ok (db : DB) : Prop :=
  NoDup (gt_id <$> geocoded_tweets db)
  ∧ (∀ g, g ∈ geocoded_tweets db → gt_id g < geocoded_tweets_seq db)
  ∧ NoDup (gt_source_report_id <$> geocoded_tweets db).

(** The extractor's loop over [items] gets as far as item [i]: no reply
    to an earlier item was a truthy value other than an object, the one
    reply that makes [extracted_data.get] raise and ends the batch. *)
Definition reaches (oracle : llm) (items : list tweet) (i : nat) : Prop :=
  ∀ j t, (j < i)%nat → items !! j = Some t →
         oracle j (tw_text t) ≠ Parsed (JOther true).

(** ** Stores and collaborators for the failure and classifier cases *)

Module FailureScenario.

(** Two tweets without a report. *)
Definition two_tweets : DB :=
  set_tweets (λ _, [{| tw_id := 1; tw_text := "Road flooded"; tw_created_at := 0;
                       tw_status := "unclassified" |};
                    {| tw_id := 2; tw_text := "Bridge closed"; tw_created_at := 1;
                       tw_status := "unclassified" |}]) empty_db.

(** A language model that answers the first item with an object that has
    the issue only, and every later item with a JSON list. *)
Definition llm_partial_then_list : llm :=
  λ i _, match i with
         | O => Parsed (JObject {[ "issue" := "flooding" ]})
         | S _ => Parsed (JOther true)
         end.

End FailureScenario.

Module ClassifierScenario.

(** Tweet 41 was classified actionable by an earlier run; tweets 42 and 43
    are new. *)
Definition store : DB :=
  {| tweets := [{| tw_id := 41; tw_text := "Wall collapsed"; tw_created_at := 0;
                   tw_status := "classified" |};
                {| tw_id := 42; tw_text := "Water entering houses"; tw_created_at := 1;
                   tw_status := "unclassified" |};
                {| tw_id := 43; tw_text := "Lovely rain today"; tw_created_at := 2;
                   tw_status := "unclassified" |}];
     actionable_tweets := [{| at_id := 1; at_source_tweet_id := 41;
                              at_original_tweet_text := "Wall collapsed" |}];
     incident_reports := []; final_report := []; geocoded_tweets := [];
     actionable_tweets_seq := 2; incident_reports_seq := 1;
     final_report_seq := 1; geocoded_tweets_seq := 1 |}.

(** A language model that finds the flooded houses actionable and the
    rest noise. *)
Definition llm_labels : llm :=
  λ _ text,
    Parsed (JObject {[ "classification" :=
                         if decide (text = "Water entering houses")
                         then "Actionable" else "Noise" ]}).

End ClassifierScenario.

(** ** A store for the geocoding stage *)

Module GeoScenario.

Definition event (id : Z) (loc : string) : final_report_row :=
  {| fr_id := id; fr_event_summary := "Flooding reported";
     fr_event_location := loc; fr_source_incident_ids := [1; 2];
     fr_number_of_reports := 2 |}.

(** Two Events; the first was geocoded by an earlier run and dispatched
    since. *)
Definition store : DB :=
  {| tweets := []; actionable_tweets := []; incident_reports := [];
     final_report := [event 1 "Gandhi Nagar"; event 2 "Katpadi Road"];
     geocoded_tweets := [Api.sample_row 1 "dispatched"];
     actionable_tweets_seq := 1; incident_reports_seq := 1;
     final_report_seq := 3; geocoded_tweets_seq := 2 |}.

(** A geocoder that finds every place, and one that finds none. *)
Definition found : Geocoder.geocoder := λ _ _, Geocoder.GeoFound 12 79.

Definition not_found : Geocoder.geocoder := λ _ _, Geocoder.GeoNone.

End GeoScenario.

(** ** SMS intake ([load_sms_data.py]) *)

Module SmsLoader.

(** [sms_reports (id SERIAL PRIMARY KEY, sender_number, recipient_number,
    message_body, message_sid TEXT UNIQUE NOT NULL)]; [received_at] is
    filled by its default and read by nothing. *)
Record sms_report := {
  sr_id : Z;
  sr_sender_number : string;
  sr_recipient_number : string;
  sr_message_body : string;
  sr_message_sid : string
}.

Record SmsDB := {
  sms_reports : list sms_report;
  sms_reports_seq : Z
}.

(** One element of the JSON file: an object whose values are strings. *)
Definition message := gmap string string.

(** The parameters of one INSERT. *)
Record sms_values := {
  sv_from : string;
  sv_to : string;
  sv_body : string;
  sv_sid : string
}.

(** [(msg['from'], msg['to'], msg['body'], msg['messageSid'])]; [None] is
    the KeyError of a missing key. *)
Definition sms_tuple (msg : message) : option sms_values :=
  f ← msg !! "from"; t ← msg !! "to"; b ← msg !! "body"; s ← msg !! "messageSid";
  Some {| sv_from := f; sv_to := t; sv_body := b; sv_sid := s |}.

(** [INSERT INTO sms_reports ... ON CONFLICT (message_sid) DO NOTHING] *)
Definition sql_insert_sms (v : sms_values) (db : SmsDB) : SmsDB :=
  {| sms_reports :=
       if decide (sv_sid v ∈ sr_message_sid <$> sms_reports db)
       then sms_reports db
       else sms_reports db ++ [{| sr_id := sms_reports_seq db;
                                  sr_sender_number := sv_from v;
                                  sr_recipient_number := sv_to v;
                                  sr_message_body := sv_body v;
                                  sr_message_sid := sv_sid v |}];
     sms_reports_seq := sms_reports_seq db + 1 |}.

(** [extras.execute_batch]: the statement once per parameter tuple, in
    order, in the one transaction that [insert_sms_data] commits. *)
Definition execute_batch (rows : list sms_values) (db : SmsDB) : SmsDB :=
  foldl (λ db v, sql_insert_sms v db) db rows.

(** [insert_sms_data]: the list comprehension is evaluated in full before
    the first statement runs. *)
Definition insert_sms_data (sms_data : list message) (db : SmsDB) : SmsDB * run_end :=
  match mapM sms_tuple sms_data with
  | Some rows => (execute_batch rows db, Completed)
  | None => (db, Aborted "KeyError")
  end.

(** The script's main block, given what [read_sms_from_json] returned:
    [None] for a missing or unparseable file. An empty list is falsy. *)
Definition main (file : option (list message)) (db : SmsDB) : SmsDB * run_end :=
  match file with
  | Some (msg :: rest) => insert_sms_data (msg :: rest) db
  | _ => (db, Completed)
  end.

Definition sms_keys_ok (db : SmsDB) : Prop :=
  NoDup (sr_id <$> sms_reports db)
  ∧ (∀ r, r ∈ sms_reports db → sr_id r < sms_reports_seq db)
  ∧ NoDup (sr_message_sid <$> sms_reports db).

(** A file of three messages: the third repeats the sid of the first. *)
Definition sms (sender body sid : string) : message :=
  {[ "from" := sender; "to" := "+10000000000"; "body" := body; "messageSid" := sid ]}.

Definition sample_file : list message :=
  [ sms "+911" "Water entering houses" "SM1";
    sms "+912" "Tree fell on the road" "SM2";
    sms "+913" "Water entering houses, again" "SM1" ].

(** The same file with the sid of the second message missing. *)
Definition broken_file : list message :=
  [ sms "+911" "Water entering houses" "SM1";
    {[ "from" := "+912"; "to" := "+10000000000"; "body" := "Tree fell on the road" ]} ].

Definition empty_sms_db : SmsDB := {| sms_reports := []; sms_reports_seq := 1 |}.

End SmsLoader.

(** ** SMS geocoding ([sms_geocoder_2.py]) *)

Module SmsGeocoder.

(** [processed_sms_reports], the table [sms_processer.py] fills. *)
Record processed_sms_report := {
  ps_id : Z;
  ps_original_sms_id : Z;
  ps_extracted_location : option string;
  ps_extracted_issue : option string;
  ps_issue_time : option string;
  ps_original_sms_body : option string
}.

(** [geocoded_sms_data (id SERIAL, source_sms_id INTEGER UNIQUE NOT NULL,
    latitude, longitude, extracted_location, extracted_issue, issue_time,
    original_sms_body)] *)
Record geocoded_sms := {
  gs_id : Z;
  gs_source_sms_id : Z;
  gs_latitude : option Z;
  gs_longitude : option Z;
  gs_extracted_location : option string;
  gs_extracted_issue : option string;
  gs_issue_time : option string;
  gs_original_sms_body : option string
}.

Record GeoDB := {
  processed_sms_reports : list processed_sms_report;
  geocoded_sms_data : list geocoded_sms;
  geocoded_sms_data_seq : Z
}.

(** A row of the selection: [psr.id AS original_sms_id] and the four
    columns carried along; the location is not NULL there. *)
Record sms_item := {
  original_sms_id : Z;
  extracted_location : string;
  extracted_issue : option string;
  issue_time : option string;
  original_sms_body : option string
}.

(** [fetch_unprocessed_sms]: processed reports with no geocoded row, whose
    location is neither NULL nor ['Not specified']. *)
Definition fetch_unprocessed_sms (db : GeoDB) : list sms_item :=
  omap (λ psr,
          match ps_extracted_location psr with
          | Some l =>
              if decide ((ps_id psr ∉ gs_source_sms_id <$> geocoded_sms_data db)
                         ∧ l ≠ "Not specified")
              then Some {| original_sms_id := ps_id psr;
                           extracted_location := l;
                           extracted_issue := ps_extracted_issue psr;
                           issue_time := ps_issue_time psr;
                           original_sms_body := ps_original_sms_body psr |}
              else None
          | None => None
          end) (processed_sms_reports db).

(** [insert_geocoded_sms]: INSERT ... ON CONFLICT (source_sms_id) DO NOTHING *)
Definition insert_geocoded_sms (sms : sms_item) (lat lon : Z) (db : GeoDB) : GeoDB :=
  {| processed_sms_reports := processed_sms_reports db;
     geocoded_sms_data :=
       if decide (original_sms_id sms ∈ gs_source_sms_id <$> geocoded_sms_data db)
       then geocoded_sms_data db
       else geocoded_sms_data db
            ++ [{| gs_id := geocoded_sms_data_seq db;
                   gs_source_sms_id := original_sms_id sms;
                   gs_latitude := Some lat;
                   gs_longitude := Some lon;
                   gs_extracted_location := Some (extracted_location sms);
                   gs_extracted_issue := extracted_issue sms;
                   gs_issue_time := issue_time sms;
                   gs_original_sms_body := original_sms_body sms |}];
     geocoded_sms_data_seq := geocoded_sms_data_seq db + 1 |}.

(** The language model asked to tidy a location: its stripped answer, or
    [None] when the call raised. *)
Definition cleaner := nat → string → option string.

(** [clean_location_with_ai]: the original text when the call fails. *)
Definition clean_location_with_ai (reply : option string) (vague_location : string)
    : string :=
  default vague_location reply.

Fixpoint geocode_sms (clean : cleaner) (oracle : Geocoder.geocoder) (i : nat)
    (items : list sms_item) (db : GeoDB) : GeoDB * run_end :=
  match items with
  | [] => (db, Completed)
  | sms :: rest =>
      let location_name := extracted_location sms in
      let cleaned_location :=
        clean_location_with_ai (clean i location_name) location_name in
      match oracle i cleaned_location with
      | Geocoder.GeoFound lat lon =>
          geocode_sms clean oracle (S i) rest (insert_geocoded_sms sms lat lon db)
      | Geocoder.GeoNone => geocode_sms clean oracle (S i) rest db
      | Geocoder.GeoRaised => (db, Aborted "Exception")
      end
  end.

Definition run (clean : cleaner) (oracle : Geocoder.geocoder) (db : GeoDB)
    : GeoDB * run_end :=
  geocode_sms clean oracle 0 (fetch_unprocessed_sms db) db.

(** Two processed reports: one with a place, one where the extraction
    found none. *)
Definition sample_reports : list processed_sms_report :=
  [ {| ps_id := 1; ps_original_sms_id := 11;
       ps_extracted_location := Some "near Arcot Road";
       ps_extracted_issue := Some "People trapped by water";
       ps_issue_time := Some "Now";
       ps_original_sms_body := Some "Trapped near Arcot Road" |};
    {| ps_id := 2; ps_original_sms_id := 12;
       ps_extracted_location := Some "Not specified";
       ps_extracted_issue := Some "Need for medicine";
       ps_issue_time := Some "Not specified";
       ps_original_sms_body := Some "Need medicine" |} ].

Definition sample_geo_db : GeoDB :=
  {| processed_sms_reports := sample_reports; geocoded_sms_data := [];
     geocoded_sms_data_seq := 1 |}.

(** A cleaner whose call fails, and a geocoder that finds every place. *)
Definition cleaner_down : cleaner := λ _ _, None.

Definition finds_all : Geocoder.geocoder := λ _ _, Geocoder.GeoFound 12 79.

End SmsGeocoder.

(** * Properties *)

(** ** Dispatch workflow *)

Module ApiFacts.
Import Api.

Lemma select_status_None report_id db :
  select_status report_id db = None ↔ ¬ row_exists report_id db.
Proof.
  unfold select_status, row_exists. destruct db as [? ? ? ? g ? ? ? ?]; simpl.
  induction g as [|r g IH]; simpl.
  - split; [intros _ H; inversion H | done].
  - rewrite filter_cons. case_decide as Hr; simpl.
    + split; [done | intros H; exfalso; apply H; rewrite <- Hr; left].
    + rewrite IH. split.
      * intros H1 H2. apply elem_of_cons in H2 as [H2|H2]; [congruence | done].
      * intros H1 H2. apply H1. by right.
Qed.

Lemma update_status_missing s report_id db :
  ¬ row_exists report_id db → update_status s report_id db = db.
Proof.
  unfold update_status, row_exists, set_geocoded_tweets.
  destruct db as [? ? ? ? g ? ? ? ?]; simpl. intros Hno. f_equal.
  induction g as [|r g IH]; simpl; [done|].
  rewrite fmap_cons in Hno. rewrite not_elem_of_cons in Hno. destruct Hno as [Hne Hno].
  case_decide; [congruence|]. f_equal. by apply IH.
Qed.

Lemma select_update_status s report_id db :
  select_status report_id (update_status s report_id db)
  = (λ _, s) <$> select_status report_id db.
Proof.
  unfold select_status, update_status. destruct db as [? ? ? ? g ? ? ? ?]; simpl.
  induction g as [|r g IH]; simpl; [done|].
  rewrite !filter_cons. destruct (decide (gt_source_report_id r = report_id)) as [Hr|Hr].
  - simpl. rewrite decide_True by done. done.
  - rewrite decide_False by done. done.
Qed.

(** The toggle, from a row the store holds with status [st]. *)
Lemma dispatch_status report_id db st :
  select_status report_id db = Some st →
  select_status report_id (dispatch_incident true report_id db).1
  = Some (if decide (st = "dispatched") then "reported" else "dispatched").
Proof.
  intros H. unfold dispatch_incident. rewrite H. simpl.
  rewrite select_update_status, H. done.
Qed.

Lemma complete_status report_id db st :
  select_status report_id db = Some st →
  select_status report_id (complete_incident true report_id db).1 = Some "completed".
Proof.
  intros H. unfold complete_incident. simpl. rewrite select_update_status, H. done.
Qed.

(** One dispatch takes ["reported"] to ["dispatched"], a second one back;
    completing works from both. *)
Lemma dispatch_toggle_symmetry report_id db :
  select_status report_id db = Some "reported" →
  let db1 := (dispatch_incident true report_id db).1 in
  let db2 := (dispatch_incident true report_id db1).1 in
  select_status report_id db1 = Some "dispatched"
  ∧ select_status report_id db2 = Some "reported"
  ∧ select_status report_id (complete_incident true report_id db).1 = Some "completed"
  ∧ select_status report_id (complete_incident true report_id db1).1 = Some "completed".
Proof.
  intros H db1 db2.
  assert (H1 : select_status report_id db1 = Some "dispatched").
  { unfold db1. by rewrite (dispatch_status _ _ _ H). }
  split; [done|]. split.
  { unfold db2. by rewrite (dispatch_status _ _ _ H1). }
  split; eauto using complete_status.
Qed.

(** C1: a dispatch action on a row whose status is ["completed"] is
    accepted (200, success) and moves the row to ["dispatched"]: the state
    ["completed"] is left again, where the claim has it terminal. *)
Theorem dispatch_on_completed_reopens report_id db :
  select_status report_id db = Some "completed" →
  (dispatch_incident true report_id db).2
    = {| status_code := 200; payload := DispatchOk "dispatched" |}
  ∧ select_status report_id (dispatch_incident true report_id db).1 = Some "dispatched".
Proof.
  intros H. split.
  - unfold dispatch_incident. rewrite H. done.
  - by rewrite (dispatch_status _ _ _ H).
Qed.

Lemma dispatch_on_completed_reopens_witness :
  select_status 7 (sample_db 7 "completed") = Some "completed"
  ∧ (dispatch_incident true 7 (sample_db 7 "completed")).2
      = {| status_code := 200; payload := DispatchOk "dispatched" |}
  ∧ select_status 7 (dispatch_incident true 7 (sample_db 7 "completed")).1
      = Some "dispatched".
Proof.
  split; [reflexivity|].
  apply (dispatch_on_completed_reopens 7 (sample_db 7 "completed")). reflexivity.
Defined.

(** The route in front of a view: for an id that is not negative the
    server runs the view; a negative id is answered 404 with the store
    untouched. *)
Lemma post_dispatch_view reachable report_id db :
  0 ≤ report_id →
  post_dispatch reachable report_id db = dispatch_incident reachable report_id db.
Proof. intros H. unfold post_dispatch, int_converter. by rewrite decide_True. Qed.

Lemma post_complete_view reachable report_id db :
  0 ≤ report_id →
  post_complete reachable report_id db = complete_incident reachable report_id db.
Proof. intros H. unfold post_complete, int_converter. by rewrite decide_True. Qed.

Lemma post_negative reachable report_id db :
  report_id < 0 →
  post_dispatch reachable report_id db = (db, not_found)
  ∧ post_complete reachable report_id db = (db, not_found).
Proof.
  intros H. unfold post_dispatch, post_complete, int_converter.
  rewrite decide_False by lia. done.
Qed.

(** C8, as stated, fails: POST /api/incidents/8/complete on a store with no
    row for id 8 is routed to the view and answered 200 with a success
    payload, not 404; the dispatch action on the same id is answered 500. *)
Lemma missing_row_not_404 :
  ¬ row_exists 8 (sample_db 7 "reported")
  ∧ (post_complete true 8 (sample_db 7 "reported")).2
      = {| status_code := 200; payload := CompleteOk |}
  ∧ status_code (post_dispatch true 8 (sample_db 7 "reported")).2 ≠ 404.
Proof.
  split; [|split].
  - unfold row_exists; simpl. rewrite list_elem_of_singleton. done.
  - reflexivity.
  - vm_compute. done.
Qed.

(** C8, amended: a dispatch or complete request for an id with no row
    never changes the store. For a negative id both are answered 404, as
    the claim has it. For an id that is not negative the complete request
    is answered 200 with a success payload when the database is
    reachable. *)
Theorem missing_row_no_state_change reachable report_id db :
  ¬ row_exists report_id db →
  (post_dispatch reachable report_id db).1 = db
  ∧ (post_complete reachable report_id db).1 = db
  ∧ (report_id < 0 →
     (post_dispatch reachable report_id db).2 = not_found
     ∧ (post_complete reachable report_id db).2 = not_found)
  ∧ (0 ≤ report_id →
     (post_complete true report_id db).2
     = {| status_code := 200; payload := CompleteOk |}).
Proof.
  intros Hno. destruct (decide (0 ≤ report_id)) as [Hpos|Hneg].
  - rewrite !post_dispatch_view, !post_complete_view by done. split_and!.
    + unfold dispatch_incident. destruct reachable; [|done].
      apply select_status_None in Hno. by rewrite Hno.
    + unfold complete_incident. destruct reachable; [|done].
      simpl. by apply update_status_missing.
    + intros ?. lia.
    + done.
  - destruct (post_negative reachable report_id db) as [-> ->]; [lia|].
    split_and!; [done..|]. intros ?. lia.
Qed.

Lemma missing_row_no_state_change_witness :
  (¬ row_exists 8 (sample_db 7 "reported")
   ∧ (post_dispatch true 8 (sample_db 7 "reported")).1 = sample_db 7 "reported"
   ∧ (post_complete true 8 (sample_db 7 "reported")).1 = sample_db 7 "reported"
   ∧ (post_complete true 8 (sample_db 7 "reported")).2
       = {| status_code := 200; payload := CompleteOk |})
  ∧ (¬ row_exists (-1) (sample_db 7 "reported")
     ∧ (post_complete true (-1) (sample_db 7 "reported")).1 = sample_db 7 "reported"
     ∧ (post_complete true (-1) (sample_db 7 "reported")).2 = not_found).
Proof.
  assert (H8 : ¬ row_exists 8 (sample_db 7 "reported")).
  { unfold row_exists; simpl. rewrite list_elem_of_singleton. done. }
  assert (H1 : ¬ row_exists (-1) (sample_db 7 "reported")).
  { unfold row_exists; simpl. rewrite list_elem_of_singleton. done. }
  split.
  - destruct (missing_row_no_state_change true 8 (sample_db 7 "reported") H8)
      as (Hd & Hc & _ & Hpos).
    specialize (Hpos ltac:(lia)). done.
  - destruct (missing_row_no_state_change true (-1) (sample_db 7 "reported") H1)
      as (_ & Hc & Hneg & _).
    destruct Hneg as [_ Hnf]; [lia|]. done.
Defined.

End ApiFacts.

(** ** Clustering stage: persistence of one cluster *)

Module GrouperFacts.
Import Grouper.

Lemma pending_persist_cluster summ incidents labels label c :
  let ids := ir_id <$> cluster_incidents incidents labels label in
  let ev := summarize_cluster
              (summ label (ir_original_tweet_text <$> cluster_incidents incidents labels label)) in
  pending (persist_cluster summ incidents labels label c)
  = sql_update_incident_status ids (sql_insert_final_report ev.1 ev.2 ids (pending c)).
Proof. reflexivity. Qed.

Lemma updated_members_grouped ids db r :
  r ∈ incident_reports (sql_update_incident_status ids db) →
  ir_id r ∈ ids → ir_status r = "grouped".
Proof.
  unfold sql_update_incident_status, set_incident_reports; simpl.
  intros Hr Hid. apply list_elem_of_fmap in Hr as (r0 & -> & Hr0).
  case_decide as Hd; [done|].
  exfalso. apply Hd. exact Hid.
Qed.

(** C2, amended: persisting a cluster commits twice. The first commit
    holds the new Event row with the incident reports untouched; the second
    one, made right after it, holds the members' status set to ["grouped"]. *)
Theorem persist_cluster_two_commits summ incidents labels label c :
  let ids := ir_id <$> cluster_incidents incidents labels label in
  ∃ ev s1 s2,
    commits (persist_cluster summ incidents labels label c) = s2 :: s1 :: commits c
    ∧ pending (persist_cluster summ incidents labels label c) = s2
    ∧ fr_source_incident_ids ev = ids
    ∧ final_report s1 = final_report (pending c) ++ [ev]
    ∧ incident_reports s1 = incident_reports (pending c)
    ∧ final_report s2 = final_report s1
    ∧ ∀ r, r ∈ incident_reports s2 → ir_id r ∈ ids → ir_status r = "grouped".
Proof.
  intros ids.
  set (ev := summarize_cluster
               (summ label (ir_original_tweet_text <$> cluster_incidents incidents labels label))).
  eexists _, (sql_insert_final_report ev.1 ev.2 ids (pending c)),
    (sql_update_incident_status ids (sql_insert_final_report ev.1 ev.2 ids (pending c))).
  split; [reflexivity|]. split; [reflexivity|].
  split; [|split; [reflexivity|]]; [reflexivity|].
  split; [reflexivity|]. split; [reflexivity|].
  intros r Hr Hid. eapply updated_members_grouped; eauto.
Qed.



End GrouperFacts.

(** ** Extractor stage *)

Module ExtractorFacts.
Import Extractor.

Lemma truthy_object d : truthy (JObject d) = true ↔ d ≠ ∅.
Proof.
  simpl. rewrite negb_true_iff, bool_decide_eq_false. done.
Qed.

Lemma tweets_insert report db :
  tweets (insert_incident_report report db) = tweets db.
Proof. reflexivity. Qed.

Lemma has_report_insert report db id :
  has_report id (insert_incident_report report db)
  ↔ id = original_tweet_id report ∨ has_report id db.
Proof.
  unfold has_report, insert_incident_report; simpl. case_decide as H.
  - split; [by right | intros [->|?]; done].
  - rewrite fmap_app, elem_of_app. simpl. rewrite list_elem_of_singleton. tauto.
Qed.

Lemma reports_insert_prefix report db :
  incident_reports db `prefix_of` incident_reports (insert_incident_report report db).
Proof.
  unfold insert_incident_report; simpl. case_decide.
  - done.
  - by apply prefix_app_r.
Qed.

Lemma reports_insert_fresh id text d db :
  ¬ has_report id db →
  ∃ r, r ∈ incident_reports (insert_incident_report (make_report id text d) db)
       ∧ ir_original_tweet_id r = id
       ∧ ir_extracted_location r = dict_get d "location" "Extraction Failed"
       ∧ ir_extracted_issue r = dict_get d "issue" "Extraction Failed"
       ∧ ir_issue_time r = dict_get d "time" "Extraction Failed"
       ∧ ir_original_tweet_text r = text.
Proof.
  intros Hno. unfold insert_incident_report; simpl.
  rewrite decide_False by exact Hno.
  eexists. split; [apply elem_of_app; right; apply list_elem_of_singleton; reflexivity|].
  simpl. done.
Qed.

(** What one pass of the loop body can do to the store. *)
Lemma process_tweet_Some reply t db db' :
  process_tweet reply t db = Some db' →
  tweets db' = tweets db
  ∧ incident_reports db `prefix_of` incident_reports db'
  ∧ ∀ id, has_report id db'
          ↔ has_report id db ∨ (id = tw_id t ∧ ∃ d, reply = Parsed (JObject d) ∧ d ≠ ∅).
Proof.
  unfold process_tweet. destruct reply as [|j]; simpl.
  - intros [= <-]. split; [done|]. split; [done|]. intros id. split; [tauto|].
    intros [?|(_ & d & ? & _)]; [done | discriminate].
  - destruct (truthy j) eqn:Ht.
    + destruct j as [d|b]; [|discriminate]. intros [= <-].
      split; [done|]. split; [apply reports_insert_prefix|].
      intros id. rewrite has_report_insert. simpl.
      apply truthy_object in Ht. split.
      * intros [->|?]; [right|by left]. split; [done|]. by exists d.
      * intros [?|(-> & _)]; [by right | by left].
    + intros [= <-]. split; [done|]. split; [done|]. intros id. split; [tauto|].
      intros [?|(_ & d & [= ->] & Hd)]; [done|].
      apply truthy_object in Hd. congruence.
Qed.

Lemma process_tweets_inv oracle items : ∀ k db,
  let res := process_tweets oracle k items db in
  tweets res.1 = tweets db
  ∧ incident_reports db `prefix_of` incident_reports res.1
  ∧ ∀ id, has_report id res.1 →
          has_report id db
          ∨ ∃ j t d, items !! j = Some t ∧ tw_id t = id
                     ∧ oracle (k + j)%nat (tw_text t) = Parsed (JObject d) ∧ d ≠ ∅.
Proof.
  induction items as [|t rest IH]; intros k db; simpl.
  - split; [done|]. split; [done|]. intros id ?. by left.
  - destruct (process_tweet (oracle k (tw_text t)) t db) as [db1|] eqn:Hstep; simpl.
    + apply process_tweet_Some in Hstep as (Htw & Hpre & Hrep).
      destruct (IH (S k) db1) as (IH1 & IH2 & IH3).
      split; [congruence|]. split; [by etrans|].
      intros id Hid. apply IH3 in Hid as [Hid|(j & t' & d & Hj & Hid & Ho & Hd)].
      * apply Hrep in Hid as [?|(-> & d & Ho & Hd)]; [by left|].
        right. exists 0%nat, t, d. rewrite Nat.add_0_r. done.
      * right. exists (S j), t', d. replace (k + S j)%nat with (S k + j)%nat by lia. done.
    + split; [done|]. split; [done|]. intros id ?. by left.
Qed.

(** An item whose reply is not a non-empty object gets no report, whatever
    happens to the rest of the batch. *)
Lemma process_tweets_skipped oracle items k db j t :
  NoDup (tw_id <$> items) →
  items !! j = Some t →
  ¬ has_report (tw_id t) db →
  (∀ d, oracle (k + j)%nat (tw_text t) = Parsed (JObject d) → d = ∅) →
  ¬ has_report (tw_id t) (process_tweets oracle k items db).1.
Proof.
  intros Hnd Hj Hno Hreply Hhas.
  destruct (process_tweets_inv oracle items k db) as (_ & _ & H).
  apply H in Hhas as [?|(j' & t' & d & Hj' & Hid & Ho & Hd)]; [done|].
  assert (j' = j) as ->.
  { eapply NoDup_lookup; [exact Hnd| |].
    - rewrite list_lookup_fmap, Hj'. simpl. reflexivity.
    - rewrite list_lookup_fmap, Hj. simpl. by rewrite Hid. }
  assert (t' = t) as -> by congruence.
  apply Hd. eapply Hreply. exact Ho.
Qed.

(** An item whose reply is a non-empty object gets its row, with the
    sentinel in the place of every missing field, once the loop is through. *)
Lemma process_tweets_row oracle items : ∀ k db db' j t d,
  process_tweets oracle k items db = (db', Completed) →
  NoDup (tw_id <$> items) →
  (∀ t', t' ∈ items → ¬ has_report (tw_id t') db) →
  items !! j = Some t →
  oracle (k + j)%nat (tw_text t) = Parsed (JObject d) → d ≠ ∅ →
  ∃ r, r ∈ incident_reports db'
       ∧ ir_original_tweet_id r = tw_id t
       ∧ ir_extracted_location r = dict_get d "location" "Extraction Failed"
       ∧ ir_extracted_issue r = dict_get d "issue" "Extraction Failed"
       ∧ ir_issue_time r = dict_get d "time" "Extraction Failed"
       ∧ ir_original_tweet_text r = tw_text t.
Proof.
  induction items as [|t0 rest IH]; intros k db db' j t d Hrun Hnd Hfresh Hj Ho Hd;
    [done|].
  simpl in Hrun.
  destruct (process_tweet (oracle k (tw_text t0)) t0 db) as [db1|] eqn:Hstep;
    [|discriminate].
  rewrite fmap_cons in Hnd. apply NoDup_cons in Hnd as [Hnotin Hnd].
  destruct j as [|j]; simpl in Hj.
  - injection Hj as ->. rewrite Nat.add_0_r in Ho.
    unfold process_tweet in Hstep. rewrite Ho in Hstep. simpl in Hstep.
    apply truthy_object in Hd. simpl in Hd. rewrite Hd in Hstep.
    injection Hstep as <-.
    destruct (reports_insert_fresh (tw_id t) (tw_text t) d db) as (r & Hr & Hfields).
    { apply Hfresh. left. }
    exists r. split; [|exact Hfields].
    destruct (process_tweets_inv oracle rest (S k)
                (insert_incident_report (make_report (tw_id t) (tw_text t) d) db))
      as (_ & Hpre & _).
    rewrite Hrun in Hpre. simpl in Hpre.
    destruct Hpre as [l ->]. apply elem_of_app. by left.
  - apply (IH (S k) db1 db' j t d); try done.
    + intros t' Ht' Hhas.
      apply process_tweet_Some in Hstep as (_ & _ & Hrep).
      apply Hrep in Hhas as [Hhas|(Heq & _)].
      * apply (Hfresh t'); [by right | done].
      * apply Hnotin. rewrite <- Heq. apply list_elem_of_fmap. by exists t'.
    + by replace (S k + j)%nat with (k + S j)%nat by lia.
Qed.

Lemma fetch_unprocessed_spec t db :
  t ∈ fetch_unprocessed_tweets db ↔ t ∈ tweets db ∧ ¬ has_report (tw_id t) db.
Proof.
  unfold fetch_unprocessed_tweets, has_report. rewrite list_elem_of_filter. tauto.
Qed.

Lemma fetch_unprocessed_NoDup db :
  NoDup (tw_id <$> tweets db) → NoDup (tw_id <$> fetch_unprocessed_tweets db).
Proof.
  unfold fetch_unprocessed_tweets. intros H.
  eapply sublist_NoDup; [exact H|]. apply fmap_sublist, sublist_filter.
Qed.

(** An item whose reply is not a non-empty object has no report after the
    run and is selected again. *)
Lemma skipped_item_stays_selected oracle db i t :
  NoDup (tw_id <$> tweets db) →
  fetch_unprocessed_tweets db !! i = Some t →
  (∀ d, oracle i (tw_text t) = Parsed (JObject d) → d = ∅) →
  ¬ has_report (tw_id t) (run oracle db).1
  ∧ t ∈ fetch_unprocessed_tweets (run oracle db).1.
Proof.
  intros Hnd Hi Hreply.
  pose proof (fetch_unprocessed_NoDup db Hnd) as Hnd'.
  pose proof (list_elem_of_lookup_2 _ _ _ Hi) as Ht.
  apply fetch_unprocessed_spec in Ht as [Ht Hfresh].
  assert (Hno : ¬ has_report (tw_id t) (run oracle db).1).
  { unfold run. by apply (process_tweets_skipped oracle _ 0%nat db i t Hnd' Hi). }
  split; [exact Hno|].
  apply fetch_unprocessed_spec. split; [|exact Hno].
  unfold run. destruct (process_tweets_inv oracle (fetch_unprocessed_tweets db) 0%nat db)
    as (-> & _). exact Ht.
Qed.

End ExtractorFacts.

(** ** Classifier and combined stage: every selected tweet is advanced *)

Module ClassifierFacts.
Import Classifier.

Lemma tweets_update_status s id db :
  tweets (update_tweet_status_to s id db) = mark_tweets s [id] (tweets db).
Proof.
  unfold update_tweet_status_to, set_tweets, mark_tweets; simpl.
  apply list_fmap_ext. intros _ t _.
  destruct (decide (tw_id t = id)) as [Heq|Hne].
  - rewrite decide_True; [done|]. rewrite Heq. left.
  - rewrite decide_False; [done|]. by rewrite list_elem_of_singleton.
Qed.

Lemma mark_tweets_cons s id ids ts :
  mark_tweets s ids (mark_tweets s [id] ts) = mark_tweets s (id :: ids) ts.
Proof.
  unfold mark_tweets. rewrite <- list_fmap_compose. apply list_fmap_ext.
  intros _ t _. simpl.
  destruct (decide (tw_id t ∈ [id])) as [H1|H1].
  - apply list_elem_of_singleton in H1.
    rewrite (decide_True (P := tw_id t ∈ id :: ids)) by (rewrite H1; left).
    by case_decide.
  - rewrite list_elem_of_singleton in H1.
    destruct (decide (tw_id t ∈ ids)) as [Hin|Hnin].
    + rewrite decide_True by (by right). done.
    + rewrite decide_False; [done|]. rewrite not_elem_of_cons. done.
Qed.

Lemma mark_tweets_nil s ts : mark_tweets s [] ts = ts.
Proof.
  unfold mark_tweets. rewrite <- (list_fmap_id ts) at 2. apply list_fmap_ext.
  intros _ t _. rewrite decide_False; [done|]. apply not_elem_of_nil.
Qed.

(** No tweet keeps the status ["unclassified"] when all that had it were
    marked with another status. *)
Lemma marked_none_unclassified s ids ts :
  s ≠ "unclassified" →
  (∀ t, t ∈ ts → tw_status t = "unclassified" → tw_id t ∈ ids) →
  filter (λ t, tw_status t = "unclassified") (mark_tweets s ids ts) = [].
Proof.
  intros Hs Hall. induction ts as [|t ts IH]; [done|].
  unfold mark_tweets in *. rewrite fmap_cons, filter_cons.
  rewrite IH by (intros t' Ht'; apply Hall; by right).
  case_decide as Hst; [|done]. exfalso.
  destruct (decide (tw_id t ∈ ids)) as [Hin|Hnin]; simpl in Hst.
  - congruence.
  - apply Hnin. apply Hall; [left | done].
Qed.

Lemma fetch_unclassified_ids db t :
  t ∈ tweets db → tw_status t = "unclassified" →
  tw_id t ∈ (fetch_unclassified_tweets db).*1.
Proof.
  intros Ht Hst. unfold fetch_unclassified_tweets.
  rewrite <- list_fmap_compose. apply list_elem_of_fmap. exists t. split; [done|].
  apply list_elem_of_filter. done.
Qed.

Lemma tweets_classify_tweet reply item db :
  tweets (classify_tweet reply item db) = mark_tweets "classified" [item.1] (tweets db).
Proof.
  unfold classify_tweet, update_tweet_status. rewrite tweets_update_status.
  by case_decide.
Qed.

Lemma tweets_classify_tweets oracle items : ∀ k db,
  tweets (classify_tweets oracle k items db)
  = mark_tweets "classified" items.*1 (tweets db).
Proof.
  induction items as [|item rest IH]; intros k db; simpl.
  - by rewrite mark_tweets_nil.
  - rewrite IH, tweets_classify_tweet. apply mark_tweets_cons.
Qed.

(** After a classifier run nothing is left to select. *)
Lemma classifier_run_exhausts oracle db :
  fetch_unclassified_tweets (run oracle db) = [].
Proof.
  unfold run. unfold fetch_unclassified_tweets at 1.
  rewrite tweets_classify_tweets.
  rewrite marked_none_unclassified; [done | done |].
  intros t Ht Hst. by apply fetch_unclassified_ids.
Qed.

Lemma classifier_idempotent oracle oracle' db :
  run oracle' (run oracle db) = run oracle db.
Proof.
  unfold run at 1. by rewrite classifier_run_exhausts.
Qed.

End ClassifierFacts.

Module CombinedFacts.
Import Classifier Combined ClassifierFacts.

Lemma process_tweet_tweets extraction classification item db db' :
  process_tweet extraction classification item db = Some db' →
  tweets db' = mark_tweets "processed" [item.1] (tweets db).
Proof.
  unfold process_tweet.
  destruct (Extractor.extract_incident_details extraction) as [j|]; simpl.
  - destruct (truthy j); [destruct j as [d|b]|].
    + intros [= <-]. rewrite tweets_update_status. by case_decide.
    + discriminate.
    + intros [= <-]. rewrite tweets_update_status. by case_decide.
  - intros [= <-]. rewrite tweets_update_status. by case_decide.
Qed.

(** A failed extraction call writes no incident report, lets the loop go
    on, and the tweet is marked ["processed"] all the same. *)
Lemma process_tweet_failed classification item db :
  ∃ db', process_tweet Raised classification item db = Some db'
         ∧ incident_reports db' = incident_reports db
         ∧ tweets db' = mark_tweets "processed" [item.1] (tweets db).
Proof.
  unfold process_tweet; simpl. eexists. split; [reflexivity|].
  rewrite tweets_update_status. split; by case_decide.
Qed.

Lemma process_tweets_tweets extractor classifier items : ∀ k db db',
  process_tweets extractor classifier k items db = (db', Completed) →
  tweets db' = mark_tweets "processed" items.*1 (tweets db).
Proof.
  induction items as [|item rest IH]; intros k db db'; simpl.
  - intros [= <-]. by rewrite mark_tweets_nil.
  - destruct (process_tweet (extractor k item.2) (classifier k item.2) item db)
      as [db1|] eqn:Hstep; [|discriminate].
    intros Hrun. rewrite (IH _ _ _ Hrun), (process_tweet_tweets _ _ _ _ _ Hstep).
    apply mark_tweets_cons.
Qed.

(** A combined run that reaches the end of its batch leaves nothing to
    select, whatever the collaborators answered. *)
Lemma combined_run_exhausts extractor classifier db db' :
  run extractor classifier db = (db', Completed) →
  fetch_unclassified_tweets db' = [].
Proof.
  unfold run. intros Hrun. unfold fetch_unclassified_tweets at 1.
  rewrite (process_tweets_tweets _ _ _ _ _ _ Hrun).
  rewrite marked_none_unclassified; [done | done |].
  intros t Ht Hst. by apply fetch_unclassified_ids.
Qed.

End CombinedFacts.

(** ** Failed and malformed collaborator replies *)

Module FailureFacts.
Import Extractor ExtractorFacts.

(** C7, as stated, fails: for a reply that does not parse, the extractor
    writes no row and selects the tweet again. *)
Lemma unparseable_reply_not_advanced :
  fetch_unprocessed_tweets Scenario.one_tweet = tweets Scenario.one_tweet
  ∧ Scenario.llm_down 0%nat "Water entering houses in Gandhi Nagar" = Raised
  ∧ incident_reports (run Scenario.llm_down Scenario.one_tweet).1 = []
  ∧ fetch_unprocessed_tweets (run Scenario.llm_down Scenario.one_tweet).1
    = tweets Scenario.one_tweet.
Proof. vm_compute. done. Qed.

(** The one reply that ends the batch. *)
Lemma process_tweet_None reply t db :
  process_tweet reply t db = None → reply = Parsed (JOther true).
Proof.
  unfold process_tweet. destruct reply as [|[d|b]]; simpl; try done.
  - by destruct (negb (bool_decide (d = ∅))).
  - by destruct b.
Qed.

(** An item the loop reaches, whose reply is a non-empty object, gets its
    row, with the sentinel in the place of every missing field, however
    the batch ends after it. *)
Lemma process_tweets_row_reached oracle items : ∀ k db j t d,
  NoDup (tw_id <$> items) →
  (∀ t', t' ∈ items → ¬ has_report (tw_id t') db) →
  items !! j = Some t →
  (∀ j' t', (j' < j)%nat → items !! j' = Some t' →
            oracle (k + j')%nat (tw_text t') ≠ Parsed (JOther true)) →
  oracle (k + j)%nat (tw_text t) = Parsed (JObject d) → d ≠ ∅ →
  ∃ r, r ∈ incident_reports (process_tweets oracle k items db).1
       ∧ ir_original_tweet_id r = tw_id t
       ∧ ir_extracted_location r = dict_get d "location" "Extraction Failed"
       ∧ ir_extracted_issue r = dict_get d "issue" "Extraction Failed"
       ∧ ir_issue_time r = dict_get d "time" "Extraction Failed"
       ∧ ir_original_tweet_text r = tw_text t.
Proof.
  induction items as [|t0 rest IH]; intros k db j t d Hnd Hfresh Hj Hreach Ho Hd;
    [done|].
  rewrite fmap_cons in Hnd. apply NoDup_cons in Hnd as [Hnotin Hnd].
  destruct j as [|j]; simpl in Hj.
  - injection Hj as ->. rewrite Nat.add_0_r in Ho. simpl.
    unfold process_tweet at 1. rewrite Ho. simpl.
    apply truthy_object in Hd. simpl in Hd. rewrite Hd.
    destruct (reports_insert_fresh (tw_id t) (tw_text t) d db) as (r & Hr & Hfields).
    { apply Hfresh. left. }
    exists r. split; [|exact Hfields].
    destruct (process_tweets_inv oracle rest (S k)
                (insert_incident_report (make_report (tw_id t) (tw_text t) d) db))
      as (_ & Hpre & _).
    destruct Hpre as [l ->]. apply elem_of_app. by left.
  - simpl.
    destruct (process_tweet (oracle k (tw_text t0)) t0 db) as [db1|] eqn:Hstep.
    + apply (IH (S k) db1 j t d); try done.
      * intros t' Ht' Hhas.
        apply process_tweet_Some in Hstep as (_ & _ & Hrep).
        apply Hrep in Hhas as [Hhas|(Heq & _)].
        -- apply (Hfresh t'); [by right | done].
        -- apply Hnotin. rewrite <- Heq. apply list_elem_of_fmap. by exists t'.
      * intros j' t' Hlt Hj'.
        replace (S k + j')%nat with (k + S j')%nat by lia.
        apply (Hreach (S j') t'); [lia | done].
      * by replace (S k + j)%nat with (k + S j)%nat by lia.
    + apply process_tweet_None in Hstep. exfalso.
      apply (Hreach 0%nat t0); [lia | done | by rewrite Nat.add_0_r].
Qed.

(** C7, amended: a reply that is a non-empty object, to an item the loop
    reaches, gets its row written with ["Extraction Failed"] for every
    missing key, and the tweet is not selected again, however the batch
    ends after it; a reply that does not parse, an empty object or another
    falsy value writes no row and the tweet is selected again. *)
Theorem malformed_reply_handling oracle db i t :
  NoDup (tw_id <$> tweets db) →
  fetch_unprocessed_tweets db !! i = Some t →
  (∀ d, oracle i (tw_text t) = Parsed (JObject d) → d ≠ ∅ →
        reaches oracle (fetch_unprocessed_tweets db) i →
        (∃ r, r ∈ incident_reports (run oracle db).1
              ∧ ir_original_tweet_id r = tw_id t
              ∧ ir_extracted_location r = dict_get d "location" "Extraction Failed"
              ∧ ir_extracted_issue r = dict_get d "issue" "Extraction Failed"
              ∧ ir_issue_time r = dict_get d "time" "Extraction Failed"
              ∧ ir_original_tweet_text r = tw_text t)
        ∧ t ∉ fetch_unprocessed_tweets (run oracle db).1)
  ∧ (oracle i (tw_text t) = Raised ∨ oracle i (tw_text t) = Parsed (JObject ∅)
     ∨ oracle i (tw_text t) = Parsed (JOther false) →
     ¬ has_report (tw_id t) (run oracle db).1
     ∧ t ∈ fetch_unprocessed_tweets (run oracle db).1).
Proof.
  intros Hnd Hi.
  pose proof (fetch_unprocessed_NoDup db Hnd) as Hnd'.
  assert (Hfresh : ∀ t', t' ∈ fetch_unprocessed_tweets db → ¬ has_report (tw_id t') db).
  { intros t' Ht'. by apply fetch_unprocessed_spec in Ht' as [_ ?]. }
  split.
  - intros d Ho Hd Hreach. unfold run.
    destruct (process_tweets_row_reached oracle _ 0%nat db i t d Hnd' Hfresh Hi Hreach Ho Hd)
      as (r & Hr & Hid & Hfields).
    split; [by exists r|].
    rewrite fetch_unprocessed_spec. intros [_ Hno]. apply Hno.
    unfold has_report. apply list_elem_of_fmap. by exists r.
  - intros Hfail. apply (skipped_item_stays_selected oracle db i t Hnd Hi).
    intros d Ho. destruct Hfail as [Hf|[Hf|Hf]]; congruence.
Qed.

Lemma malformed_reply_handling_witness :
  (FailureScenario.llm_partial_then_list 1%nat "Bridge closed" = Parsed (JOther true)
   ∧ (run FailureScenario.llm_partial_then_list FailureScenario.two_tweets).2
     = Aborted "AttributeError"
   ∧ ∃ r, r ∈ incident_reports
                (run FailureScenario.llm_partial_then_list FailureScenario.two_tweets).1
          ∧ ir_original_tweet_id r = 1
          ∧ ir_extracted_location r = "Extraction Failed"
          ∧ ir_extracted_issue r = "flooding"
          ∧ ir_issue_time r = "Extraction Failed"
          ∧ ir_original_tweet_text r = "Road flooded")
  ∧ ¬ has_report 42 (run Scenario.llm_down Scenario.one_tweet).1.
Proof.
  split.
  - split; [reflexivity|]. split; [reflexivity|].
    pose (t := {| tw_id := 1; tw_text := "Road flooded"; tw_created_at := 0;
                  tw_status := "unclassified" |}).
    assert (Hnd : NoDup (tw_id <$> tweets FailureScenario.two_tweets)).
    { apply NoDup_cons. split; [|apply NoDup_singleton].
      intros H%list_elem_of_singleton. discriminate H. }
    destruct (malformed_reply_handling FailureScenario.llm_partial_then_list
                FailureScenario.two_tweets 0%nat t Hnd eq_refl) as [H _].
    destruct (H {[ "issue" := "flooding" ]}) as [Hrow _].
    + reflexivity.
    + intros Hempty. apply (f_equal (λ m : gmap string string, m !! "issue")) in Hempty.
      vm_compute in Hempty. discriminate.
    + intros j t' Hlt. lia.
    + exact Hrow.
  - pose (t := {| tw_id := 42; tw_text := "Water entering houses in Gandhi Nagar";
                  tw_created_at := 0; tw_status := "unclassified" |}).
    assert (Hnd : NoDup (tw_id <$> tweets Scenario.one_tweet)).
    { apply NoDup_singleton. }
    destruct (malformed_reply_handling Scenario.llm_down Scenario.one_tweet 0%nat t Hnd
                eq_refl) as [_ H].
    destruct H as [Hno _]; [by left | exact Hno].
Defined.

(** C6, as stated, fails: in the combined script a tweet whose two
    collaborator calls both failed is marked ["processed"] and is not
    selected again. *)
Lemma combined_stage_advances_failed_item :
  Classifier.fetch_unclassified_tweets Scenario.one_tweet
    = [(42, "Water entering houses in Gandhi Nagar")]
  ∧ Scenario.llm_down 0%nat "Water entering houses in Gandhi Nagar" = Raised
  ∧ tw_status <$> tweets (Combined.run Scenario.llm_down Scenario.llm_down
                            Scenario.one_tweet).1 = ["processed"]
  ∧ Classifier.fetch_unclassified_tweets
      (Combined.run Scenario.llm_down Scenario.llm_down Scenario.one_tweet).1 = [].
Proof. vm_compute. done. Qed.

(** C6, amended: in the extractor script a failed call skips the item,
    the loop goes on with the next one, no status changes, no row is
    written for the item and the next run selects it again. In the
    combined script a failed extraction call writes no incident report and
    the loop goes on, but the tweet is marked ["processed"]: a run that
    reaches the end of its batch leaves nothing to select. *)
Theorem collaborator_failure_per_script oracle db i t :
  NoDup (tw_id <$> tweets db) →
  fetch_unprocessed_tweets db !! i = Some t →
  oracle i (tw_text t) = Raised →
  (∀ rest db0, process_tweets oracle i (t :: rest) db0
               = process_tweets oracle (S i) rest db0)
  ∧ tweets (run oracle db).1 = tweets db
  ∧ ¬ has_report (tw_id t) (run oracle db).1
  ∧ t ∈ fetch_unprocessed_tweets (run oracle db).1
  ∧ (∀ classification item db0,
       ∃ db', Combined.process_tweet Raised classification item db0 = Some db'
              ∧ incident_reports db' = incident_reports db0
              ∧ tweets db' = mark_tweets "processed" [item.1] (tweets db0))
  ∧ (∀ extractor classifier db0 db',
       Combined.run extractor classifier db0 = (db', Completed) →
       Classifier.fetch_unclassified_tweets db' = []).
Proof.
  intros Hnd Hi Ho.
  destruct (skipped_item_stays_selected oracle db i t Hnd Hi) as [Hno Hsel].
  { intros d Hd. congruence. }
  split; [|split; [|split; [|split; [|split]]]]; try done.
  - intros rest db0. simpl. by rewrite Ho.
  - unfold run. by destruct (process_tweets_inv oracle (fetch_unprocessed_tweets db) 0%nat db)
      as (-> & _).
  - apply CombinedFacts.process_tweet_failed.
  - apply CombinedFacts.combined_run_exhausts.
Qed.

Lemma collaborator_failure_per_script_witness :
  ¬ has_report 42 (run Scenario.llm_down Scenario.one_tweet).1
  ∧ tweets (run Scenario.llm_down Scenario.one_tweet).1 = tweets Scenario.one_tweet.
Proof.
  pose (t := {| tw_id := 42; tw_text := "Water entering houses in Gandhi Nagar";
                tw_created_at := 0; tw_status := "unclassified" |}).
  destruct (collaborator_failure_per_script Scenario.llm_down Scenario.one_tweet 0%nat t)
    as (_ & Htw & Hno & _).
  - apply NoDup_singleton.
  - reflexivity.
  - reflexivity.
  - split; [exact Hno | exact Htw].
Defined.

End FailureFacts.

(** ** Clustering: the labels are one per sample *)

Module DbscanBasics.
Import Dbscan.

Section basics.
Context {E : Type} (near : E → E → bool) (min_samples : nat).

Lemma expand_length fuel is_core nbrs c : ∀ i stack labels,
  length (expand fuel is_core nbrs c i stack labels) = length labels.
Proof.
  induction fuel as [|fuel IH]; intros i stack labels; simpl; [done|].
  destruct (unlabeled labels i) eqn:Hu; simpl.
  - destruct (default false (is_core !! i)); simpl.
    + destruct (reverse _ ++ stack) as [|v rest];
        [by rewrite length_insert | by rewrite IH, length_insert].
    + destruct stack as [|v rest];
        [by rewrite length_insert | by rewrite IH, length_insert].
  - destruct stack as [|v rest]; [done | by rewrite IH].
Qed.

Lemma sweep_length fuel is_core nbrs indices : ∀ c labels,
  length (sweep fuel is_core nbrs indices c labels) = length labels.
Proof.
  induction indices as [|i rest IH]; intros c labels; simpl; [done|].
  destruct (negb (unlabeled labels i) || negb (default false (is_core !! i))).
  - apply IH.
  - by rewrite IH, expand_length.
Qed.

Lemma fit_length (xs : list E) : length (fit near min_samples xs) = length xs.
Proof. unfold fit. by rewrite sweep_length, length_replicate. Qed.

End basics.
End DbscanBasics.

(** ** Clustering stage: what a run does to the store *)

Module GroupingFacts.
Import Grouper.

Lemma reports_update ids db :
  incident_reports (sql_update_incident_status ids db)
  = mark_reports ids (incident_reports db).
Proof. reflexivity. Qed.

Lemma mark_reports_ids ids rs : ir_id <$> mark_reports ids rs = ir_id <$> rs.
Proof.
  unfold mark_reports. rewrite <- list_fmap_compose. apply list_fmap_ext.
  intros _ r _. simpl. by case_decide.
Qed.

Lemma mark_reports_nil rs : mark_reports [] rs = rs.
Proof.
  unfold mark_reports. rewrite <- (list_fmap_id rs) at 2. apply list_fmap_ext.
  intros _ r _. rewrite decide_False; [done|]. apply not_elem_of_nil.
Qed.

Lemma mark_reports_app ids1 ids2 rs :
  mark_reports ids2 (mark_reports ids1 rs) = mark_reports (ids1 ++ ids2) rs.
Proof.
  unfold mark_reports. rewrite <- list_fmap_compose. apply list_fmap_ext.
  intros _ r _. simpl.
  destruct (decide (ir_id r ∈ ids1)) as [H1|H1]; simpl.
  - rewrite (decide_True (P := ir_id r ∈ ids1 ++ ids2)) by (apply elem_of_app; by left).
    by case_decide.
  - destruct (decide (ir_id r ∈ ids2)) as [H2|H2].
    + rewrite decide_True by (apply elem_of_app; by right). done.
    + rewrite decide_False; [done|]. rewrite elem_of_app. tauto.
Qed.

(** A report whose id is not marked stays as it is; a marked one is
    ["grouped"]. *)
Lemma mark_reports_elem ids rs r :
  r ∈ mark_reports ids rs ↔
  ∃ r0, r0 ∈ rs ∧ r = (if decide (ir_id r0 ∈ ids) then set_ir_status "grouped" r0 else r0).
Proof.
  unfold mark_reports. rewrite list_elem_of_fmap. split.
  - intros (r0 & -> & H). by exists r0.
  - intros (r0 & H & ->). by exists r0.
Qed.

Lemma mark_reports_lookup ids rs k :
  mark_reports ids rs !! k
  = (λ r0, if decide (ir_id r0 ∈ ids) then set_ir_status "grouped" r0 else r0) <$> rs !! k.
Proof. unfold mark_reports. by rewrite list_lookup_fmap. Qed.

(** The members of a cluster are the incidents that carry its label. *)
Lemma cluster_incidents_spec incidents labels label r :
  r ∈ cluster_incidents incidents labels label
  ↔ ∃ i, incidents !! i = Some r ∧ labels !! i = Some label.
Proof.
  unfold cluster_incidents, cluster_indices. rewrite list_elem_of_omap. split.
  - intros (i & Hi & Hr). apply list_elem_of_filter in Hi as [Hl _]. by exists i.
  - intros (i & Hr & Hl). exists i. split; [|done].
    apply list_elem_of_filter. split; [done|].
    apply elem_of_seq. apply lookup_lt_Some in Hl. lia.
Qed.

Lemma cluster_ids_spec incidents labels label id :
  id ∈ cluster_ids incidents labels label
  ↔ ∃ i r, incidents !! i = Some r ∧ ir_id r = id ∧ labels !! i = Some label.
Proof.
  unfold cluster_ids. rewrite list_elem_of_fmap. split.
  - intros (r & -> & Hr). apply cluster_incidents_spec in Hr as (i & ? & ?).
    by exists i, r.
  - intros (i & r & ? & <- & ?). exists r. split; [done|].
    apply cluster_incidents_spec. by exists i.
Qed.

Lemma grouped_ids_spec incidents labels todo id :
  id ∈ grouped_ids incidents labels todo
  ↔ ∃ label, label ∈ todo ∧ label ≠ -1 ∧ id ∈ cluster_ids incidents labels label.
Proof.
  unfold grouped_ids. rewrite list_elem_of_join. split.
  - intros (ids & Hid & Hids). apply list_elem_of_fmap in Hids as (label & -> & Hl).
    apply list_elem_of_filter in Hl as [? ?]. by exists label.
  - intros (label & ? & ? & ?). exists (cluster_ids incidents labels label).
    split; [done|]. apply list_elem_of_fmap. exists label. split; [done|].
    by apply list_elem_of_filter.
Qed.

(** With unique report ids an id sits in one cluster only. *)
Lemma cluster_ids_disjoint incidents labels l1 l2 id :
  NoDup (ir_id <$> incidents) →
  id ∈ cluster_ids incidents labels l1 → id ∈ cluster_ids incidents labels l2 → l1 = l2.
Proof.
  intros Hnd H1 H2.
  apply cluster_ids_spec in H1 as (i1 & r1 & Hi1 & Hr1 & Hl1).
  apply cluster_ids_spec in H2 as (i2 & r2 & Hi2 & Hr2 & Hl2).
  assert (i1 = i2) as ->.
  { eapply NoDup_lookup; [exact Hnd| |].
    - rewrite list_lookup_fmap, Hi1. simpl. by rewrite Hr1.
    - rewrite list_lookup_fmap, Hi2. simpl. by rewrite Hr2. }
  congruence.
Qed.

Lemma unique_labels_spec labels l : l ∈ unique_labels labels ↔ l ∈ labels.
Proof.
  unfold unique_labels. rewrite elem_of_app, list_elem_of_filter, elem_of_remove_dups,
    list_elem_of_filter.
  split; [tauto|]. intros Hl.
  destruct (decide (l < 0)) as [Hneg|Hpos]; [by right | left].
  split; [done|]. apply list_elem_of_fmap. exists (Z.to_nat l). split; [lia|].
  apply elem_of_seq. split; [lia|]. simpl.
  enough (l ≤ foldr Z.max 0 labels) by lia.
  clear Hpos. induction labels as [|x labels IH]; [by apply elem_of_nil in Hl|].
  simpl. apply elem_of_cons in Hl as [->|Hl]; [lia|]. specialize (IH Hl). lia.
Qed.

Lemma unique_labels_NoDup labels : NoDup (unique_labels labels).
Proof.
  unfold unique_labels. apply NoDup_app. split; [|split].
  - apply NoDup_filter. apply NoDup_fmap_2; [|apply NoDup_seq].
    intros a b Hab. lia.
  - intros l Hl Hneg. apply list_elem_of_filter in Hl as [_ Hl].
    apply elem_of_remove_dups, list_elem_of_filter in Hneg as [Hneg _].
    apply list_elem_of_fmap in Hl as (n & -> & _). lia.
  - apply NoDup_remove_dups.
Qed.

(** The events a loop over [todo] appends, and the reports it marks. *)
Lemma group_labels_spec summ incidents labels todo : ∀ c,
  let c' := group_labels summ incidents labels todo c in
  incident_reports (pending c')
    = mark_reports (grouped_ids incidents labels todo) (incident_reports (pending c))
  ∧ tweets (pending c') = tweets (pending c)
  ∧ actionable_tweets (pending c') = actionable_tweets (pending c)
  ∧ geocoded_tweets (pending c') = geocoded_tweets (pending c)
  ∧ ∃ events,
      final_report (pending c') = final_report (pending c) ++ events
      ∧ Forall2 (λ ev label,
                   fr_source_incident_ids ev = cluster_ids incidents labels label
                   ∧ fr_number_of_reports ev
                     = Z.of_nat (length (cluster_ids incidents labels label)))
                events (filter (λ l, l ≠ -1) todo).
Proof.
  induction todo as [|label rest IH]; intros c; simpl.
  - split; [by rewrite mark_reports_nil|]. do 3 (split; [done|]).
    exists []. by rewrite app_nil_r.
  - unfold grouped_ids. rewrite filter_cons.
    destruct (decide (label = -1)) as [Hl|Hl].
    + rewrite decide_False by tauto. apply IH.
    + rewrite decide_True by done.
      destruct (IH (persist_cluster summ incidents labels label c))
        as (IHr & IHt & IHa & IHg & events & IHf & IHe).
      split; [|split; [|split; [|split]]].
      * rewrite IHr. rewrite GrouperFacts.pending_persist_cluster, reports_update.
        simpl incident_reports. rewrite mark_reports_app. done.
      * by rewrite IHt.
      * by rewrite IHa.
      * by rewrite IHg.
      * eexists (_ :: events). split.
        -- rewrite IHf. rewrite GrouperFacts.pending_persist_cluster. simpl.
           rewrite <- app_assoc. reflexivity.
        -- constructor; [|exact IHe]. simpl. done.
Qed.

End GroupingFacts.

(** ** Clustering stage: noise is left alone, Events are well formed *)

Module ClusteringFacts.
Import Grouper GroupingFacts.

Lemma NoDup_fmap_eq {A B} (f : A → B) (l : list A) x y :
  NoDup (f <$> l) → x ∈ l → y ∈ l → f x = f y → x = y.
Proof.
  intros Hnd Hx Hy Hf.
  apply list_elem_of_lookup in Hx as [i Hi]. apply list_elem_of_lookup in Hy as [j Hj].
  assert (i = j) as ->; [|congruence].
  eapply NoDup_lookup; [exact Hnd| |].
  - rewrite list_lookup_fmap, Hi. reflexivity.
  - rewrite list_lookup_fmap, Hj. simpl. by rewrite Hf.
Qed.

Lemma fetch_incidents_spec db r :
  r ∈ fetch_unprocessed_incidents db
  ↔ r ∈ incident_reports db ∧ ir_status r = "unprocessed".
Proof. unfold fetch_unprocessed_incidents. by rewrite list_elem_of_filter, (comm and). Qed.

Lemma fetch_incidents_NoDup db :
  NoDup (ir_id <$> incident_reports db) →
  NoDup (ir_id <$> fetch_unprocessed_incidents db).
Proof.
  intros H. eapply sublist_NoDup; [exact H|]. apply fmap_sublist, sublist_filter.
Qed.

Section run.
Context {E : Type} (near : E → E → bool).

Lemma cluster_length (embeddings : list E) :
  length (cluster near embeddings) = length embeddings.
Proof. apply DbscanBasics.fit_length. Qed.

Lemma run_None summ c : pending (run near None summ c) = pending c.
Proof. unfold run; simpl. by destruct (fetch_unprocessed_incidents (pending c)). Qed.

Lemma run_Some e summ c :
  let incidents := fetch_unprocessed_incidents (pending c) in
  let labels := cluster near (e <$> (text_for_embedding <$> incidents)) in
  pending (run near (Some e) summ c)
  = pending (group_labels summ incidents labels (unique_labels labels) (commit c)).
Proof.
  unfold run; simpl. destruct (fetch_unprocessed_incidents (pending c)) eqn:Hf; [|done].
  reflexivity.
Qed.

(** A report labeled noise is in no cluster the loop persists. *)
Lemma noise_not_grouped incidents labels todo i r :
  NoDup (ir_id <$> incidents) →
  incidents !! i = Some r → labels !! i = Some (-1) →
  ir_id r ∉ grouped_ids incidents labels todo.
Proof.
  intros Hnd Hi Hl Hin.
  apply grouped_ids_spec in Hin as (label & _ & Hne & Hin).
  apply Hne. symmetry.
  apply (cluster_ids_disjoint incidents labels (-1) label (ir_id r) Hnd); [|done].
  apply cluster_ids_spec. by exists i, r.
Qed.

(** The grouping loop on the reports fetched from [db]: noise stays, and
    only members of the persisted clusters change. *)
Lemma group_labels_noise summ labels todo c i r :
  let incidents := fetch_unprocessed_incidents (pending c) in
  let db' := pending (group_labels summ incidents labels todo c) in
  NoDup (ir_id <$> incident_reports (pending c)) →
  incidents !! i = Some r → labels !! i = Some (-1) →
  r ∈ fetch_unprocessed_incidents db'
  ∧ (∃ events, final_report db' = final_report (pending c) ++ events
               ∧ ∀ ev, ev ∈ events → ir_id r ∉ fr_source_incident_ids ev)
  ∧ (∀ k r0, incident_reports (pending c) !! k = Some r0 →
       incident_reports db' !! k = Some r0
       ∨ (incident_reports db' !! k = Some (set_ir_status "grouped" r0)
          ∧ ∃ j l, incidents !! j = Some r0 ∧ labels !! j = Some l ∧ l ≠ -1)).
Proof.
  intros incidents db' Hnd Hi Hl.
  pose proof (fetch_incidents_NoDup _ Hnd) as Hnd'.
  destruct (group_labels_spec summ incidents labels todo c)
    as (Hrep & _ & _ & _ & events & Hfin & Hev).
  fold db' in Hrep, Hfin.
  pose proof (list_elem_of_lookup_2 _ _ _ Hi) as Hr.
  apply fetch_incidents_spec in Hr as [Hr Hst].
  split; [|split].
  - apply fetch_incidents_spec. split; [|done].
    rewrite Hrep. apply mark_reports_elem. exists r. split; [done|].
    rewrite decide_False; [done|]. by eapply noise_not_grouped.
  - exists events. split; [done|]. intros ev Hin Hmem.
    apply list_elem_of_lookup in Hin as [k Hk].
    destruct (Forall2_lookup_l _ _ _ _ _ Hev Hk) as (label & Hlab & Hids & _).
    apply list_elem_of_lookup_2, list_elem_of_filter in Hlab as [Hne Hlab].
    apply (noise_not_grouped incidents labels todo i r Hnd' Hi Hl).
    apply grouped_ids_spec. exists label. rewrite <- Hids. done.
  - intros k r0 Hk. rewrite Hrep, mark_reports_lookup, Hk. simpl.
    case_decide as Hin; [right | by left]. split; [done|].
    apply grouped_ids_spec in Hin as (label & _ & Hne & Hin).
    apply cluster_ids_spec in Hin as (j & rj & Hj & Hid & Hlj).
    exists j, label. split; [|done].
    assert (rj = r0) as <-; [|done].
    apply (NoDup_fmap_eq ir_id (incident_reports (pending c))); try done.
    + apply list_elem_of_lookup_2 in Hj. by apply fetch_incidents_spec in Hj as [? _].
    + by eapply list_elem_of_lookup_2.
Qed.

(** The grouping loop over the distinct labels keeps the grouping
    invariant. *)
Lemma group_labels_inv summ labels c :
  let incidents := fetch_unprocessed_incidents (pending c) in
  length labels = length incidents →
  grouping_inv (pending c) →
  grouping_inv (pending (group_labels summ incidents labels (unique_labels labels) c)).
Proof.
  intros incidents Hlen (Hnd & Hev & Huniq).
  pose proof (fetch_incidents_NoDup _ Hnd) as Hnd'.
  destruct (group_labels_spec summ incidents labels (unique_labels labels) c)
    as (Hrep & _ & _ & _ & events & Hfin & Hnew).
  set (db' := pending (group_labels summ incidents labels (unique_labels labels) c)) in *.
  set (G := grouped_ids incidents labels (unique_labels labels)) in *.
  assert (Hkeep : ∀ r, r ∈ incident_reports (pending c) → ir_status r = "grouped" →
            ∃ r', r' ∈ incident_reports db' ∧ ir_id r' = ir_id r ∧ ir_status r' = "grouped").
  { intros r Hr Hst. eexists. split.
    - rewrite Hrep. apply mark_reports_elem. exists r. split; [done|reflexivity].
    - by case_decide. }
  assert (Hnewev : ∀ k ev, events !! k = Some ev →
            ∃ label, filter (λ l, l ≠ -1) (unique_labels labels) !! k = Some label
                     ∧ label ∈ labels ∧ label ≠ -1
                     ∧ fr_source_incident_ids ev = cluster_ids incidents labels label
                     ∧ fr_number_of_reports ev
                       = Z.of_nat (length (cluster_ids incidents labels label))).
  { intros k ev Hk.
    destruct (Forall2_lookup_l _ _ _ _ _ Hnew Hk) as (label & Hlab & Hids & Hcnt).
    exists label. split; [done|].
    apply list_elem_of_lookup_2, list_elem_of_filter in Hlab as [Hne Hlab].
    rewrite unique_labels_spec in Hlab. split_and!; done. }
  assert (Hmember : ∀ label id, label ∈ labels → label ≠ -1 →
            id ∈ cluster_ids incidents labels label →
            ∃ r, r ∈ incident_reports (pending c) ∧ ir_id r = id
                 ∧ ir_status r = "unprocessed" ∧ id ∈ G).
  { intros label id Hlab Hne Hid.
    assert (HG : id ∈ G).
    { apply grouped_ids_spec. exists label. by rewrite unique_labels_spec. }
    apply cluster_ids_spec in Hid as (i & r & Hi & Hr & _).
    apply list_elem_of_lookup_2, fetch_incidents_spec in Hi as [? ?]. by exists r. }
  split; [|split].
  - by rewrite Hrep, mark_reports_ids.
  - intros ev Hin. rewrite Hfin in Hin. apply elem_of_app in Hin as [Hold|Hin].
    + destruct (Hev ev Hold) as (Hne & Hcnt & Hmem). split; [done|]. split; [done|].
      intros id Hid. destruct (Hmem id Hid) as (r & Hr & <- & Hst). by apply Hkeep.
    + apply list_elem_of_lookup in Hin as [k Hk].
      destruct (Hnewev k ev Hk) as (label & _ & Hlab & Hne & Hids & Hcnt).
      rewrite Hids. split; [|split; [done|]].
      * apply list_elem_of_lookup in Hlab as [i Hi].
        destruct (lookup_lt_is_Some_2 incidents i) as [r Hr].
        { rewrite <- Hlen. by eapply lookup_lt_Some. }
        intros Hnil.
        assert (Hin : ir_id r ∈ cluster_ids incidents labels label).
        { apply cluster_ids_spec. by exists i, r. }
        rewrite Hnil in Hin. by apply elem_of_nil in Hin.
      * intros id Hid. destruct (Hmember label id Hlab Hne Hid) as (r & Hr & <- & _ & HG).
        eexists. split.
        -- rewrite Hrep. apply mark_reports_elem. exists r. split; [done|reflexivity].
        -- rewrite decide_True by done. done.
  - intros k1 k2 ev1 ev2 id. rewrite Hfin.
    rewrite !lookup_app. 
    destruct (final_report (pending c) !! k1) as [o1|] eqn:H1;
      destruct (final_report (pending c) !! k2) as [o2|] eqn:H2.
    + intros [= ->] [= ->]. by eapply Huniq.
    + intros [= ->] Hk2 Hid1 Hid2. exfalso.
      destruct (Hnewev _ _ Hk2) as (label & _ & Hlab & Hne & Hids & _).
      rewrite Hids in Hid2.
      destruct (Hmember label id Hlab Hne Hid2) as (r & Hr & Hrid & Hst & _).
      destruct (Hev ev1 (list_elem_of_lookup_2 _ _ _ H1)) as (_ & _ & Hmem).
      destruct (Hmem id Hid1) as (r' & Hr' & Hrid' & Hst').
      assert (r = r') as ->.
      { apply (NoDup_fmap_eq ir_id (incident_reports (pending c))); [done..|congruence]. }
      congruence.
    + intros Hk1 [= ->] Hid1 Hid2. exfalso.
      destruct (Hnewev _ _ Hk1) as (label & _ & Hlab & Hne & Hids & _).
      rewrite Hids in Hid1.
      destruct (Hmember label id Hlab Hne Hid1) as (r & Hr & Hrid & Hst & _).
      destruct (Hev ev2 (list_elem_of_lookup_2 _ _ _ H2)) as (_ & _ & Hmem).
      destruct (Hmem id Hid2) as (r' & Hr' & Hrid' & Hst').
      assert (r = r') as ->.
      { apply (NoDup_fmap_eq ir_id (incident_reports (pending c))); [done..|congruence]. }
      congruence.
    + intros Hk1 Hk2 Hid1 Hid2.
      apply lookup_ge_None in H1, H2.
      destruct (Hnewev _ _ Hk1) as (l1 & Hl1 & _ & _ & Hids1 & _).
      destruct (Hnewev _ _ Hk2) as (l2 & Hl2 & _ & _ & Hids2 & _).
      rewrite Hids1 in Hid1. rewrite Hids2 in Hid2.
      assert (l1 = l2) as -> by (by eapply cluster_ids_disjoint).
      assert (k1 - length (final_report (pending c))
              = k2 - length (final_report (pending c)))%nat; [|lia].
      eapply NoDup_lookup; [|exact Hl1|exact Hl2].
      apply NoDup_filter, unique_labels_NoDup.
Qed.

End run.
End ClusteringFacts.

Module ClusteringClaims.
Import Grouper GroupingFacts ClusteringFacts.

(** Distinctness of an explicit list of ids. *)
Ltac distinct_ids :=
  repeat (apply (NoDup_cons_2 _ _);
          [rewrite ?not_elem_of_cons; split_and?; [done..|apply not_elem_of_nil]|]);
  apply NoDup_nil_2.

(** C2, as stated, fails: the run on the three-report store commits a
    state that holds the Event listing reports 1 and 2 while both still
    have status ["unprocessed"]. *)
Lemma event_committed_before_members_grouped :
  ∃ s, commits (run cosine_near Scenario.embedder Scenario.failing_summarizer
                  (connect Scenario.store)) !! 1%nat = Some s
       ∧ fr_source_incident_ids <$> final_report s = [[1; 2]]
       ∧ (λ r, (ir_id r, ir_status r)) <$> incident_reports s
         = [(1, "unprocessed"); (2, "unprocessed"); (3, "unprocessed")].
Proof. eexists. split; [vm_compute; reflexivity|]. split; reflexivity. Qed.

(** C5: a report whose embedding is labeled −1 is selected again after
    the run, is listed by none of the Events the run appends, and every
    row of [incident_reports] the run changes is a member of a cluster
    with a label other than −1 (its status set to ["grouped"]). *)
Theorem noise_reports_left_unprocessed {E} (near : E → E → bool) e summ c i r :
  let incidents := fetch_unprocessed_incidents (pending c) in
  let labels := cluster near (e <$> (text_for_embedding <$> incidents)) in
  let db' := pending (run near (Some e) summ c) in
  NoDup (ir_id <$> incident_reports (pending c)) →
  incidents !! i = Some r → labels !! i = Some (-1) →
  r ∈ fetch_unprocessed_incidents db'
  ∧ (∃ events, final_report db' = final_report (pending c) ++ events
               ∧ ∀ ev, ev ∈ events → ir_id r ∉ fr_source_incident_ids ev)
  ∧ (∀ k r0, incident_reports (pending c) !! k = Some r0 →
       incident_reports db' !! k = Some r0
       ∨ (incident_reports db' !! k = Some (set_ir_status "grouped" r0)
          ∧ ∃ j l, incidents !! j = Some r0 ∧ labels !! j = Some l ∧ l ≠ -1)).
Proof.
  intros incidents labels db' Hnd Hi Hl. unfold db'. rewrite run_Some.
  apply (group_labels_noise summ labels (unique_labels labels) (commit c) i r Hnd Hi Hl).
Qed.

Lemma noise_reports_left_unprocessed_witness :
  Scenario.report 3 "Katpadi Road" "tree fallen" "Tree blocks Katpadi Road"
  ∈ fetch_unprocessed_incidents
      (pending (run cosine_near Scenario.embedder Scenario.failing_summarizer
                  (connect Scenario.store))).
Proof.
  refine (proj1 (noise_reports_left_unprocessed cosine_near Scenario.embedding
                   Scenario.failing_summarizer (connect Scenario.store) 2%nat
                   (Scenario.report 3 "Katpadi Road" "tree fallen" "Tree blocks Katpadi Road")
                   _ _ _)).
  - simpl. distinct_ids.
  - reflexivity.
  - vm_compute. reflexivity.
Defined.

Lemma grouping_inv_no_events db :
  NoDup (ir_id <$> incident_reports db) → final_report db = [] → grouping_inv db.
Proof.
  intros Hnd Hnil. split; [done|]. rewrite Hnil. split.
  - intros ev Hev. by apply elem_of_nil in Hev.
  - intros k1 k2 ev1 ev2 id Hk. by rewrite lookup_nil in Hk.
Qed.

(** C4: a clustering run keeps the grouping invariant of the store: report
    ids unique, every Event with at least one member, its count equal to
    the length of its id list, every listed id a report that exists with
    status ["grouped"], and no id listed by two Events. *)
Theorem clustering_run_keeps_grouping_inv {E} (near : E → E → bool) svc summ c :
  grouping_inv (pending c) → grouping_inv (pending (run near svc summ c)).
Proof.
  intros Hinv. destruct svc as [e|].
  - rewrite run_Some.
    apply (group_labels_inv summ _ (commit c)); [|exact Hinv].
    by rewrite cluster_length, !length_fmap.
  - by rewrite run_None.
Qed.

Lemma clustering_run_keeps_grouping_inv_witness :
  grouping_inv (pending (run cosine_near Scenario.embedder Scenario.failing_summarizer
                           (connect Scenario.store))).
Proof.
  apply clustering_run_keeps_grouping_inv. apply grouping_inv_no_events; [|reflexivity].
  simpl. distinct_ids.
Defined.

End ClusteringClaims.

(** ** Clustering: the ε-graph and the two loops *)

Module DbscanGraph.
Import Dbscan DbscanSpec.

Lemma filter_ext_in {A} (P Q : A → Prop)
    `{!∀ x, Decision (P x), !∀ x, Decision (Q x)} (l : list A) :
  (∀ x, x ∈ l → P x ↔ Q x) → filter P l = filter Q l.
Proof.
  induction l as [|a l IH]; intros Hiff; [done|].
  rewrite !filter_cons. rewrite IH by (intros x Hx; apply Hiff; by right).
  apply decide_ext. apply Hiff. left.
Qed.

Section graph.
Context {E : Type} (near : E → E → bool).

Lemma radius_neighbors_lookup (xs : list E) i x :
  xs !! i = Some x →
  radius_neighbors near xs !! i
  = Some (filter (λ j, from_option (near x) false (xs !! j)) (seq 0 (length xs))).
Proof. intros H. unfold radius_neighbors. by rewrite list_lookup_fmap, H. Qed.

Lemma radius_neighbors_length (xs : list E) :
  length (radius_neighbors near xs) = length xs.
Proof. unfold radius_neighbors. by rewrite length_fmap. Qed.

Lemma in_neighborhood (xs : list E) i nb j :
  radius_neighbors near xs !! i = Some nb → j ∈ nb ↔ adjacent near xs i j.
Proof.
  intros Hnb. unfold radius_neighbors in Hnb. rewrite list_lookup_fmap in Hnb.
  destruct (xs !! i) as [x|] eqn:Hx; [|done]. injection Hnb as <-.
  rewrite list_elem_of_filter, elem_of_seq. unfold adjacent. split.
  - intros [Hn _]. destruct (xs !! j) as [y|] eqn:Hy; [|done].
    exists x, y. split_and!; try done. simpl in Hn. by apply Is_true_true.
  - intros (x' & y & Hx' & Hy & Hn). assert (x' = x) as -> by congruence.
    rewrite Hy. simpl. split; [by apply Is_true_true|].
    apply lookup_lt_Some in Hy. lia.
Qed.

Lemma neighborhood_NoDup (xs : list E) i nb :
  radius_neighbors near xs !! i = Some nb → NoDup nb.
Proof.
  unfold radius_neighbors. rewrite list_lookup_fmap.
  destruct (xs !! i); [|done]. intros [= <-]. apply NoDup_filter, NoDup_seq.
Qed.

Lemma neighborhood_length_le (xs : list E) i nb :
  radius_neighbors near xs !! i = Some nb → (length nb ≤ length xs)%nat.
Proof.
  unfold radius_neighbors. rewrite list_lookup_fmap.
  destruct (xs !! i); [|done]. intros [= <-].
  etrans; [apply length_filter|]. by rewrite length_seq.
Qed.

(** Counting a neighbourhood by indices or by values gives the same. *)
Lemma count_by_index (P : E → bool) (xs : list E) : ∀ k,
  length (filter (λ j, from_option P false (xs !! (j - k)%nat)) (seq k (length xs)))
  = length (filter (λ y, P y) xs).
Proof.
  induction xs as [|a xs IH]; intros k; [done|]. simpl seq.
  rewrite !filter_cons. rewrite Nat.sub_diag. simpl.
  assert (Hrest : filter (λ j, from_option P false ((a :: xs) !! (j - k)%nat))
                         (seq (S k) (length xs))
                  = filter (λ j, from_option P false (xs !! (j - S k)%nat))
                           (seq (S k) (length xs))).
  { apply filter_ext_in. intros j Hj. apply elem_of_seq in Hj.
    replace (j - k)%nat with (S (j - S k)) by lia. done. }
  rewrite Hrest. destruct (P a); simpl; by rewrite IH.
Qed.

Lemma neighborhood_count (xs : list E) i x nb :
  xs !! i = Some x → radius_neighbors near xs !! i = Some nb →
  length nb = length (filter (λ y, near x y) xs).
Proof.
  intros Hx Hnb. rewrite (radius_neighbors_lookup _ _ _ Hx) in Hnb. injection Hnb as <-.
  rewrite <- (count_by_index (near x) xs 0).
  f_equal. apply filter_ext_in. intros j _. by rewrite Nat.sub_0_r.
Qed.

Lemma core_count (xs : list E) i :
  core near xs i ↔ ∃ x, xs !! i = Some x ∧ (2 ≤ length (filter (λ y, near x y) xs))%nat.
Proof.
  unfold core, core_samples. rewrite list_lookup_fmap.
  destruct (radius_neighbors near xs !! i) as [nb|] eqn:Hnb; simpl.
  - assert (is_Some (xs !! i)) as [x Hx].
    { apply lookup_lt_is_Some. rewrite <- (radius_neighbors_length xs).
      by eapply lookup_lt_Some. }
    rewrite (neighborhood_count _ _ _ _ Hx Hnb). split.
    + intros [= H]. apply bool_decide_eq_true in H. by exists x.
    + intros (x' & Hx' & H). rewrite Hx in Hx'. injection Hx' as <-.
      f_equal. by apply bool_decide_eq_true.
  - split; [done|]. intros (x & Hx & _).
    apply lookup_ge_None in Hnb. rewrite radius_neighbors_length in Hnb.
    apply lookup_lt_Some in Hx. lia.
Qed.

Lemma core_lt (xs : list E) i : core near xs i → (i < length xs)%nat.
Proof. intros (x & Hx & _)%core_count. by eapply lookup_lt_Some. Qed.

Lemma adjacent_lt (xs : list E) i j :
  adjacent near xs i j → (i < length xs)%nat ∧ (j < length xs)%nat.
Proof. intros (x & y & Hx & Hy & _). split; by eapply lookup_lt_Some. Qed.

Lemma two_elements {A} (l : list A) a b :
  NoDup l → a ∈ l → b ∈ l → a ≠ b → (2 ≤ length l)%nat.
Proof.
  intros Hnd Ha Hb Hab. destruct l as [|x [|y l]]; simpl; [| |lia].
  - by apply elem_of_nil in Ha.
  - apply list_elem_of_singleton in Ha, Hb. congruence.
Qed.

Section metric.
Hypothesis near_refl : ∀ x, near x x = true.
Hypothesis near_sym : ∀ x y, near x y = near y x.

Lemma adjacent_refl (xs : list E) i : (i < length xs)%nat → adjacent near xs i i.
Proof. intros [x Hx]%lookup_lt_is_Some. exists x, x. done. Qed.

Lemma adjacent_sym (xs : list E) i j : adjacent near xs i j → adjacent near xs j i.
Proof. intros (x & y & Hx & Hy & Hn). exists y, x. by rewrite near_sym. Qed.

Lemma linked_sym_index (xs : list E) i j :
  rtc (adjacent near xs) i j → rtc (adjacent near xs) j i.
Proof.
  induction 1 as [|i k j Hik _ IH]; [done|].
  eapply rtc_r; [exact IH|]. by apply adjacent_sym.
Qed.

(** With [min_samples = 2] a sample with another sample in reach is a
    core sample. *)
Lemma core_of_neighbor (xs : list E) i j :
  adjacent near xs i j → i ≠ j → core near xs i.
Proof.
  intros Hadj Hne. unfold core, core_samples. rewrite list_lookup_fmap.
  destruct (adjacent_lt _ _ _ Hadj) as [Hi _].
  destruct (lookup_lt_is_Some_2 (radius_neighbors near xs) i) as [nb Hnb].
  { by rewrite radius_neighbors_length. }
  rewrite Hnb. simpl. f_equal. apply bool_decide_eq_true.
  apply (two_elements nb i j); [by eapply neighborhood_NoDup| | |done].
  - apply (in_neighborhood _ _ _ _ Hnb). by apply adjacent_refl.
  - by apply (in_neighborhood _ _ _ _ Hnb).
Qed.

Lemma core_iff_neighbor (xs : list E) i :
  core near xs i ↔ ∃ j, adjacent near xs i j ∧ i ≠ j.
Proof.
  split; [|intros (j & ? & ?); by eapply core_of_neighbor].
  intros Hc. pose proof (core_lt _ _ Hc) as Hi.
  unfold core, core_samples in Hc. rewrite list_lookup_fmap in Hc.
  destruct (radius_neighbors near xs !! i) as [nb|] eqn:Hnb; [|done].
  injection Hc as Hc. apply bool_decide_eq_true in Hc.
  pose proof (neighborhood_NoDup _ _ _ Hnb) as Hnd.
  destruct nb as [|a [|b nb]]; simpl in Hc; [lia..|].
  destruct (decide (a = i)) as [->|Ha].
  - exists b. split.
    + apply (in_neighborhood _ _ _ _ Hnb). set_solver.
    + intros <-. apply NoDup_cons in Hnd as [Hnd _]. set_solver.
  - exists a. split; [|done]. apply (in_neighborhood _ _ _ _ Hnb). set_solver.
Qed.

End metric.
End graph.
End DbscanGraph.

Module DbscanLoops.
Import Dbscan DbscanSpec DbscanGraph.

Lemma unlabeled_true labels v : unlabeled labels v = true ↔ labels !! v = Some (-1).
Proof. unfold unlabeled. apply bool_decide_eq_true. Qed.

Lemma unlabeled_false labels v : unlabeled labels v = false ↔ labels !! v ≠ Some (-1).
Proof. unfold unlabeled. apply bool_decide_eq_false. Qed.

(** A label, once given, stays. *)
Lemma expand_mono fuel is_core nbrs c : c ≠ -1 → ∀ i stack labels u l,
  labels !! u = Some l → l ≠ -1 →
  expand fuel is_core nbrs c i stack labels !! u = Some l.
Proof.
  intros Hc. induction fuel as [|fuel IH]; intros i stack labels u l Hu Hl; [done|].
  simpl.
  set (labels1 := if unlabeled labels i then <[i:=c]> labels else labels).
  assert (H1 : labels1 !! u = Some l).
  { unfold labels1. destruct (unlabeled labels i) eqn:Hi; [|done].
    apply unlabeled_true in Hi. rewrite list_lookup_insert_ne; [done|]. congruence. }
  destruct (if unlabeled labels i && default false (is_core !! i)
            then reverse (filter (λ v, unlabeled labels1 v) (default [] (nbrs !! i))) ++ stack
            else stack) as [|v rest]; [done|].
  by apply IH.
Qed.

(** The sample the search starts from is labeled by it. *)
Lemma expand_start fuel is_core nbrs c i stack labels :
  c ≠ -1 → labels !! i = Some (-1) →
  expand (S fuel) is_core nbrs c i stack labels !! i = Some c.
Proof.
  intros Hc Hi. simpl. rewrite (proj2 (unlabeled_true labels i) Hi). simpl.
  assert (H1 : <[i:=c]> labels !! i = Some c).
  { apply list_lookup_insert_eq. by eapply lookup_lt_Some. }
  destruct (if default false (is_core !! i)
            then reverse (filter (λ v, unlabeled (<[i:=c]> labels) v)
                        (default [] (nbrs !! i))) ++ stack
            else stack) as [|v rest]; [done|].
  by apply expand_mono.
Qed.

Lemma count_insert (labels : list Z) i c :
  labels !! i = Some (-1) → c ≠ -1 →
  S (length (filter (λ l, l = -1) (<[i:=c]> labels)))
  = length (filter (λ l, l = -1) labels).
Proof.
  revert i. induction labels as [|a labels IH]; intros i Hi Hc; [done|].
  destruct i as [|i]; simpl in *.
  - injection Hi as ->. rewrite filter_cons_False by done.
    by rewrite filter_cons_True.
  - rewrite !filter_cons. case_decide; simpl; by rewrite <- (IH i).
Qed.

Section loops.
Context {E : Type} (near : E → E → bool).
Hypothesis near_refl : ∀ x, near x x = true.
Hypothesis near_sym : ∀ x y, near x y = near y x.
Variable xs : list E.


Lemma core_flag_true i : default false (core_samples 2 (radius_neighbors near xs) !! i) = true ↔ core near xs i.
Proof.
  unfold core. destruct (core_samples 2 (radius_neighbors near xs) !! i) as [[]|]; simpl; split; congruence.
Qed.

(** One iteration of the search keeps its invariant and uses up budget. *)
Lemma expand_step c root i stack labels :
  0 ≤ c →
  expand_inv near xs c root (i :: stack) labels →
  let labels1 := if unlabeled labels i then <[i:=c]> labels else labels in
  let stack1 :=
    if unlabeled labels i && default false (core_samples 2 (radius_neighbors near xs) !! i)
    then reverse (filter (λ v, unlabeled labels1 v) (default [] (radius_neighbors near xs !! i))) ++ stack
    else stack in
  expand_inv near xs c root stack1 labels1
  ∧ (budget xs labels1 stack1 < budget xs labels (i :: stack))%nat.
Proof.
  intros Hc [Hlen Hcore Hclosed Hroot Hpend Hold Hrange] labels1 stack1.
  destruct (unlabeled labels i) eqn:Hu.
  - apply unlabeled_true in Hu.
    destruct (Hpend i) as [Hri Hci]; [left|].
    assert (Hi : (i < length xs)%nat) by (by eapply core_lt).
    destruct (lookup_lt_is_Some_2 (radius_neighbors near xs) i) as [nb Hnb].
    { by rewrite radius_neighbors_length. }
    assert (Hstack : stack1
              = reverse (filter (λ v, unlabeled labels1 v) nb) ++ stack).
    { unfold stack1. rewrite (proj2 (core_flag_true i) Hci), Hnb. done. }
    assert (Hli : labels1 !! i = Some c).
    { apply list_lookup_insert_eq. lia. }
    assert (Hlne : ∀ u, u ≠ i → labels1 !! u = labels !! u).
    { intros u Hne. by apply list_lookup_insert_ne. }
    assert (Hin1 : ∀ v, v ∈ stack1
              ↔ (labels1 !! v = Some (-1) ∧ adjacent near xs i v) ∨ v ∈ stack).
    { intros v. rewrite Hstack, elem_of_app, elem_of_reverse, list_elem_of_filter,
        (in_neighborhood near xs i nb v Hnb).
      rewrite <- unlabeled_true. by rewrite Is_true_true. }
    split.
    + split.
      * unfold labels1. by rewrite length_insert.
      * intros u l Hul Hl. destruct (decide (u = i)) as [->|Hne]; [done|].
        rewrite Hlne in Hul by done. by eapply Hcore.
      * intros u v l Hul Hl Hadj.
        destruct (decide (u = i)) as [->|Hne].
        -- rewrite Hli in Hul. injection Hul as <-.
           destruct (adjacent_lt _ _ _ _ Hadj) as [_ Hv].
           destruct (lookup_lt_is_Some_2 labels1 v) as [l' Hl'].
           { unfold labels1. rewrite length_insert. lia. }
           destruct (decide (l' = c)) as [->|Hlc]; [by left|].
           destruct (decide (l' = -1)) as [->|Hl1].
           { right. split_and!; [done..|]. apply Hin1. left. done. }
           exfalso. assert (Hvi : v ≠ i) by congruence.
           rewrite Hlne in Hl' by done.
           destruct (Hclosed v i l' Hl' Hl1 (adjacent_sym near near_sym _ _ _ Hadj))
             as [Hbad|(Hbad & _)]; congruence.
        -- rewrite Hlne in Hul by done.
           destruct (Hclosed u v l Hul Hl Hadj) as [Hv|(-> & Hv & Hp)].
           ++ left. rewrite Hlne; [done|]. congruence.
           ++ destruct (decide (v = i)) as [->|Hvi]; [by left|].
              right. split_and!; [done|by rewrite Hlne|].
              apply Hin1. right. apply elem_of_cons in Hp as [?|?]; done.
      * intros u Hu'. destruct (decide (u = i)) as [->|Hne]; [done|].
        rewrite Hlne in Hu' by done. by apply Hroot.
      * intros v [[Hv Hadj]|Hv]%Hin1.
        -- assert (v ≠ i) by (intros ->; rewrite Hli in Hv; injection Hv; lia).
           split; [by eapply rtc_r|].
           apply (core_of_neighbor near near_refl xs v i); [|done].
           by apply (adjacent_sym near near_sym).
        -- apply Hpend. by right.
      * intros u v l Hul Hvl Hl Hlc.
        assert (u ≠ i) by (intros ->; congruence).
        assert (v ≠ i) by (intros ->; congruence).
        rewrite Hlne in Hul, Hvl by done. by eapply Hold.
      * intros u l Hul. destruct (decide (u = i)) as [->|Hne].
        -- rewrite Hli in Hul. injection Hul as <-. right. lia.
        -- rewrite Hlne in Hul by done. by eapply Hrange.
    + unfold budget. rewrite Hstack, length_app, length_reverse, length_cons.
      pose proof (count_insert labels i c Hu ltac:(lia)) as Hcount.
      fold labels1 in Hcount.
      pose proof (length_filter (λ v, unlabeled labels1 v) nb) as Hf.
      pose proof (neighborhood_length_le near xs i nb Hnb) as Hle.
      rewrite <- Hcount. nia.
  - assert (Hs : stack1 = stack) by done. apply unlabeled_false in Hu.
    split.
    + split; try done.
      * intros u v l Hul Hl Hadj.
        destruct (Hclosed u v l Hul Hl Hadj) as [Hv|(-> & Hv & Hp)]; [by left|].
        right. split_and!; [done..|]. rewrite Hs.
        apply elem_of_cons in Hp as [->|?]; done.
      * intros v Hv. apply Hpend. rewrite Hs in Hv. by right.
    + unfold budget. rewrite Hs, length_cons. fold labels1. lia.
Qed.

(** The search ends with nothing pending. *)
Lemma expand_spec c root : 0 ≤ c → ∀ fuel i stack labels,
  (budget xs labels (i :: stack) ≤ fuel)%nat →
  expand_inv near xs c root (i :: stack) labels →
  expand_inv near xs c root [] (expand fuel (core_samples 2 (radius_neighbors near xs)) (radius_neighbors near xs)
     c i stack labels).
Proof.
  intros Hc. induction fuel as [|fuel IH]; intros i stack labels Hfuel Hinv.
  { unfold budget in Hfuel. simpl in Hfuel. lia. }
  destruct (expand_step c root i stack labels Hc Hinv) as [Hinv1 Hb].
  simpl in *.
  set (labels1 := if unlabeled labels i then <[i:=c]> labels else labels) in *.
  destruct (if unlabeled labels i && default false (core_samples 2 (radius_neighbors near xs) !! i)
            then reverse (filter (λ v, unlabeled labels1 v) (default [] (radius_neighbors near xs !! i))) ++ stack
            else stack) as [|v rest]; [done|].
  apply IH; [lia | done].
Qed.

Lemma sweep_inv_start : sweep_inv near xs 0 0 (replicate (length xs) (-1)).
Proof.
  split.
  - by rewrite length_replicate.
  - intros u l [-> _]%lookup_replicate. done.
  - intros u v l [-> _]%lookup_replicate. done.
  - intros u v l [-> _]%lookup_replicate. done.
  - intros u l [-> _]%lookup_replicate. by left.
  - lia.
Qed.

Lemma sweep_inv_skip c k labels :
  negb (unlabeled labels k)
  || negb (default false (core_samples 2 (radius_neighbors near xs) !! k)) = true →
  sweep_inv near xs c k labels → sweep_inv near xs c (S k) labels.
Proof.
  intros Hskip [Hlen Hcore Hclosed Hlinked Hrange Hdone]. split; try done.
  intros u Hu Hcu. destruct (decide (u = k)) as [->|Hne]; [|apply Hdone; [lia|done]].
  rewrite (proj2 (core_flag_true k) Hcu) in Hskip. simpl in Hskip.
  rewrite orb_false_r in Hskip. apply negb_true_iff, unlabeled_false in Hskip.
  destruct (lookup_lt_is_Some_2 labels k) as [l Hl].
  { rewrite Hlen. by eapply core_lt. }
  exists l. split; [done|]. congruence.
Qed.

Lemma sweep_inv_expand c k labels :
  0 ≤ c →
  negb (unlabeled labels k)
  || negb (default false (core_samples 2 (radius_neighbors near xs) !! k)) = false →
  sweep_inv near xs c k labels →
  sweep_inv near xs (c + 1) (S k)
    (expand (S (length xs * S (length xs)))
       (core_samples 2 (radius_neighbors near xs)) (radius_neighbors near xs)
       c k [] labels).
Proof.
  intros Hc Hgo [Hlen Hcore Hclosed Hlinked Hrange Hdone].
  apply orb_false_iff in Hgo as [Hu Hck].
  apply negb_false_iff in Hu, Hck. apply unlabeled_true in Hu.
  apply core_flag_true in Hck.
  assert (Hinv : expand_inv near xs c k [k] labels).
  { split; try done.
    - intros u v l Hul Hl Hadj. left. by eapply Hclosed.
    - intros u Hul. destruct (Hrange u c Hul); lia.
    - intros v ->%list_elem_of_singleton. done.
    - intros u v l Hul Hvl Hl _. by eapply Hlinked.
    - intros u l Hul. destruct (Hrange u l Hul); [by left | right; lia]. }
  assert (Hfuel : (budget xs labels [k] ≤ S (length xs * S (length xs)))%nat).
  { unfold budget. pose proof (length_filter (λ l, l = -1) labels) as Hf.
    rewrite Hlen in Hf. simpl length. nia. }
  destruct (expand_spec c k Hc _ k [] labels Hfuel Hinv)
    as [Hlen' Hcore' Hclosed' Hroot' _ Hold' Hrange'].
  split; try done.
  - intros u v l Hul Hl Hadj.
    destruct (Hclosed' u v l Hul Hl Hadj) as [?|(_ & _ & Hbad)]; [done|].
    by apply elem_of_nil in Hbad.
  - intros u v l Hul Hvl Hl. destruct (decide (l = c)) as [->|Hlc].
    + etrans; [|by apply Hroot'].
      apply (linked_sym_index near near_sym). by apply Hroot'.
    + by eapply Hold'.
  - intros u l Hul. destruct (Hrange' u l Hul); [by left | right; lia].
  - intros u Hu' Hcu. destruct (decide (u = k)) as [->|Hne].
    + exists c. split; [|lia]. apply expand_start; [lia | done].
    + destruct (Hdone u) as (l & Hl & Hl1); [lia | done |].
      exists l. split; [|done]. apply expand_mono; [lia | done | done].
Qed.

Lemma sweep_spec m : ∀ k c labels,
  0 ≤ c → (k + m = length xs)%nat →
  sweep_inv near xs c k labels →
  ∃ c', sweep_inv near xs c' (length xs)
          (sweep (S (length xs * S (length xs)))
             (core_samples 2 (radius_neighbors near xs)) (radius_neighbors near xs)
             (seq k m) c labels).
Proof.
  induction m as [|m IH]; intros k c labels Hc Hk Hinv; simpl.
  - exists c. by replace (length xs) with k by lia.
  - destruct (negb (unlabeled labels k)
              || negb (default false (core_samples 2 (radius_neighbors near xs) !! k)))
      eqn:Hskip.
    + apply IH; [done | lia |]. by apply sweep_inv_skip.
    + apply IH; [lia | lia |]. by apply sweep_inv_expand.
Qed.

Lemma fit_inv : ∃ c, sweep_inv near xs c (length xs) (fit near 2 xs).
Proof.
  unfold fit. apply sweep_spec; [done | lia |]. apply sweep_inv_start.
Qed.

(** Two samples share a cluster exactly when the first is a core sample
    and a chain of ε-steps leads from it to the second. *)
Lemma same_cluster_iff i j :
  same_cluster near 2 xs i j ↔ core near xs i ∧ rtc (adjacent near xs) i j.
Proof.
  destruct fit_inv as [c [Hlen Hcore Hclosed Hlinked Hrange Hdone]].
  unfold same_cluster. split.
  - intros (l & Hl & Hi & Hj). split; [by eapply Hcore | by eapply Hlinked].
  - intros [Hci Hij]. destruct (Hdone i) as (l & Hi & Hl); [by eapply core_lt | done |].
    exists l. split; [done|]. split; [done|].
    clear Hci. induction Hij as [|i k j Hik _ IH]; [done|].
    apply IH. by eapply Hclosed.
Qed.

(** A sample is noise exactly when it is not a core sample. *)
Lemma noise_iff i :
  noise near 2 xs i ↔ (i < length xs)%nat ∧ ¬ core near xs i.
Proof.
  destruct fit_inv as [c [Hlen Hcore Hclosed Hlinked Hrange Hdone]].
  unfold noise. split.
  - intros Hi. split; [rewrite <- Hlen; by eapply lookup_lt_Some|].
    intros Hc. destruct (Hdone i) as (l & Hl & Hne); [by eapply core_lt | done |].
    congruence.
  - intros [Hi Hnc]. destruct (lookup_lt_is_Some_2 (fit near 2 xs) i) as [l Hl]; [lia|].
    destruct (decide (l = -1)) as [->|Hne]; [done|].
    exfalso. apply Hnc. by eapply Hcore.
Qed.

End loops.
End DbscanLoops.

Module DbscanOrder.
Import Dbscan DbscanSpec DbscanGraph DbscanLoops.

Section order.
Context {E : Type} (near : E → E → bool).
Hypothesis near_refl : ∀ x, near x x = true.
Hypothesis near_sym : ∀ x y, near x y = near y x.

(** Chains of indices and chains of values are the same thing. *)
Lemma linked_of_indices (xs : list E) i j :
  rtc (adjacent near xs) i j → ∀ x y,
  xs !! i = Some x → xs !! j = Some y → linked near xs x y.
Proof.
  induction 1 as [i|i k j Hik _ IH]; intros x y Hx Hy.
  - assert (x = y) as -> by congruence. apply rtc_refl.
  - destruct Hik as (x' & z & Hx' & Hz & Hn).
    assert (x' = x) as -> by congruence.
    eapply rtc_l; [|by apply IH].
    split_and!; [by eapply list_elem_of_lookup_2..|done].
Qed.

Lemma indices_of_linked (xs : list E) x y :
  linked near xs x y → ∀ i j,
  xs !! i = Some x → xs !! j = Some y → rtc (adjacent near xs) i j.
Proof.
  induction 1 as [x|x z y (_ & Hz & Hn) _ IH]; intros i j Hi Hj.
  - apply rtc_once. exists x, x. split_and!; [done..|apply near_refl].
  - apply list_elem_of_lookup in Hz as [k Hk].
    eapply rtc_l; [|by apply IH]. by exists x, z.
Qed.

Lemma linked_Permutation (xs ys : list E) x y :
  xs ≡ₚ ys → linked near xs x y → linked near ys x y.
Proof.
  intros Hp. apply rtc_subrel. intros a b (Ha & Hb & Hn).
  rewrite Hp in Ha, Hb. done.
Qed.

Lemma core_Permutation (xs ys : list E) i i' x :
  xs ≡ₚ ys → xs !! i = Some x → ys !! i' = Some x →
  core near xs i → core near ys i'.
Proof.
  intros Hp Hi Hi' (x' & Hx' & Hcount)%core_count. apply core_count.
  assert (x' = x) as -> by congruence.
  exists x. split; [done|]. by rewrite <- Hp.
Qed.

Lemma same_cluster_Permutation (xs ys : list E) i j i' j' x y :
  xs ≡ₚ ys →
  xs !! i = Some x → ys !! i' = Some x →
  xs !! j = Some y → ys !! j' = Some y →
  same_cluster near 2 xs i j → same_cluster near 2 ys i' j'.
Proof.
  intros Hp Hi Hi' Hj Hj'.
  rewrite !(same_cluster_iff near near_refl near_sym). intros [Hc Hl]. split.
  - by apply (core_Permutation xs ys i i' x).
  - apply (indices_of_linked ys x y); [|done..].
    apply (linked_Permutation xs ys); [done|].
    by apply (linked_of_indices xs i j).
Qed.

Lemma noise_Permutation (xs ys : list E) i i' x :
  xs ≡ₚ ys → xs !! i = Some x → ys !! i' = Some x →
  noise near 2 xs i → noise near 2 ys i'.
Proof.
  intros Hp Hi Hi'. rewrite !(noise_iff near near_refl near_sym).
  intros [_ Hnc]. split; [by eapply lookup_lt_Some|].
  intros Hc. apply Hnc. by apply (core_Permutation ys xs i' i x).
Qed.

End order.
End DbscanOrder.

(** ** Clustering: noise stays noise when the clustered samples are taken away *)

Module DbscanNoise.
Import Dbscan DbscanSpec DbscanGraph DbscanLoops.

Section noise.
Context {E : Type} (near : E → E → bool).

(** The sweep labels every core sample it has passed. *)
Lemma sweep_labels_core (xs : list E) fuel m : ∀ k c labels,
  0 ≤ c → length labels = length xs →
  (∀ u, (u < k)%nat → core near xs u → ∃ l, labels !! u = Some l ∧ l ≠ -1) →
  ∀ u, (u < k + m)%nat → core near xs u →
  ∃ l, sweep (S fuel) (core_samples 2 (radius_neighbors near xs)) (radius_neighbors near xs)
         (seq k m) c labels !! u = Some l ∧ l ≠ -1.
Proof.
  induction m as [|m IH]; intros k c labels Hc Hlen Hdone u Hu Hcu; cbn [sweep seq].
  - apply Hdone; [lia | done].
  - destruct (negb (unlabeled labels k)
              || negb (default false (core_samples 2 (radius_neighbors near xs) !! k)))
      eqn:Hskip.
    + apply IH; [done | done | | lia | done].
      intros v Hv Hcv. destruct (decide (v = k)) as [->|Hne]; [|apply Hdone; [lia|done]].
      unfold core in Hcv. rewrite Hcv in Hskip. simpl in Hskip.
      rewrite orb_false_r in Hskip. apply negb_true_iff, unlabeled_false in Hskip.
      destruct (lookup_lt_is_Some_2 labels k) as [l Hl].
      { rewrite Hlen. by eapply core_lt. }
      exists l. split; [done | congruence].
    + apply orb_false_iff in Hskip as [Hk _]. apply negb_false_iff, unlabeled_true in Hk.
      apply IH; [lia | by rewrite DbscanBasics.expand_length | | lia | done].
      intros v Hv Hcv. destruct (decide (v = k)) as [->|Hne].
      * exists c. split; [|lia]. apply expand_start; [lia | done].
      * destruct (Hdone v) as (l & Hl & Hl1); [lia | done |].
        exists l. split; [|done]. apply expand_mono; [lia | done | done].
Qed.

(** A sample labeled noise has fewer than two samples within ε, itself
    included. *)
Lemma noise_count (xs : list E) i x :
  noise near 2 xs i → xs !! i = Some x →
  (length (filter (λ y, near x y) xs) < 2)%nat.
Proof.
  unfold noise, fit. intros Hn Hx.
  destruct (decide (2 ≤ length (filter (λ y, near x y) xs))%nat) as [Hcount|]; [|lia].
  exfalso.
  destruct (sweep_labels_core xs (length xs * S (length xs)) (length xs) 0%nat 0
              (replicate (length xs) (-1))) with (u := i) as (l & Hl & Hne);
    [done | by rewrite length_replicate | lia | | | congruence].
  - simpl. by eapply lookup_lt_Some.
  - apply core_count. by exists x.
Qed.

(** Without core samples the sweep labels nothing. *)
Lemma sweep_no_core fuel is_core nbrs indices : ∀ c labels,
  (∀ i, i ∈ indices → default false (is_core !! i) = false) →
  sweep fuel is_core nbrs indices c labels = labels.
Proof.
  induction indices as [|i rest IH]; intros c labels Hno; simpl; [done|].
  rewrite (Hno i) by left. simpl. rewrite orb_true_r.
  apply IH. intros j Hj. apply Hno. by right.
Qed.

Lemma fit_all_noise (ys : list E) :
  (∀ i y, ys !! i = Some y → (length (filter (λ z, near y z) ys) < 2)%nat) →
  fit near 2 ys = replicate (length ys) (-1).
Proof.
  intros Hsparse. unfold fit. apply sweep_no_core. intros i _.
  destruct (default false (core_samples 2 (radius_neighbors near ys) !! i)) eqn:Hc; [|done].
  apply (core_flag_true near ys i) in Hc. apply core_count in Hc as (y & Hy & Hcount).
  specialize (Hsparse i y Hy). lia.
Qed.

Lemma sublist_filter_length {A} (P : A → Prop) `{!∀ x, Decision (P x)} (l1 l2 : list A) :
  l1 `sublist_of` l2 → (length (filter P l1) ≤ length (filter P l2))%nat.
Proof.
  induction 1 as [|x l1 l2 _ IH|x l1 l2 _ IH]; [done| |];
    rewrite ?filter_cons; repeat case_decide; simpl; lia.
Qed.

(** Clustering again only samples that were labeled noise, in any
    selection and order that keeps them inside the old input, labels them
    all noise. *)
Lemma fit_noise_only (xs ys : list E) :
  ys `sublist_of` xs →
  (∀ y, y ∈ ys → ∃ i, xs !! i = Some y ∧ noise near 2 xs i) →
  fit near 2 ys = replicate (length ys) (-1).
Proof.
  intros Hsub Hnoise. apply fit_all_noise. intros i' y Hy.
  destruct (Hnoise y) as (i & Hi & Hn); [by eapply list_elem_of_lookup_2|].
  pose proof (noise_count xs i y Hn Hi) as Hc.
  pose proof (sublist_filter_length (λ z, near y z) ys xs Hsub). lia.
Qed.

End noise.
End DbscanNoise.

(** ** Clustering stage: a second run finds only noise *)

Module ClusteringAgain.
Import Grouper GroupingFacts ClusteringFacts DbscanNoise.

Lemma group_labels_all_noise summ incidents labels todo c :
  (∀ l, l ∈ todo → l = -1) → group_labels summ incidents labels todo c = c.
Proof.
  induction todo as [|l rest IH]; intros Hall; simpl; [done|].
  rewrite decide_True by (apply Hall; left). apply IH. intros l' Hl'. apply Hall. by right.
Qed.

(** The reports left to select after marking are the selected ones that
    were not marked. *)
Lemma fetch_after_mark G rs :
  filter (λ r, ir_status r = "unprocessed") (mark_reports G rs)
  = filter (λ r, ir_id r ∉ G) (filter (λ r, ir_status r = "unprocessed") rs).
Proof.
  induction rs as [|r rs IH]; [done|].
  unfold mark_reports in *. rewrite fmap_cons, !filter_cons, IH.
  destruct (decide (ir_id r ∈ G)) as [Hin|Hnin]; simpl.
  - case_decide; [|done].
    rewrite filter_cons. rewrite decide_False; [done|]. by intros ?.
  - case_decide; [|done]. rewrite filter_cons. by rewrite decide_True.
Qed.

Section again.
Context {E : Type} (near : E → E → bool).

Lemma run_twice svc summ summ' c :
  pending (run near svc summ' (run near svc summ c)) = pending (run near svc summ c).
Proof.
  destruct svc as [e|]; [|by rewrite !run_None].
  rewrite (run_Some near e summ' (run near (Some e) summ c)).
  rewrite group_labels_all_noise; [reflexivity|].
  intros l Hl. apply (proj1 (unique_labels_spec _ _)) in Hl.
  set (inc0 := fetch_unprocessed_incidents (pending c)).
  set (labels0 := cluster near (e <$> (text_for_embedding <$> inc0))).
  set (G := grouped_ids inc0 labels0 (unique_labels labels0)).
  assert (Hinc : fetch_unprocessed_incidents (pending (run near (Some e) summ c))
                 = filter (λ r, ir_id r ∉ G) inc0).
  { unfold fetch_unprocessed_incidents at 1. rewrite run_Some.
    destruct (group_labels_spec summ inc0 labels0 (unique_labels labels0) (commit c))
      as (Hrep & _).
    subst G labels0 inc0. simpl pending in *. rewrite Hrep. apply fetch_after_mark. }
  simpl pending in Hl. rewrite Hinc in Hl.
  unfold cluster in Hl. rewrite (fit_noise_only near (e <$> (text_for_embedding <$> inc0)))
    in Hl.
  - by apply elem_of_replicate in Hl as [-> _].
  - do 2 apply fmap_sublist. apply sublist_filter.
  - intros y Hy. rewrite <- list_fmap_compose in Hy.
    apply list_elem_of_fmap in Hy as (r & -> & Hr).
    apply list_elem_of_filter in Hr as [HG Hr].
    apply list_elem_of_lookup in Hr as [i Hi]. exists i. split.
    + rewrite <- list_fmap_compose, list_lookup_fmap, Hi. done.
    + destruct (lookup_lt_is_Some_2 labels0 i) as [l0 Hl0].
      { unfold labels0. rewrite cluster_length, !length_fmap. by eapply lookup_lt_Some. }
      destruct (decide (l0 = -1)) as [->|Hne]; [done|].
      exfalso. apply HG. apply grouped_ids_spec. exists l0. split_and!; [|done|].
      * apply unique_labels_spec. by eapply list_elem_of_lookup_2.
      * apply cluster_ids_spec. by exists i, r.
Qed.

End again.
End ClusteringAgain.

(** ** Anti-join stages: a second run with the same replies changes nothing *)

Module AntiJoinFacts.
Import AntiJoin.

Section stage.
Context {A : Type}.
Variable step : A → DB → option DB.
Variable key : A → Z.
Variable derived : DB → list Z.
Variable kind_of : A → kind.

Hypothesis step_skip : ∀ a db, kind_of a = Skip → step a db = Some db.
Hypothesis step_abort : ∀ a db, kind_of a = Abort → step a db = None.
Hypothesis step_insert : ∀ a db, kind_of a = Insert →
  ∃ db', step a db = Some db' ∧ ∀ id, id ∈ derived db' ↔ id = key a ∨ id ∈ derived db.

Lemma loop_derived items : ∀ db id,
  id ∈ derived (loop step items db) → id ∈ derived db ∨ id ∈ key <$> items.
Proof.
  induction items as [|a rest IH]; intros db id; simpl; [by left|].
  destruct (kind_of a) eqn:Hk.
  - rewrite step_skip by done. intros [?|?]%IH; [by left | right; by right].
  - destruct (step_insert a db Hk) as (db' & -> & Hd).
    intros [[->|?]%Hd|?]%IH; [right; left | by left | right; by right].
  - rewrite step_abort by done. by left.
Qed.

Lemma loop_derived_mono items : ∀ db id,
  id ∈ derived db → id ∈ derived (loop step items db).
Proof.
  induction items as [|a rest IH]; intros db id Hid; simpl; [done|].
  destruct (kind_of a) eqn:Hk.
  - rewrite step_skip by done. by apply IH.
  - destruct (step_insert a db Hk) as (db' & -> & Hd). apply IH, Hd. by right.
  - by rewrite step_abort.
Qed.

(** Running the loop again over the items still without a derived row
    changes nothing. *)
Lemma loop_again items : ∀ db,
  NoDup (key <$> items) →
  (∀ a, a ∈ items → key a ∉ derived db) →
  loop step (filter (λ a, key a ∉ derived (loop step items db)) items) (loop step items db)
  = loop step items db.
Proof.
  induction items as [|a rest IH]; intros db Hnd Hfresh; [done|].
  rewrite fmap_cons in Hnd. apply NoDup_cons in Hnd as [Ha Hnd].
  assert (Hfresh' : ∀ a', a' ∈ rest → key a' ∉ derived db).
  { intros a' Ha'. apply Hfresh. by right. }
  destruct (kind_of a) eqn:Hk.
  - assert (Hs : ∀ db0, step a db0 = Some db0) by (intros; by apply step_skip).
    assert (Hl : loop step (a :: rest) db = loop step rest db) by (simpl; by rewrite Hs).
    rewrite Hl. rewrite filter_cons_True.
    + simpl. rewrite Hs. by apply IH.
    + intros [Hd|Hd]%loop_derived; [|done]. by apply (Hfresh a); [left|].
  - destruct (step_insert a db Hk) as (db' & Hs & Hd).
    assert (Hl : loop step (a :: rest) db = loop step rest db') by (simpl; by rewrite Hs).
    rewrite Hl. rewrite filter_cons_False.
    + apply IH; [done|]. intros a' Ha' [Heq|Hin]%Hd.
      * apply Ha. rewrite <- Heq. apply list_elem_of_fmap. by exists a'.
      * by apply (Hfresh' a').
    + intros Hnot. apply Hnot. apply loop_derived_mono, Hd. by left.
  - assert (Hs : ∀ db0, step a db0 = None) by (intros; by apply step_abort).
    assert (Hl : loop step (a :: rest) db = db) by (simpl; by rewrite Hs).
    rewrite Hl. rewrite filter_cons_True by (apply Hfresh; left).
    simpl. by rewrite Hs.
Qed.

End stage.
End AntiJoinFacts.

Module ExtractorAgain.
Import Extractor ExtractorFacts AntiJoin AntiJoinFacts.

Lemma process_tweets_loop f items : ∀ k db,
  (process_tweets (λ _, f) k items db).1
  = loop (λ t, process_tweet (f (tw_text t)) t) items db.
Proof.
  induction items as [|t rest IH]; intros k db; simpl; [done|].
  destruct (process_tweet (f (tw_text t)) t db); [apply IH | done].
Qed.

Lemma extractor_run_again f db :
  NoDup (tw_id <$> tweets db) →
  (run (λ _, f) (run (λ _, f) db).1).1 = (run (λ _, f) db).1.
Proof.
  intros Hnd. unfold run at 1.
  set (db' := (run (λ _, f) db).1).
  assert (Hfetch : fetch_unprocessed_tweets db'
            = filter (λ t, tw_id t ∉ ir_original_tweet_id <$> incident_reports db')
                (fetch_unprocessed_tweets db)).
  { unfold fetch_unprocessed_tweets. unfold db', run.
    destruct (process_tweets_inv (λ _, f) (fetch_unprocessed_tweets db) 0%nat db)
      as (Htw & Hpre & _).
    rewrite Htw. rewrite list_filter_filter_l; [done|].
    intros t Hno Hin. apply Hno. destruct Hpre as [l ->].
    rewrite fmap_app. apply elem_of_app. by left. }
  rewrite Hfetch, process_tweets_loop. unfold db', run. rewrite process_tweets_loop.
  apply (loop_again _ tw_id (λ db, ir_original_tweet_id <$> incident_reports db)
           (λ t, kind_of_reply (f (tw_text t)))).
  - intros t db0 Hk. unfold process_tweet, kind_of_reply in *.
    destruct (f (tw_text t)) as [|[d|[]]]; simpl in *; try done.
    by destruct (negb (bool_decide (d = ∅))).
  - intros t db0 Hk. unfold process_tweet, kind_of_reply in *.
    destruct (f (tw_text t)) as [|[d|[]]]; simpl in *; try done.
    by destruct (negb (bool_decide (d = ∅))).
  - intros t db0 Hk. unfold process_tweet, kind_of_reply in *.
    destruct (f (tw_text t)) as [|[d|[]]]; simpl in *; try done.
    destruct (negb (bool_decide (d = ∅))); [|done].
    eexists. split; [reflexivity|]. intros id.
    apply (has_report_insert (make_report (tw_id t) (tw_text t) d) db0 id).
  - by apply fetch_unprocessed_NoDup.
  - intros t Ht. by apply fetch_unprocessed_spec in Ht as [_ ?].
Qed.

End ExtractorAgain.

Module GeocoderAgain.
Import Geocoder AntiJoin AntiJoinFacts.

Lemma geocode_reports_loop g items : ∀ k db,
  (geocode_reports (λ _, g) k items db).1
  = loop (λ r, geocode_report (g (search_query (fr_event_location r))) r) items db.
Proof.
  induction items as [|r rest IH]; intros k db; simpl; [done|].
  destruct (geocode_report (g (search_query (fr_event_location r))) r db);
    [apply IH | done].
Qed.

Lemma geocoded_insert report lat lon db id :
  id ∈ gt_source_report_id <$> geocoded_tweets (insert_geocoded_report report lat lon db)
  ↔ id = fr_id report ∨ id ∈ gt_source_report_id <$> geocoded_tweets db.
Proof.
  unfold insert_geocoded_report; simpl. case_decide as H.
  - split; [by right | intros [->|?]; done].
  - rewrite fmap_app, elem_of_app. simpl. rewrite list_elem_of_singleton. tauto.
Qed.

Lemma geocode_reports_inv g items : ∀ k db,
  final_report (geocode_reports g k items db).1 = final_report db
  ∧ ∀ id, id ∈ gt_source_report_id <$> geocoded_tweets db →
          id ∈ gt_source_report_id <$> geocoded_tweets (geocode_reports g k items db).1.
Proof.
  induction items as [|r rest IH]; intros k db; simpl; [done|].
  destruct (g k (search_query (fr_event_location r))) as [lat lon| |]; simpl.
  - destruct (IH (S k) (insert_geocoded_report r lat lon db)) as [IH1 IH2].
    split; [by rewrite IH1|]. intros id Hid. apply IH2, geocoded_insert. by right.
  - apply IH.
  - done.
Qed.

Lemma geocoder_run_again g db :
  NoDup (fr_id <$> final_report db) →
  (run (λ _, g) (run (λ _, g) db).1).1 = (run (λ _, g) db).1.
Proof.
  intros Hnd. unfold run at 1.
  set (db' := (run (λ _, g) db).1).
  assert (Hfetch : fetch_unprocessed_reports db'
            = filter (λ r, fr_id r ∉ gt_source_report_id <$> geocoded_tweets db')
                (fetch_unprocessed_reports db)).
  { unfold fetch_unprocessed_reports. unfold db', run.
    destruct (geocode_reports_inv (λ _, g) (fetch_unprocessed_reports db) 0%nat db)
      as (Hfr & Hmono).
    rewrite Hfr. rewrite list_filter_filter_l; [done|].
    intros r Hno Hin. apply Hno. by apply Hmono. }
  rewrite Hfetch, geocode_reports_loop. unfold db', run. rewrite geocode_reports_loop.
  apply (loop_again _ fr_id (λ db, gt_source_report_id <$> geocoded_tweets db)
           (λ r, kind_of_geo (g (search_query (fr_event_location r))))).
  - intros r db0 Hk. by destruct (g (search_query (fr_event_location r))).
  - intros r db0 Hk. by destruct (g (search_query (fr_event_location r))).
  - intros r db0 Hk.
    destruct (g (search_query (fr_event_location r))) as [lat lon| |]; try done.
    eexists. split; [reflexivity|]. intros id. apply geocoded_insert.
  - eapply sublist_NoDup; [exact Hnd|]. apply fmap_sublist, sublist_filter.
  - intros r Hr. unfold fetch_unprocessed_reports in Hr.
    by apply list_elem_of_filter in Hr as [? _].
Qed.

End GeocoderAgain.

(** ** Order independence and idempotence *)

Module PipelineClaims.
Import Grouper.

Lemma dot_comm x y : dot x y = dot y x.
Proof.
  unfold dot. revert y. induction x as [|a x IH]; intros [|b y]; simpl; try done.
  rewrite IH. lia.
Qed.

Lemma cosine_near_refl x : cosine_near x x = true.
Proof. unfold cosine_near. apply bool_decide_eq_true. by left. Qed.

Lemma cosine_near_sym x y : cosine_near x y = cosine_near y x.
Proof.
  unfold cosine_near. apply bool_decide_ext. rewrite (dot_comm y x).
  split; (intros [->|H]; [by left | right; lia]).
Qed.

(** C9: for a symmetric ε-test under which every vector is within ε of
    itself, clustering the same vectors in another order gives the same
    partition: two vectors share a cluster in one run exactly when they do
    in the other, and a vector is noise in one exactly when it is in the
    other. Running twice on the same input is the case [ys = xs]. *)
Theorem clustering_order_independent {E} (near : E → E → bool)
    (xs ys : list E) i j i' j' x y :
  (∀ x, near x x = true) → (∀ x y, near x y = near y x) →
  xs ≡ₚ ys →
  xs !! i = Some x → ys !! i' = Some x →
  xs !! j = Some y → ys !! j' = Some y →
  ((∃ l, l ≠ -1 ∧ cluster near xs !! i = Some l ∧ cluster near xs !! j = Some l)
   ↔ (∃ l, l ≠ -1 ∧ cluster near ys !! i' = Some l ∧ cluster near ys !! j' = Some l))
  ∧ (cluster near xs !! i = Some (-1) ↔ cluster near ys !! i' = Some (-1)).
Proof.
  intros Hrefl Hsym Hp Hi Hi' Hj Hj'. split; split.
  - by apply (DbscanOrder.same_cluster_Permutation near Hrefl Hsym xs ys i j i' j' x y).
  - by apply (DbscanOrder.same_cluster_Permutation near Hrefl Hsym ys xs i' j' i j x y).
  - by apply (DbscanOrder.noise_Permutation near Hrefl Hsym xs ys i i' x).
  - by apply (DbscanOrder.noise_Permutation near Hrefl Hsym ys xs i' i x).
Qed.

Lemma clustering_order_independent_witness :
  ((∃ l, l ≠ -1 ∧ cluster cosine_near [[10; 1]; [9; 2]; [0; 1]] !! 0%nat = Some l
         ∧ cluster cosine_near [[10; 1]; [9; 2]; [0; 1]] !! 1%nat = Some l)
   ↔ (∃ l, l ≠ -1 ∧ cluster cosine_near [[0; 1]; [10; 1]; [9; 2]] !! 1%nat = Some l
           ∧ cluster cosine_near [[0; 1]; [10; 1]; [9; 2]] !! 2%nat = Some l))
  ∧ (cluster cosine_near [[10; 1]; [9; 2]; [0; 1]] !! 2%nat = Some (-1)
     ↔ cluster cosine_near [[0; 1]; [10; 1]; [9; 2]] !! 0%nat = Some (-1)).
Proof.
  split.
  - apply (clustering_order_independent cosine_near
             [[10; 1]; [9; 2]; [0; 1]] [[0; 1]; [10; 1]; [9; 2]]
             0%nat 1%nat 1%nat 2%nat [10; 1] [9; 2]
             cosine_near_refl cosine_near_sym);
      [symmetry; apply (Permutation_cons_append [[10; 1]; [9; 2]] [0; 1])
      | reflexivity..].
  - apply (clustering_order_independent cosine_near
             [[10; 1]; [9; 2]; [0; 1]] [[0; 1]; [10; 1]; [9; 2]]
             2%nat 2%nat 0%nat 0%nat [0; 1] [0; 1]
             cosine_near_refl cosine_near_sym);
      [symmetry; apply (Permutation_cons_append [[10; 1]; [9; 2]] [0; 1])
      | reflexivity..].
Defined.

(** C3, as stated, fails: the extractor's first run, with the language
    model down, leaves the store as it was; its second run on that store,
    with the model up, inserts a row. *)
Lemma extractor_second_run_inserts :
  (Extractor.run Scenario.llm_down Scenario.one_tweet).1 = Scenario.one_tweet
  ∧ incident_reports (Extractor.run Scenario.llm_down Scenario.one_tweet).1 = []
  ∧ length (incident_reports
              (Extractor.run Scenario.llm_up
                 (Extractor.run Scenario.llm_down Scenario.one_tweet).1).1) = 1%nat.
Proof. vm_compute. done. Qed.

(** C3, amended: a second run of a stage on the store its first run left
    changes nothing when the collaborators answer as they did in the first
    run (the same reply for the same text or place name, the same
    embedding service); the classifier's second run changes nothing
    whatever its collaborator answers. *)
Theorem second_run_changes_nothing :
  (∀ oracle oracle' db,
     Classifier.run oracle' (Classifier.run oracle db) = Classifier.run oracle db)
  ∧ (∀ f db, NoDup (tw_id <$> tweets db) →
       (Extractor.run (λ _, f) (Extractor.run (λ _, f) db).1).1
       = (Extractor.run (λ _, f) db).1)
  ∧ (∀ {E} (near : E → E → bool) svc summ summ' c,
       pending (run near svc summ' (run near svc summ c))
       = pending (run near svc summ c))
  ∧ (∀ g db, NoDup (fr_id <$> final_report db) →
       (Geocoder.run (λ _, g) (Geocoder.run (λ _, g) db).1).1
       = (Geocoder.run (λ _, g) db).1).
Proof.
  split; [|split; [|split]].
  - intros. apply ClassifierFacts.classifier_idempotent.
  - apply ExtractorAgain.extractor_run_again.
  - intros. apply ClusteringAgain.run_twice.
  - apply GeocoderAgain.geocoder_run_again.
Qed.

Lemma second_run_changes_nothing_witness :
  (Extractor.run Scenario.llm_down (Extractor.run Scenario.llm_down Scenario.one_tweet).1).1
  = (Extractor.run Scenario.llm_down Scenario.one_tweet).1
  ∧ pending (run cosine_near Scenario.embedder Scenario.failing_summarizer
               (run cosine_near Scenario.embedder Scenario.failing_summarizer
                  (connect Scenario.store)))
    = pending (run cosine_near Scenario.embedder Scenario.failing_summarizer
                 (connect Scenario.store)).
Proof.
  destruct second_run_changes_nothing as (_ & Hext & Hclu & _). split.
  - apply (Hext (λ _, Raised) Scenario.one_tweet). apply NoDup_singleton.
  - apply Hclu.
Defined.

End PipelineClaims.

(** ** Dispatch workflow: what the write endpoints leave alone *)

Module ApiMore.
Import Api ApiFacts.

Lemma set_gt_status_same r : set_gt_status (gt_status r) r = r.
Proof. by destruct r. Qed.

Lemma update_status_lookup s report_id db k :
  geocoded_tweets (update_status s report_id db) !! k
  = (λ r, if decide (gt_source_report_id r = report_id) then set_gt_status s r else r)
      <$> geocoded_tweets db !! k.
Proof. unfold update_status; simpl. by rewrite list_lookup_fmap. Qed.

Lemma update_status_twice s1 s2 report_id db :
  update_status s2 report_id (update_status s1 report_id db)
  = update_status s2 report_id db.
Proof.
  unfold update_status, set_geocoded_tweets; simpl. f_equal.
  rewrite <- list_fmap_compose. apply list_fmap_ext. intros _ r _. simpl.
  destruct (decide (gt_source_report_id r = report_id)) as [Hr|Hr]; simpl.
  - by rewrite decide_True.
  - by rewrite decide_False.
Qed.

(** With unique ids, writing back the status the row has is no change. *)
Lemma update_status_same st report_id db :
  NoDup (gt_source_report_id <$> geocoded_tweets db) →
  select_status report_id db = Some st →
  update_status st report_id db = db.
Proof.
  unfold select_status, update_status, set_geocoded_tweets.
  destruct db as [? ? ? ? g ? ? ? ?]; simpl. intros Hnd Hsel. f_equal.
  induction g as [|r g IH]; [done|].
  rewrite fmap_cons in Hnd. apply NoDup_cons in Hnd as [Hr Hnd].
  rewrite filter_cons in Hsel. rewrite fmap_cons.
  destruct (decide (gt_source_report_id r = report_id)) as [Heq|Hne].
  - simpl in Hsel. injection Hsel as <-. rewrite set_gt_status_same. f_equal.
    rewrite <- (list_fmap_id g) at 2. apply list_fmap_ext. intros i r' Hr'.
    rewrite decide_False; [done|]. intros Heq'. apply Hr. rewrite Heq, <- Heq'.
    apply list_elem_of_fmap. exists r'. split; [done|].
    by eapply list_elem_of_lookup_2.
  - f_equal. by apply IH.
Qed.

(** X1: the dispatch and complete actions never add or remove a geocoded
    event and never touch another table; a row keeps every column but its
    status, and a row with another id keeps its status too. *)
Theorem write_endpoints_change_status_only reachable report_id db db' :
  db' = (dispatch_incident reachable report_id db).1
  ∨ db' = (complete_incident reachable report_id db).1 →
  tweets db' = tweets db
  ∧ actionable_tweets db' = actionable_tweets db
  ∧ incident_reports db' = incident_reports db
  ∧ final_report db' = final_report db
  ∧ length (geocoded_tweets db') = length (geocoded_tweets db)
  ∧ ∀ k r, geocoded_tweets db !! k = Some r →
      ∃ s, geocoded_tweets db' !! k = Some (set_gt_status s r)
           ∧ (gt_source_report_id r ≠ report_id → s = gt_status r).
Proof.
  assert (Hupd : ∀ s, db' = update_status s report_id db →
    tweets db' = tweets db
    ∧ actionable_tweets db' = actionable_tweets db
    ∧ incident_reports db' = incident_reports db
    ∧ final_report db' = final_report db
    ∧ length (geocoded_tweets db') = length (geocoded_tweets db)
    ∧ ∀ k r, geocoded_tweets db !! k = Some r →
        ∃ s, geocoded_tweets db' !! k = Some (set_gt_status s r)
             ∧ (gt_source_report_id r ≠ report_id → s = gt_status r)).
  { intros s ->. split_and!; try done.
    - unfold update_status; simpl. by rewrite length_fmap.
    - intros k r Hk. rewrite update_status_lookup, Hk. simpl.
      destruct (decide (gt_source_report_id r = report_id)) as [Heq|Hne].
      + exists s. split; [done|]. by intros ?.
      + exists (gt_status r). by rewrite set_gt_status_same. }
  assert (Hsame : db' = db →
    tweets db' = tweets db
    ∧ actionable_tweets db' = actionable_tweets db
    ∧ incident_reports db' = incident_reports db
    ∧ final_report db' = final_report db
    ∧ length (geocoded_tweets db') = length (geocoded_tweets db)
    ∧ ∀ k r, geocoded_tweets db !! k = Some r →
        ∃ s, geocoded_tweets db' !! k = Some (set_gt_status s r)
             ∧ (gt_source_report_id r ≠ report_id → s = gt_status r)).
  { intros ->. split_and!; try done. intros k r Hk. exists (gt_status r).
    by rewrite set_gt_status_same. }
  unfold dispatch_incident, complete_incident. destruct reachable; simpl.
  - destruct (select_status report_id db) as [st|]; simpl; intros [H|H]; eauto.
  - intros [H|H]; eauto.
Qed.

Lemma write_endpoints_change_status_only_witness :
  length (geocoded_tweets (dispatch_incident true 7 (sample_db 7 "reported")).1) = 1%nat.
Proof.
  refine (proj1 (proj2 (proj2 (proj2 (proj2
    (write_endpoints_change_status_only true 7 (sample_db 7 "reported") _ _)))))).
  left. reflexivity.
Defined.

(** X2: with unique ids, dispatching a reported or dispatched incident
    twice gives back the store as it was. *)
Theorem dispatch_twice_restores report_id db st :
  NoDup (gt_source_report_id <$> geocoded_tweets db) →
  select_status report_id db = Some st →
  st = "reported" ∨ st = "dispatched" →
  (dispatch_incident true report_id (dispatch_incident true report_id db).1).1 = db.
Proof.
  intros Hnd Hsel Hst.
  pose proof (dispatch_status report_id db st Hsel) as H1.
  unfold dispatch_incident at 1. rewrite H1. simpl.
  unfold dispatch_incident. rewrite Hsel. simpl. rewrite update_status_twice.
  replace (if decide ((if decide (st = "dispatched") then "reported" else "dispatched")
                      = "dispatched") then "reported" else "dispatched") with st.
  - by apply update_status_same.
  - destruct Hst as [-> | ->]; reflexivity.
Qed.

Lemma dispatch_twice_restores_witness :
  (dispatch_incident true 7 (dispatch_incident true 7 (sample_db 7 "reported")).1).1
  = sample_db 7 "reported".
Proof.
  apply (dispatch_twice_restores 7 (sample_db 7 "reported") "reported").
  - apply NoDup_singleton.
  - reflexivity.
  - by left.
Defined.

(** X3: completing an incident takes exactly the rows with that id out of
    the active set the dashboard lists; every other active row stays. *)
Theorem complete_leaves_active_set report_id db :
  (∀ r, r ∈ get_incidents true (complete_incident true report_id db).1 →
        gt_source_report_id r ≠ report_id ∧ r ∈ get_incidents true db)
  ∧ (∀ r, r ∈ get_incidents true db → gt_source_report_id r ≠ report_id →
          r ∈ get_incidents true (complete_incident true report_id db).1).
Proof.
  unfold get_incidents, complete_incident, update_status; simpl. split.
  - intros r [Hact Hr]%list_elem_of_filter.
    apply list_elem_of_fmap in Hr as (r0 & -> & Hr0).
    destruct (decide (gt_source_report_id r0 = report_id)) as [Heq|Hne].
    + simpl in Hact. by destruct Hact as (_ & _ & ?).
    + split; [done|]. by apply list_elem_of_filter.
  - intros r [Hact Hr]%list_elem_of_filter Hne. apply list_elem_of_filter.
    split; [done|]. apply list_elem_of_fmap. exists r. by rewrite decide_False.
Qed.

(** X4: completing overrides whatever was dispatched before on the same
    id, and completing twice is completing once. *)
Theorem complete_absorbs report_id db :
  (complete_incident true report_id (dispatch_incident true report_id db).1).1
  = (complete_incident true report_id db).1
  ∧ (complete_incident true report_id (complete_incident true report_id db).1).1
    = (complete_incident true report_id db).1.
Proof.
  unfold complete_incident, dispatch_incident; simpl. split.
  - destruct (select_status report_id db); simpl; [apply update_status_twice | done].
  - apply update_status_twice.
Qed.

End ApiMore.

(** ** Classifier stage: who is advanced, who becomes actionable *)

Module ClassifierMore.
Import Classifier ClassifierFacts.

Lemma actionable_insert text_content source_id db id :
  id ∈ at_source_tweet_id <$> actionable_tweets (insert_actionable_tweet text_content source_id db)
  ↔ id = source_id ∨ id ∈ at_source_tweet_id <$> actionable_tweets db.
Proof.
  unfold insert_actionable_tweet; simpl. case_decide as H.
  - split; [by right | intros [->|?]; done].
  - rewrite fmap_app, elem_of_app. simpl. rewrite list_elem_of_singleton. tauto.
Qed.

Lemma actionable_insert_NoDup text_content source_id db :
  NoDup (at_source_tweet_id <$> actionable_tweets db) →
  NoDup (at_source_tweet_id <$> actionable_tweets
           (insert_actionable_tweet text_content source_id db)).
Proof.
  intros Hnd. unfold insert_actionable_tweet; simpl. case_decide as H; [done|].
  rewrite fmap_app. apply NoDup_app. split; [done|]. split; [|apply NoDup_singleton].
  intros id Hid ->%list_elem_of_singleton. done.
Qed.

Lemma actionable_insert_prefix text_content source_id db :
  actionable_tweets db
  `prefix_of` actionable_tweets (insert_actionable_tweet text_content source_id db).
Proof.
  unfold insert_actionable_tweet; simpl. case_decide; [done | by apply prefix_app_r].
Qed.

(** One pass of the loop on the tables other than [tweets]. *)
Lemma classify_tweet_tables reply item db :
  let db' := classify_tweet reply item db in
  incident_reports db' = incident_reports db
  ∧ final_report db' = final_report db
  ∧ geocoded_tweets db' = geocoded_tweets db
  ∧ actionable_tweets db `prefix_of` actionable_tweets db'
  ∧ (NoDup (at_source_tweet_id <$> actionable_tweets db) →
     NoDup (at_source_tweet_id <$> actionable_tweets db'))
  ∧ ∀ id, id ∈ at_source_tweet_id <$> actionable_tweets db'
          ↔ id ∈ at_source_tweet_id <$> actionable_tweets db
            ∨ (id = item.1 ∧ classify_text reply = "Actionable").
Proof.
  intros db'. subst db'. unfold classify_tweet.
  destruct (decide (classify_text reply = "Actionable")) as [Ha|Hn].
  - split_and!; try reflexivity.
    + apply actionable_insert_prefix.
    + apply actionable_insert_NoDup.
    + intros id. pose proof (actionable_insert item.2 item.1 db id) as Hins. split.
      * intros H. apply Hins in H as [H|H]; [by right | by left].
      * intros [H|[H _]]; apply Hins; [by right | by left].
  - split_and!; try done. intros id. split; [by left|]. by intros [?|[_ ?]].
Qed.

Lemma classify_tweets_tables oracle items : ∀ k db,
  let db' := classify_tweets oracle k items db in
  incident_reports db' = incident_reports db
  ∧ final_report db' = final_report db
  ∧ geocoded_tweets db' = geocoded_tweets db
  ∧ actionable_tweets db `prefix_of` actionable_tweets db'
  ∧ (NoDup (at_source_tweet_id <$> actionable_tweets db) →
     NoDup (at_source_tweet_id <$> actionable_tweets db'))
  ∧ ∀ id, id ∈ at_source_tweet_id <$> actionable_tweets db'
          ↔ id ∈ at_source_tweet_id <$> actionable_tweets db
            ∨ ∃ j item, items !! j = Some item ∧ item.1 = id
                        ∧ classify_text (oracle (k + j)%nat item.2) = "Actionable".
Proof.
  induction items as [|item rest IH]; intros k db; simpl.
  - split_and!; try done. intros id. split; [by left|].
    intros [?|(j & it & Hj & _)]; [done|]. by rewrite lookup_nil in Hj.
  - destruct (classify_tweet_tables (oracle k item.2) item db)
      as (H1 & H2 & H3 & H4 & H5 & H6).
    destruct (IH (S k) (classify_tweet (oracle k item.2) item db))
      as (I1 & I2 & I3 & I4 & I5 & I6).
    split_and!; try congruence.
    + by etrans.
    + intros Hnd. by apply I5, H5.
    + intros id. rewrite I6, H6. split.
      * intros [[?|[-> Ha]]|(j & it & Hj & Hid & Ha)].
        -- by left.
        -- right. exists 0%nat, item. by rewrite Nat.add_0_r.
        -- right. exists (S j), it. by replace (k + S j)%nat with (S k + j)%nat by lia.
      * intros [?|(j & it & Hj & Hid & Ha)]; [by left; left|].
        destruct j as [|j]; simpl in Hj.
        -- injection Hj as ->. rewrite Nat.add_0_r in Ha. left. right. done.
        -- right. exists j, it. by replace (S k + j)%nat with (k + S j)%nat by lia.
Qed.

(** X5: a classifier run sets every unclassified tweet to ["classified"],
    whatever the collaborator answered, and leaves every other tweet and
    the tables of the later stages as they were. *)
Theorem classifier_advances_unclassified oracle db :
  NoDup (tw_id <$> tweets db) →
  (∀ k t, tweets db !! k = Some t →
     tweets (run oracle db) !! k
     = Some (if decide (tw_status t = "unclassified")
             then set_tw_status "classified" t else t))
  ∧ incident_reports (run oracle db) = incident_reports db
  ∧ final_report (run oracle db) = final_report db
  ∧ geocoded_tweets (run oracle db) = geocoded_tweets db.
Proof.
  intros Hnd. unfold run.
  destruct (classify_tweets_tables oracle (fetch_unclassified_tweets db) 0%nat db)
    as (H1 & H2 & H3 & _).
  split; [|done]. intros k t Hk.
  rewrite tweets_classify_tweets. unfold mark_tweets. rewrite list_lookup_fmap, Hk. simpl.
  f_equal. pose proof (list_elem_of_lookup_2 _ _ _ Hk) as Ht.
  destruct (decide (tw_status t = "unclassified")) as [Hu|Hu].
  - rewrite decide_True; [done|]. by apply fetch_unclassified_ids.
  - rewrite decide_False; [done|]. intros Hin. apply Hu.
    unfold fetch_unclassified_tweets in Hin. rewrite <- list_fmap_compose in Hin.
    apply list_elem_of_fmap in Hin as (t' & Hid & [Hst Ht']%list_elem_of_filter).
    simpl in Hid.
    by rewrite (ClusteringFacts.NoDup_fmap_eq tw_id (tweets db) t t' Hnd Ht Ht' Hid).
Qed.

Lemma classifier_advances_unclassified_witness :
  tweets (run Scenario.llm_down Scenario.one_tweet) !! 0%nat
  = Some {| tw_id := 42; tw_text := "Water entering houses in Gandhi Nagar";
            tw_created_at := 0; tw_status := "classified" |}.
Proof.
  apply (proj1 (classifier_advances_unclassified Scenario.llm_down Scenario.one_tweet
                  (NoDup_singleton _)) 0%nat _ eq_refl).
Defined.

(** X6: after a classifier run the actionable table lists the ids it
    listed before and the ids of the selected tweets whose label is
    ["Actionable"], no others; the rows it had stay in place and the source
    ids stay unique. *)
Theorem classifier_actionable_rows oracle db :
  (∀ id, id ∈ at_source_tweet_id <$> actionable_tweets (run oracle db)
         ↔ id ∈ at_source_tweet_id <$> actionable_tweets db
           ∨ ∃ j text, fetch_unclassified_tweets db !! j = Some (id, text)
                       ∧ classify_text (oracle j text) = "Actionable")
  ∧ actionable_tweets db `prefix_of` actionable_tweets (run oracle db)
  ∧ (NoDup (at_source_tweet_id <$> actionable_tweets db) →
     NoDup (at_source_tweet_id <$> actionable_tweets (run oracle db))).
Proof.
  unfold run.
  destruct (classify_tweets_tables oracle (fetch_unclassified_tweets db) 0%nat db)
    as (_ & _ & _ & Hpre & Hnd & Hids).
  split; [|done]. intros id. rewrite Hids. split.
  - intros [?|(j & [id' text] & Hj & Hid & Ha)]; [by left|]. simpl in *. subst id'.
    right. by exists j, text.
  - intros [?|(j & text & Hj & Ha)]; [by left|]. right. by exists j, (id, text).
Qed.

Lemma classifier_actionable_rows_witness :
  41 ∈ at_source_tweet_id <$> actionable_tweets
                                (run ClassifierScenario.llm_labels ClassifierScenario.store)
  ∧ 42 ∈ at_source_tweet_id <$> actionable_tweets
                                  (run ClassifierScenario.llm_labels ClassifierScenario.store)
  ∧ (43 ∉ at_source_tweet_id <$> actionable_tweets
                                   (run ClassifierScenario.llm_labels ClassifierScenario.store))
  ∧ actionable_tweets ClassifierScenario.store
    `prefix_of` actionable_tweets
                  (run ClassifierScenario.llm_labels ClassifierScenario.store)
  ∧ NoDup (at_source_tweet_id <$> actionable_tweets
             (run ClassifierScenario.llm_labels ClassifierScenario.store)).
Proof.
  destruct (classifier_actionable_rows ClassifierScenario.llm_labels ClassifierScenario.store)
    as (Hids & Hpre & Hnd).
  split_and!.
  - apply Hids. left. apply list_elem_of_singleton. reflexivity.
  - apply Hids. right. exists 0%nat, "Water entering houses". split; reflexivity.
  - intros [Hold|(j & text & Hj & Hlabel)]%Hids.
    + apply list_elem_of_singleton in Hold. discriminate Hold.
    + destruct j as [|[|j]]; simpl in Hj; [discriminate Hj | | discriminate Hj].
      injection Hj as <-. vm_compute in Hlabel. discriminate Hlabel.
  - exact Hpre.
  - apply Hnd. apply NoDup_singleton.
Defined.

End ClassifierMore.

(** ** Extractor stage: keys, provenance of the rows, aborted batches *)

Module ExtractorMore.
Import Extractor ExtractorFacts.

(** The row an insert appends when the tweet has no report yet. *)
Lemma insert_report_rows report db :
  ∃ new,
    (incident_reports (insert_incident_report report db) = incident_reports db ++ new)
    ∧ (new = []
       ∨ ((original_tweet_id report ∉ ir_original_tweet_id <$> incident_reports db)
          ∧ new = [{| ir_id := incident_reports_seq db;
                      ir_original_tweet_id := original_tweet_id report;
                      ir_extracted_location := location report;
                      ir_extracted_issue := issue report;
                      ir_issue_time := time report;
                      ir_original_tweet_text := original_tweet_text report;
                      ir_status := "unprocessed" |}])).
Proof.
  unfold insert_incident_report; simpl. case_decide as H.
  - exists []. split; [by rewrite app_nil_r | by left].
  - eexists. split; [reflexivity|]. by right.
Qed.

Lemma insert_report_keys report db :
  report_keys_ok db → report_keys_ok (insert_incident_report report db).
Proof.
  intros (Hid & Hseq & Horig).
  destruct (insert_report_rows report db) as (new & Hrows & [->|[Hfresh ->]]).
  - rewrite app_nil_r in Hrows. unfold report_keys_ok. rewrite Hrows.
    split_and!; [done| |done]. intros r Hr. specialize (Hseq r Hr). simpl. lia.
  - unfold report_keys_ok. rewrite Hrows, !fmap_app. simpl. split_and!.
    + apply NoDup_app. split_and!; [done| |apply NoDup_singleton].
      intros id Hin ->%list_elem_of_singleton.
      apply list_elem_of_fmap in Hin as (r & Hr & Hin). specialize (Hseq r Hin). lia.
    + intros r [Hr| ->%list_elem_of_singleton]%elem_of_app; simpl; [|lia].
      specialize (Hseq r Hr). lia.
    + apply NoDup_app. split_and!; [done| |apply NoDup_singleton].
      by intros id Hin ->%list_elem_of_singleton.
Qed.

Lemma process_tweet_keys reply t db db' :
  process_tweet reply t db = Some db' → report_keys_ok db → report_keys_ok db'.
Proof.
  unfold process_tweet. destruct reply as [|[d|b]]; simpl.
  - by intros [= <-].
  - destruct (negb (bool_decide (d = ∅))); intros [= <-]; [|done].
    apply insert_report_keys.
  - destruct b; [done | by intros [= <-]].
Qed.

Lemma process_tweet_tables reply t db db' :
  process_tweet reply t db = Some db' →
  actionable_tweets db' = actionable_tweets db
  ∧ final_report db' = final_report db
  ∧ geocoded_tweets db' = geocoded_tweets db.
Proof.
  unfold process_tweet. destruct reply as [|[d|b]]; simpl.
  - by intros [= <-].
  - by destruct (negb (bool_decide (d = ∅))); intros [= <-].
  - destruct b; [done | by intros [= <-]].
Qed.

Lemma process_tweets_keys oracle items : ∀ k db,
  report_keys_ok db →
  report_keys_ok (process_tweets oracle k items db).1
  ∧ actionable_tweets (process_tweets oracle k items db).1 = actionable_tweets db
  ∧ final_report (process_tweets oracle k items db).1 = final_report db
  ∧ geocoded_tweets (process_tweets oracle k items db).1 = geocoded_tweets db.
Proof.
  induction items as [|t rest IH]; intros k db Hok; simpl; [done|].
  destruct (process_tweet (oracle k (tw_text t)) t db) as [db1|] eqn:Hstep; [|done].
  destruct (process_tweet_tables _ _ _ _ Hstep) as (H1 & H2 & H3).
  destruct (IH (S k) db1 (process_tweet_keys _ _ _ _ Hstep Hok)) as (I0 & I1 & I2 & I3).
  split_and!; congruence.
Qed.

(** X7: an extractor run keeps the key discipline of [incident_reports]
    (ids unique and below the sequence, one report per tweet id), keeps
    the reports it found in place, and writes to no other table. *)
Theorem extractor_keeps_keys oracle db :
  report_keys_ok db →
  report_keys_ok (run oracle db).1
  ∧ incident_reports db `prefix_of` incident_reports (run oracle db).1
  ∧ tweets (run oracle db).1 = tweets db
  ∧ actionable_tweets (run oracle db).1 = actionable_tweets db
  ∧ final_report (run oracle db).1 = final_report db
  ∧ geocoded_tweets (run oracle db).1 = geocoded_tweets db.
Proof.
  intros Hok. unfold run.
  destruct (process_tweets_keys oracle (fetch_unprocessed_tweets db) 0%nat db Hok)
    as (H0 & H1 & H2 & H3).
  destruct (process_tweets_inv oracle (fetch_unprocessed_tweets db) 0%nat db)
    as (Htw & Hpre & _).
  done.
Qed.

Lemma extractor_keeps_keys_witness :
  report_keys_ok (run Scenario.llm_up Scenario.one_tweet).1.
Proof.
  apply extractor_keeps_keys. split_and!; [apply NoDup_nil_2 | | apply NoDup_nil_2].
  intros r Hr. by apply elem_of_nil in Hr.
Defined.

Lemma process_tweets_new oracle items : ∀ k db,
  ∃ new,
    incident_reports (process_tweets oracle k items db).1 = incident_reports db ++ new
    ∧ ∀ r, r ∈ new →
        ir_status r = "unprocessed"
        ∧ ∃ j t d, items !! j = Some t
                   ∧ oracle (k + j)%nat (tw_text t) = Parsed (JObject d) ∧ d ≠ ∅
                   ∧ ir_original_tweet_id r = tw_id t
                   ∧ ir_original_tweet_text r = tw_text t
                   ∧ ir_extracted_location r = dict_get d "location" "Extraction Failed"
                   ∧ ir_extracted_issue r = dict_get d "issue" "Extraction Failed"
                   ∧ ir_issue_time r = dict_get d "time" "Extraction Failed".
Proof.
  induction items as [|t rest IH]; intros k db; simpl.
  - exists []. split; [by rewrite app_nil_r|]. intros r Hr. by apply elem_of_nil in Hr.
  - destruct (process_tweet (oracle k (tw_text t)) t db) as [db1|] eqn:Hstep; simpl.
    + destruct (IH (S k) db1) as (new & Hrows & Hnew).
      assert (Hshift : ∀ r, r ∈ new →
        ir_status r = "unprocessed"
        ∧ ∃ j t' d, (t :: rest) !! j = Some t'
                    ∧ oracle (k + j)%nat (tw_text t') = Parsed (JObject d) ∧ d ≠ ∅
                    ∧ ir_original_tweet_id r = tw_id t'
                    ∧ ir_original_tweet_text r = tw_text t'
                    ∧ ir_extracted_location r = dict_get d "location" "Extraction Failed"
                    ∧ ir_extracted_issue r = dict_get d "issue" "Extraction Failed"
                    ∧ ir_issue_time r = dict_get d "time" "Extraction Failed").
      { intros r Hr. destruct (Hnew r Hr) as (Hst & j & t' & d & Hj & Ho & Hrest).
        split; [done|]. exists (S j), t', d.
        by replace (k + S j)%nat with (S k + j)%nat by lia. }
      unfold process_tweet in Hstep.
      destruct (oracle k (tw_text t)) as [|[d|b]] eqn:Ho; simpl in Hstep.
      * injection Hstep as <-. by exists new.
      * destruct (negb (bool_decide (d = ∅))) eqn:Hd; injection Hstep as <-;
          [|by exists new].
        destruct (insert_report_rows (make_report (tw_id t) (tw_text t) d) db)
          as (row & Hins & Hrow).
        exists (row ++ new). rewrite Hrows, Hins, app_assoc. split; [done|].
        intros r [Hr|Hr]%elem_of_app; [|by apply Hshift].
        destruct Hrow as [->|[_ ->]]; [by apply elem_of_nil in Hr|].
        apply list_elem_of_singleton in Hr as ->. split; [done|].
        exists 0%nat, t, d. rewrite Nat.add_0_r. split_and!; try done.
        by apply ExtractorFacts.truthy_object.
      * destruct b; [done|]. injection Hstep as <-. by exists new.
    + exists []. split; [by rewrite app_nil_r|]. intros r Hr. by apply elem_of_nil in Hr.
Qed.

(** X8: every row an extractor run appends has status ["unprocessed"] and
    comes from a selected tweet whose reply was a non-empty object: it
    carries that tweet's id and text, and for each field the reply's value
    or ["Extraction Failed"]. *)
Theorem extractor_rows_provenance oracle db :
  ∃ new,
    incident_reports (run oracle db).1 = incident_reports db ++ new
    ∧ ∀ r, r ∈ new →
        ir_status r = "unprocessed"
        ∧ ∃ j t d, fetch_unprocessed_tweets db !! j = Some t
                   ∧ oracle j (tw_text t) = Parsed (JObject d) ∧ d ≠ ∅
                   ∧ ir_original_tweet_id r = tw_id t
                   ∧ ir_original_tweet_text r = tw_text t
                   ∧ ir_extracted_location r = dict_get d "location" "Extraction Failed"
                   ∧ ir_extracted_issue r = dict_get d "issue" "Extraction Failed"
                   ∧ ir_issue_time r = dict_get d "time" "Extraction Failed".
Proof. apply (process_tweets_new oracle (fetch_unprocessed_tweets db) 0%nat db). Qed.

Lemma process_tweets_abort oracle items : ∀ k db i t,
  items !! i = Some t →
  oracle (k + i)%nat (tw_text t) = Parsed (JOther true) →
  (process_tweets oracle k items db).2 = Aborted "AttributeError"
  ∧ ∀ id, has_report id (process_tweets oracle k items db).1 →
          has_report id db ∨ ∃ j t', (j < i)%nat ∧ items !! j = Some t' ∧ tw_id t' = id.
Proof.
  induction items as [|t0 rest IH]; intros k db i t Hi Ho; [done|]. simpl.
  destruct i as [|i]; simpl in Hi.
  - injection Hi as ->. rewrite Nat.add_0_r in Ho. unfold process_tweet. rewrite Ho.
    simpl. split; [done|]. intros id ?. by left.
  - destruct (process_tweet (oracle k (tw_text t0)) t0 db) as [db1|] eqn:Hstep; simpl.
    + destruct (IH (S k) db1 i t Hi) as [Hend Hrep].
      { by replace (S k + i)%nat with (k + S i)%nat by lia. }
      split; [done|]. intros id [Hid|(j & t' & Hj & Hjt & Hid)]%Hrep.
      * apply process_tweet_Some in Hstep as (_ & _ & Hstep).
        apply Hstep in Hid as [?|[-> _]]; [by left|].
        right. exists 0%nat, t0. split_and!; [lia|done..].
      * right. exists (S j), t'. split_and!; [lia|done..].
    + split; [done|]. intros id ?. by left.
Qed.

(** X9: a reply that parses to a non-empty value other than an object ends
    the batch with [AttributeError]: the tweet it belongs to and every
    tweet selected after it are left without a report. *)
Theorem extractor_batch_aborts oracle db i t :
  NoDup (tw_id <$> tweets db) →
  fetch_unprocessed_tweets db !! i = Some t →
  oracle i (tw_text t) = Parsed (JOther true) →
  (run oracle db).2 = Aborted "AttributeError"
  ∧ ∀ j t', (i ≤ j)%nat → fetch_unprocessed_tweets db !! j = Some t' →
            ¬ has_report (tw_id t') (run oracle db).1.
Proof.
  intros Hnd Hi Ho. unfold run.
  destruct (process_tweets_abort oracle (fetch_unprocessed_tweets db) 0%nat db i t Hi Ho)
    as [Hend Hrep].
  split; [done|]. intros j t' Hij Hj [Hhas|(j' & t'' & Hj' & Hjt & Hid)]%Hrep.
  - apply list_elem_of_lookup_2, fetch_unprocessed_spec in Hj as [_ Hno]. done.
  - assert (j' = j); [|lia].
    eapply NoDup_lookup; [exact (fetch_unprocessed_NoDup db Hnd)| |].
    + rewrite list_lookup_fmap, Hjt. simpl. by rewrite Hid.
    + by rewrite list_lookup_fmap, Hj.
Qed.

Lemma extractor_batch_aborts_witness :
  (run (λ _ _, Parsed (JOther true)) Scenario.one_tweet).2 = Aborted "AttributeError".
Proof.
  refine (proj1 (extractor_batch_aborts (λ _ _, Parsed (JOther true)) Scenario.one_tweet
                   0%nat _ (NoDup_singleton _) eq_refl eq_refl)).
Defined.

End ExtractorMore.

(** ** Clustering stage: earlier work, completeness, member lists, keys *)

Module ClusteringMore.
Import Grouper GroupingFacts ClusteringFacts.

Lemma set_ir_status_same r : set_ir_status (ir_status r) r = r.
Proof. by destruct r. Qed.

(** What a run does, in the two cases of the embedding call. *)
Lemma run_effect {E} (near : E → E → bool) svc summ c :
  ∃ labels todo,
    let incidents := fetch_unprocessed_incidents (pending c) in
    pending (run near svc summ c) = pending (group_labels summ incidents labels todo (commit c))
    ∧ length labels = length incidents
    ∧ (∀ l, l ∈ todo ↔ l ∈ labels ∧ todo ≠ [])
    ∧ NoDup todo
    ∧ (∀ e, svc = Some e →
         labels = cluster near (e <$> (text_for_embedding <$> incidents))
         ∧ todo = unique_labels labels).
Proof.
  destruct svc as [e|].
  - exists (cluster near (e <$> (text_for_embedding <$> fetch_unprocessed_incidents (pending c)))),
      (unique_labels
         (cluster near (e <$> (text_for_embedding <$> fetch_unprocessed_incidents (pending c))))).
    simpl. split_and!.
    + apply run_Some.
    + by rewrite cluster_length, !length_fmap.
    + intros l. rewrite unique_labels_spec. split; [|by intros [? _]].
      intros Hl. split; [done|]. intros Hnil.
      apply unique_labels_spec in Hl. rewrite Hnil in Hl. by apply elem_of_nil in Hl.
    + apply unique_labels_NoDup.
    + by intros e' [= <-].
  - exists (replicate (length (fetch_unprocessed_incidents (pending c))) (-1)), [].
    simpl. split_and!.
    + apply run_None.
    + by rewrite length_replicate.
    + intros l. split; [by intros ?%elem_of_nil | by intros [_ ?]].
    + apply NoDup_nil_2.
    + done.
Qed.

(** X10: a clustering run leaves every Event it finds in place, writes to
    no table but [final_report] and [incident_reports], and keeps every
    column of every incident report but the status, which stays or
    becomes ["grouped"]. *)
Theorem clustering_leaves_earlier_work {E} (near : E → E → bool) svc summ c :
  final_report (pending c) `prefix_of` final_report (pending (run near svc summ c))
  ∧ tweets (pending (run near svc summ c)) = tweets (pending c)
  ∧ actionable_tweets (pending (run near svc summ c)) = actionable_tweets (pending c)
  ∧ geocoded_tweets (pending (run near svc summ c)) = geocoded_tweets (pending c)
  ∧ length (incident_reports (pending (run near svc summ c)))
    = length (incident_reports (pending c))
  ∧ ∀ k r, incident_reports (pending c) !! k = Some r →
      ∃ s, incident_reports (pending (run near svc summ c)) !! k = Some (set_ir_status s r)
           ∧ (s = ir_status r ∨ s = "grouped").
Proof.
  destruct (run_effect near svc summ c) as (labels & todo & -> & _).
  destruct (group_labels_spec summ (fetch_unprocessed_incidents (pending c)) labels todo
              (commit c)) as (Hrep & Htw & Hat & Hgt & events & Hfin & _).
  simpl pending in *. split_and!; try done.
  - rewrite Hfin. by apply prefix_app_r.
  - rewrite Hrep. unfold mark_reports. by rewrite length_fmap.
  - intros k r Hk. rewrite Hrep, mark_reports_lookup, Hk. simpl. case_decide.
    + exists "grouped". split; [done | by right].
    + exists (ir_status r). rewrite set_ir_status_same. split; [done | by left].
Qed.

(** X11: a selected report whose label is not −1 is a member of one of the
    Events the run appends, its row ends with status ["grouped"], and the
    next run does not select it. *)
Theorem clustered_report_is_grouped {E} (near : E → E → bool) e summ c i r l :
  let incidents := fetch_unprocessed_incidents (pending c) in
  let labels := cluster near (e <$> (text_for_embedding <$> incidents)) in
  let db' := pending (run near (Some e) summ c) in
  incidents !! i = Some r → labels !! i = Some l → l ≠ -1 →
  (∃ events ev, final_report db' = final_report (pending c) ++ events
                ∧ ev ∈ events ∧ ir_id r ∈ fr_source_incident_ids ev)
  ∧ set_ir_status "grouped" r ∈ incident_reports db'
  ∧ r ∉ fetch_unprocessed_incidents db'.
Proof.
  intros incidents labels db' Hi Hl Hne. unfold db'. rewrite run_Some.
  fold incidents. fold labels.
  destruct (group_labels_spec summ incidents labels (unique_labels labels) (commit c))
    as (Hrep & _ & _ & _ & events & Hfin & Hev).
  simpl pending in *.
  assert (Hlab : l ∈ filter (λ l, l ≠ -1) (unique_labels labels)).
  { apply list_elem_of_filter. split; [done|]. apply unique_labels_spec.
    by eapply list_elem_of_lookup_2. }
  assert (Hid : ir_id r ∈ cluster_ids incidents labels l).
  { apply cluster_ids_spec. by exists i, r. }
  assert (HG : ir_id r ∈ grouped_ids incidents labels (unique_labels labels)).
  { apply grouped_ids_spec. exists l. apply list_elem_of_filter in Hlab as [? ?]. done. }
  split_and!.
  - apply list_elem_of_lookup in Hlab as [k Hk].
    destruct (Forall2_lookup_r _ _ _ _ _ Hev Hk) as (ev & Hevk & Hids & _).
    exists events, ev. split_and!; [done| by eapply list_elem_of_lookup_2 |].
    by rewrite Hids.
  - rewrite Hrep. apply mark_reports_elem. exists r. split.
    + apply list_elem_of_lookup_2 in Hi. by apply fetch_incidents_spec in Hi as [? _].
    + by rewrite decide_True.
  - intros [Hin Hst]%fetch_incidents_spec. rewrite Hrep in Hin.
    apply mark_reports_elem in Hin as (r0 & Hr0 & Heq).
    destruct (decide (ir_id r0 ∈ grouped_ids incidents labels (unique_labels labels)))
      as [Hin0|Hnin0].
    + rewrite Heq in Hst. done.
    + subst r0. done.
Qed.

Lemma clustered_report_is_grouped_witness :
  set_ir_status "grouped"
    (Scenario.report 1 "Gandhi Nagar" "flooding" "Water entering houses in Gandhi Nagar")
  ∈ incident_reports
      (pending (run cosine_near Scenario.embedder Scenario.failing_summarizer
                  (connect Scenario.store))).
Proof.
  refine (proj1 (proj2 (clustered_report_is_grouped cosine_near Scenario.embedding
            Scenario.failing_summarizer (connect Scenario.store) 0%nat _ 0 _ _ _))).
  - reflexivity.
  - vm_compute. reflexivity.
  - done.
Defined.

(** Reading a list at increasing positions gives a sublist of it. *)
Lemma omap_lookup_sublist {A} (l : list A) (P : nat → Prop) `{!∀ i, Decision (P i)} n :
  omap (λ i, l !! i) (filter P (seq 0 n)) `sublist_of` take n l.
Proof.
  induction n as [|n IH]; [by rewrite take_0|].
  rewrite seq_S, filter_app, omap_app. simpl.
  destruct (l !! n) as [x|] eqn:Hn.
  - rewrite (take_S_r _ _ _ Hn). apply sublist_app; [done|].
    rewrite filter_cons, filter_nil. case_decide; simpl.
    + by rewrite Hn.
    + apply sublist_nil_l.
  - rewrite (take_ge l (S n)) by (apply lookup_ge_None in Hn; lia).
    rewrite (take_ge l n) in IH by (apply lookup_ge_None in Hn; lia).
    rewrite filter_cons, filter_nil. case_decide; simpl; rewrite ?Hn, app_nil_r; done.
Qed.

(** X12: the member ids an Event stores are the ids of its reports in the
    order the run selected them: each appended Event lists a sublist of the
    selected reports' ids, and counts them. *)
Theorem event_members_in_selection_order {E} (near : E → E → bool) svc summ c :
  ∃ events,
    final_report (pending (run near svc summ c)) = final_report (pending c) ++ events
    ∧ ∀ ev, ev ∈ events →
        fr_source_incident_ids ev
          `sublist_of` (ir_id <$> fetch_unprocessed_incidents (pending c))
        ∧ fr_number_of_reports ev = Z.of_nat (length (fr_source_incident_ids ev)).
Proof.
  destruct (run_effect near svc summ c) as (labels & todo & -> & _).
  destruct (group_labels_spec summ (fetch_unprocessed_incidents (pending c)) labels todo
              (commit c)) as (_ & _ & _ & _ & events & Hfin & Hev).
  exists events. split; [done|]. intros ev Hin.
  apply list_elem_of_lookup in Hin as [k Hk].
  destruct (Forall2_lookup_l _ _ _ _ _ Hev Hk) as (label & _ & Hids & Hcnt).
  rewrite Hids. split; [|done].
  unfold cluster_ids, cluster_incidents, cluster_indices. apply fmap_sublist.
  etrans; [apply omap_lookup_sublist|]. apply sublist_take.
Qed.

(** The loop numbers the Events it appends from the sequence. *)
Lemma group_labels_keys summ incidents labels todo : ∀ c,
  event_keys_ok (pending c) →
  event_keys_ok (pending (group_labels summ incidents labels todo c))
  ∧ incident_reports_seq (pending (group_labels summ incidents labels todo c))
    = incident_reports_seq (pending c).
Proof.
  induction todo as [|label rest IH]; intros c Hok; simpl; [done|].
  case_decide; [by apply IH|].
  destruct (IH (persist_cluster summ incidents labels label c)) as [IH1 IH2].
  - rewrite GrouperFacts.pending_persist_cluster. destruct Hok as [Hnd Hseq].
    unfold event_keys_ok. simpl. rewrite fmap_app. simpl. split.
    + apply NoDup_app. split_and!; [done| |apply NoDup_singleton].
      intros id Hin ->%list_elem_of_singleton.
      apply list_elem_of_fmap in Hin as (ev & Hev & Hin). specialize (Hseq ev Hin). lia.
    + intros ev [Hev| ->%list_elem_of_singleton]%elem_of_app; simpl; [|lia].
      specialize (Hseq ev Hev). lia.
  - split; [done|]. rewrite IH2. by rewrite GrouperFacts.pending_persist_cluster.
Qed.

(** X13: a clustering run keeps the Event ids unique and below their
    sequence, and keeps the key discipline of [incident_reports]. *)
Theorem clustering_keeps_keys {E} (near : E → E → bool) svc summ c :
  event_keys_ok (pending c) → report_keys_ok (pending c) →
  event_keys_ok (pending (run near svc summ c))
  ∧ report_keys_ok (pending (run near svc summ c)).
Proof.
  intros Hev (Hid & Hseq & Horig).
  destruct (run_effect near svc summ c) as (labels & todo & -> & _).
  destruct (group_labels_keys summ (fetch_unprocessed_incidents (pending c)) labels todo
              (commit c) Hev) as [Hk Hs].
  destruct (group_labels_spec summ (fetch_unprocessed_incidents (pending c)) labels todo
              (commit c)) as (Hrep & _).
  split; [done|]. unfold report_keys_ok. rewrite Hrep, Hs, mark_reports_ids.
  simpl pending. split_and!; [done| |].
  - intros r (r0 & Hr0 & ->)%mark_reports_elem.
    specialize (Hseq r0 Hr0). by case_decide.
  - replace (ir_original_tweet_id <$> mark_reports
               (grouped_ids (fetch_unprocessed_incidents (pending c)) labels todo)
               (incident_reports (pending c)))
      with (ir_original_tweet_id <$> incident_reports (pending c)); [done|].
    unfold mark_reports. rewrite <- list_fmap_compose. apply list_fmap_ext.
    intros j r _. simpl. by case_decide.
Qed.

Lemma clustering_keeps_keys_witness :
  event_keys_ok (pending (run cosine_near Scenario.embedder Scenario.failing_summarizer
                            (connect Scenario.store))).
Proof.
  apply clustering_keeps_keys.
  - split; [apply NoDup_nil_2|]. intros ev Hev. by apply elem_of_nil in Hev.
  - split_and!.
    + simpl. ClusteringClaims.distinct_ids.
    + apply Forall_forall. repeat constructor.
    + simpl. ClusteringClaims.distinct_ids.
Defined.

End ClusteringMore.

(** ** Clustering stage: what [min_samples = 2] means for the Events *)

Module ClusterSizes.
Import Grouper GroupingFacts ClusteringFacts Dbscan DbscanSpec DbscanGraph DbscanLoops.

Lemma omap_lookup_length {A} (l : list A) (idx : list nat) :
  (∀ i, i ∈ idx → (i < length l)%nat) → length (omap (λ i, l !! i) idx) = length idx.
Proof.
  induction idx as [|i idx IH]; intros Hin; [done|]. simpl.
  destruct (lookup_lt_is_Some_2 l i) as [x Hx]; [apply Hin; left|].
  rewrite Hx. simpl. f_equal. apply IH. intros j Hj. apply Hin. by right.
Qed.

Section sizes.
Context {E : Type} (near : E → E → bool).
Hypothesis near_refl : ∀ x, near x x = true.
Hypothesis near_sym : ∀ x y, near x y = near y x.

(** Every label the clustering gives is carried by two samples at least. *)
Lemma label_has_two (xs : list E) i l :
  cluster near xs !! i = Some l → l ≠ -1 →
  ∃ j, j ≠ i ∧ cluster near xs !! j = Some l.
Proof.
  unfold cluster. intros Hi Hl.
  destruct (fit_inv near near_refl near_sym xs)
    as [c [Hlen Hcore Hclosed Hlinked Hrange Hdone]].
  pose proof (Hcore i l Hi Hl) as Hc.
  apply (core_iff_neighbor near near_refl near_sym) in Hc as (j & Hadj & Hne).
  exists j. split; [done|]. by eapply Hclosed.
Qed.

Lemma cluster_ids_two incidents (xs : list E) l :
  length xs = length incidents →
  l ∈ cluster near xs → l ≠ -1 →
  (2 ≤ length (cluster_ids incidents (cluster near xs) l))%nat.
Proof.
  intros Hlen [i Hi]%list_elem_of_lookup Hl.
  destruct (label_has_two xs i l Hi Hl) as (j & Hne & Hj).
  unfold cluster_ids, cluster_incidents. rewrite length_fmap, omap_lookup_length.
  - apply (two_elements _ i j); [apply NoDup_filter, NoDup_seq| | |done];
      apply list_elem_of_filter; (split; [done|]); apply elem_of_seq;
      [apply lookup_lt_Some in Hi | apply lookup_lt_Some in Hj]; lia.
  - intros k [_ Hk]%list_elem_of_filter. apply elem_of_seq in Hk.
    rewrite cluster_length in Hk. lia.
Qed.

End sizes.

(** X14: for a symmetric ε-test under which every vector is within ε of
    itself, every Event a clustering run appends has two member reports at
    least. *)
Theorem events_have_two_members {E} (near : E → E → bool) svc summ c :
  (∀ x, near x x = true) → (∀ x y, near x y = near y x) →
  ∃ events,
    final_report (pending (run near svc summ c)) = final_report (pending c) ++ events
    ∧ ∀ ev, ev ∈ events →
        2 ≤ fr_number_of_reports ev
        ∧ (2 ≤ length (fr_source_incident_ids ev))%nat.
Proof.
  intros Hrefl Hsym. destruct svc as [e|].
  - rewrite run_Some.
    set (incidents := fetch_unprocessed_incidents (pending c)).
    set (xs := e <$> (text_for_embedding <$> incidents)).
    destruct (group_labels_spec summ incidents (cluster near xs)
                (unique_labels (cluster near xs)) (commit c))
      as (_ & _ & _ & _ & events & Hfin & Hev).
    exists events. split; [done|]. intros ev Hin.
    apply list_elem_of_lookup in Hin as [k Hk].
    destruct (Forall2_lookup_l _ _ _ _ _ Hev Hk) as (l & Hl & Hids & Hcnt).
    apply list_elem_of_lookup_2, list_elem_of_filter in Hl as [Hne Hl].
    rewrite unique_labels_spec in Hl.
    pose proof (cluster_ids_two near Hrefl Hsym incidents xs l) as Htwo.
    rewrite Hcnt, Hids. unfold xs in Htwo at 1. rewrite !length_fmap in Htwo.
    specialize (Htwo eq_refl Hl Hne). split; lia.
  - rewrite run_None. exists []. split; [by rewrite app_nil_r|].
    intros ev Hev. by apply elem_of_nil in Hev.
Qed.

Lemma events_have_two_members_witness :
  ∃ events,
    final_report (pending (run cosine_near Scenario.embedder Scenario.failing_summarizer
                             (connect Scenario.store))) = [] ++ events
    ∧ ∀ ev, ev ∈ events →
        2 ≤ fr_number_of_reports ev ∧ (2 ≤ length (fr_source_incident_ids ev))%nat.
Proof.
  apply (events_have_two_members cosine_near Scenario.embedder Scenario.failing_summarizer
           (connect Scenario.store)
           PipelineClaims.cosine_near_refl PipelineClaims.cosine_near_sym).
Defined.

(** X15: under the same two assumptions a vector is labeled noise exactly
    when no other vector of the input is within ε of it. *)
Theorem noise_iff_isolated {E} (near : E → E → bool) (xs : list E) i x :
  (∀ x, near x x = true) → (∀ x y, near x y = near y x) →
  xs !! i = Some x →
  cluster near xs !! i = Some (-1)
  ↔ ∀ j y, xs !! j = Some y → near x y = true → j = i.
Proof.
  intros Hrefl Hsym Hx. unfold cluster.
  change (fit near 2 xs !! i = Some (-1)) with (noise near 2 xs i).
  rewrite (noise_iff near Hrefl Hsym), (core_iff_neighbor near Hrefl Hsym). split.
  - intros [_ Hno] j y Hy Hn. destruct (decide (j = i)) as [|Hne]; [done|].
    exfalso. apply Hno. exists j. split; [|done]. by exists x, y.
  - intros Hiso. split; [by eapply lookup_lt_Some|].
    intros (j & (x' & y & Hx' & Hy & Hn) & Hne). apply Hne. symmetry.
    apply (Hiso j y Hy). congruence.
Qed.

Lemma noise_iff_isolated_witness :
  cluster cosine_near [[10; 1]; [9; 2]; [0; 1]] !! 2%nat = Some (-1)
  ↔ ∀ j y, [[10; 1]; [9; 2]; [0; 1]] !! j = Some y → cosine_near [0; 1] y = true → j = 2%nat.
Proof.
  apply (noise_iff_isolated cosine_near [[10; 1]; [9; 2]; [0; 1]] 2%nat [0; 1]
           PipelineClaims.cosine_near_refl PipelineClaims.cosine_near_sym eq_refl).
Defined.

End ClusterSizes.

(** ** Geocoding stage: the rows it writes and the rows it leaves *)

Module GeocoderMore.
Import Geocoder GeocoderAgain.

Lemma insert_geocoded_rows report lat lon db :
  ∃ new,
    (geocoded_tweets (insert_geocoded_report report lat lon db) = geocoded_tweets db ++ new)
    ∧ (new = []
       ∨ ((fr_id report ∉ gt_source_report_id <$> geocoded_tweets db)
          ∧ new = [{| gt_id := geocoded_tweets_seq db;
                      gt_source_report_id := fr_id report;
                      gt_latitude := Some lat;
                      gt_longitude := Some lon;
                      gt_event_summary := fr_event_summary report;
                      gt_event_location := fr_event_location report;
                      gt_number_of_reports := fr_number_of_reports report;
                      gt_status := "reported" |}])).
Proof.
  unfold insert_geocoded_report; simpl. case_decide as H.
  - exists []. split; [by rewrite app_nil_r | by left].
  - eexists. split; [reflexivity|]. by right.
Qed.

Lemma insert_geocoded_keys report lat lon db :
  geocoded_keys_ok db → geocoded_keys_ok (insert_geocoded_report report lat lon db).
Proof.
  intros (Hid & Hseq & Hsrc).
  destruct (insert_geocoded_rows report lat lon db) as (new & Hrows & [->|[Hfresh ->]]).
  - rewrite app_nil_r in Hrows. unfold geocoded_keys_ok. rewrite Hrows.
    split_and!; [done| |done]. intros g Hg. specialize (Hseq g Hg). simpl. lia.
  - unfold geocoded_keys_ok. rewrite Hrows, !fmap_app. simpl. split_and!.
    + apply NoDup_app. split_and!; [done| |apply NoDup_singleton].
      intros id Hin ->%list_elem_of_singleton.
      apply list_elem_of_fmap in Hin as (g & Hg & Hin). specialize (Hseq g Hin). lia.
    + intros g [Hg| ->%list_elem_of_singleton]%elem_of_app; simpl; [|lia].
      specialize (Hseq g Hg). lia.
    + apply NoDup_app. split_and!; [done| |apply NoDup_singleton].
      by intros id Hin ->%list_elem_of_singleton.
Qed.

Lemma geocode_reports_keys oracle items : ∀ k db,
  geocoded_keys_ok db →
  geocoded_keys_ok (geocode_reports oracle k items db).1
  ∧ tweets (geocode_reports oracle k items db).1 = tweets db
  ∧ actionable_tweets (geocode_reports oracle k items db).1 = actionable_tweets db
  ∧ incident_reports (geocode_reports oracle k items db).1 = incident_reports db
  ∧ final_report (geocode_reports oracle k items db).1 = final_report db.
Proof.
  induction items as [|r rest IH]; intros k db Hok; simpl; [done|].
  destruct (oracle k (search_query (fr_event_location r))) as [lat lon| |]; simpl.
  - destruct (IH (S k) (insert_geocoded_report r lat lon db)
                (insert_geocoded_keys r lat lon db Hok)) as (I0 & I1 & I2 & I3 & I4).
    done.
  - by apply IH.
  - done.
Qed.

Lemma geocode_reports_new oracle items : ∀ k db,
  ∃ new,
    (geocoded_tweets (geocode_reports oracle k items db).1 = geocoded_tweets db ++ new)
    ∧ ∀ g, g ∈ new →
        gt_status g = "reported"
        ∧ ∃ j report lat lon,
            items !! j = Some report
            ∧ oracle (k + j)%nat (search_query (fr_event_location report)) = GeoFound lat lon
            ∧ gt_source_report_id g = fr_id report
            ∧ gt_latitude g = Some lat ∧ gt_longitude g = Some lon
            ∧ gt_event_summary g = fr_event_summary report
            ∧ gt_event_location g = fr_event_location report
            ∧ gt_number_of_reports g = fr_number_of_reports report.
Proof.
  induction items as [|r rest IH]; intros k db; simpl.
  - exists []. split; [by rewrite app_nil_r|]. intros g Hg. by apply elem_of_nil in Hg.
  - destruct (oracle k (search_query (fr_event_location r))) as [lat lon| |] eqn:Ho; simpl.
    + destruct (IH (S k) (insert_geocoded_report r lat lon db)) as (new & Hrows & Hnew).
      destruct (insert_geocoded_rows r lat lon db) as (row & Hins & Hrow).
      exists (row ++ new). rewrite Hrows, Hins, app_assoc. split; [done|].
      intros g [Hg|Hg]%elem_of_app.
      * destruct Hrow as [->|[_ ->]]; [by apply elem_of_nil in Hg|].
        apply list_elem_of_singleton in Hg as ->. split; [done|].
        exists 0%nat, r, lat, lon. rewrite Nat.add_0_r. done.
      * destruct (Hnew g Hg) as (Hst & j & fr & la & lo & Hj & Hoj & Hrest).
        split; [done|]. exists (S j), fr, la, lo.
        by replace (k + S j)%nat with (S k + j)%nat by lia.
    + destruct (IH (S k) db) as (new & Hrows & Hnew). exists new. split; [done|].
      intros g Hg. destruct (Hnew g Hg) as (Hst & j & fr & la & lo & Hj & Hoj & Hrest).
      split; [done|]. exists (S j), fr, la, lo.
      by replace (k + S j)%nat with (S k + j)%nat by lia.
    + exists []. split; [by rewrite app_nil_r|]. intros g Hg. by apply elem_of_nil in Hg.
Qed.

(** X16: every row a geocoder run appends belongs to a selected Event the
    geocoder found: it has the Event's id, summary, location and count, the
    coordinates found, and status ["reported"]; so the dashboard's active
    set lists it. *)
Theorem geocoder_rows_provenance oracle db :
  ∃ new,
    (geocoded_tweets (run oracle db).1 = geocoded_tweets db ++ new)
    ∧ ∀ g, g ∈ new →
        g ∈ Api.get_incidents true (run oracle db).1
        ∧ gt_status g = "reported"
        ∧ ∃ j report lat lon,
            fetch_unprocessed_reports db !! j = Some report
            ∧ oracle j (search_query (fr_event_location report)) = GeoFound lat lon
            ∧ gt_source_report_id g = fr_id report
            ∧ gt_latitude g = Some lat ∧ gt_longitude g = Some lon
            ∧ gt_event_summary g = fr_event_summary report
            ∧ gt_event_location g = fr_event_location report
            ∧ gt_number_of_reports g = fr_number_of_reports report.
Proof.
  unfold run.
  destruct (geocode_reports_new oracle (fetch_unprocessed_reports db) 0%nat db)
    as (new & Hrows & Hnew).
  exists new. split; [done|]. intros g Hg.
  destruct (Hnew g Hg) as (Hst & j & fr & lat & lon & Hj & Ho & Hsrc & Hlat & Hlon & Hrest).
  split; [|split; [done|]; by exists j, fr, lat, lon].
  unfold Api.get_incidents. apply list_elem_of_filter. split.
  - rewrite Hlat, Hlon, Hst. done.
  - rewrite Hrows. apply elem_of_app. by right.
Qed.

(** X17: a geocoder run keeps the key discipline of [geocoded_tweets]
    (ids unique and below the sequence, one row per Event id), keeps the
    rows it found as they are, their dispatch status included, and writes
    to no other table. *)
Theorem geocoder_keeps_rows oracle db :
  geocoded_keys_ok db →
  geocoded_keys_ok (run oracle db).1
  ∧ geocoded_tweets db `prefix_of` geocoded_tweets (run oracle db).1
  ∧ tweets (run oracle db).1 = tweets db
  ∧ actionable_tweets (run oracle db).1 = actionable_tweets db
  ∧ incident_reports (run oracle db).1 = incident_reports db
  ∧ final_report (run oracle db).1 = final_report db.
Proof.
  intros Hok. unfold run.
  destruct (geocode_reports_keys oracle (fetch_unprocessed_reports db) 0%nat db Hok)
    as (H0 & H1 & H2 & H3 & H4).
  destruct (geocode_reports_new oracle (fetch_unprocessed_reports db) 0%nat db)
    as (new & Hrows & _).
  split_and!; try done. rewrite Hrows. by apply prefix_app_r.
Qed.

Lemma geocoder_keeps_rows_witness :
  geocoded_keys_ok GeoScenario.store
  ∧ geocoded_keys_ok (run GeoScenario.found GeoScenario.store).1
  ∧ geocoded_tweets GeoScenario.store
    `prefix_of` geocoded_tweets (run GeoScenario.found GeoScenario.store).1.
Proof.
  assert (Hok : geocoded_keys_ok GeoScenario.store).
  { split_and!.
    - apply NoDup_singleton.
    - intros g ->%list_elem_of_singleton. reflexivity.
    - apply NoDup_singleton. }
  destruct (geocoder_keeps_rows GeoScenario.found GeoScenario.store Hok) as (H1 & H2 & _).
  done.
Defined.

(** X18: an Event the geocoder did not find gets no row and is selected
    again by the next run. *)
Theorem geocoder_not_found_retried oracle db i report :
  NoDup (fr_id <$> final_report db) →
  fetch_unprocessed_reports db !! i = Some report →
  oracle i (search_query (fr_event_location report)) = GeoNone →
  (fr_id report ∉ gt_source_report_id <$> geocoded_tweets (run oracle db).1)
  ∧ report ∈ fetch_unprocessed_reports (run oracle db).1.
Proof.
  intros Hnd Hi Ho.
  assert (Hnd' : NoDup (fr_id <$> fetch_unprocessed_reports db)).
  { eapply sublist_NoDup; [exact Hnd|]. apply fmap_sublist, sublist_filter. }
  pose proof (list_elem_of_lookup_2 _ _ _ Hi) as Hin.
  unfold fetch_unprocessed_reports in Hin. apply list_elem_of_filter in Hin as [Hfresh Hin].
  assert (Hno : fr_id report ∉ gt_source_report_id <$> geocoded_tweets (run oracle db).1).
  { unfold run.
    destruct (geocode_reports_new oracle (fetch_unprocessed_reports db) 0%nat db)
      as (new & -> & Hnew).
    rewrite fmap_app. intros [?|Hg]%elem_of_app; [done|].
    apply list_elem_of_fmap in Hg as (g & Hid & Hg).
    destruct (Hnew g Hg) as (_ & j & fr & lat & lon & Hj & Hoj & Hsrc & _).
    assert (j = i) as ->.
    { eapply NoDup_lookup; [exact Hnd'| |].
      - rewrite list_lookup_fmap, Hj. simpl. reflexivity.
      - rewrite list_lookup_fmap, Hi. simpl. congruence. }
    assert (fr = report) as -> by congruence. simpl in Hoj. congruence. }
  split; [done|]. unfold fetch_unprocessed_reports at 1. apply list_elem_of_filter.
  split; [done|]. unfold run.
  by destruct (geocode_reports_inv oracle (fetch_unprocessed_reports db) 0%nat db) as [-> _].
Qed.

Lemma geocoder_not_found_retried_witness :
  GeoScenario.event 2 "Katpadi Road"
  ∈ fetch_unprocessed_reports (run GeoScenario.not_found GeoScenario.store).1.
Proof.
  refine (proj2 (geocoder_not_found_retried GeoScenario.not_found GeoScenario.store 0
                   (GeoScenario.event 2 "Katpadi Road") _ _ _)).
  - apply NoDup_cons. split; [|apply NoDup_singleton].
    intros H%list_elem_of_singleton. discriminate H.
  - reflexivity.
  - reflexivity.
Defined.

End GeocoderMore.

(** ** SMS intake: what a load adds *)

Module SmsLoaderFacts.
Import SmsLoader.

Lemma sql_insert_sms_sids v db sid :
  sid ∈ sr_message_sid <$> sms_reports (sql_insert_sms v db)
  ↔ sid = sv_sid v ∨ sid ∈ sr_message_sid <$> sms_reports db.
Proof.
  unfold sql_insert_sms; simpl. case_decide as H.
  - split; [by right | intros [->|?]; done].
  - rewrite fmap_app, elem_of_app. simpl. rewrite list_elem_of_singleton. tauto.
Qed.

Lemma sql_insert_sms_present v db :
  sv_sid v ∈ sr_message_sid <$> sms_reports db →
  sms_reports (sql_insert_sms v db) = sms_reports db.
Proof. intros H. unfold sql_insert_sms; simpl. by rewrite decide_True. Qed.

Lemma sql_insert_sms_keys v db : sms_keys_ok db → sms_keys_ok (sql_insert_sms v db).
Proof.
  intros (Hid & Hseq & Hsid). unfold sms_keys_ok, sql_insert_sms; simpl.
  case_decide as Hin.
  - split_and!; [done| |done]. intros r Hr. specialize (Hseq r Hr). lia.
  - rewrite !fmap_app. simpl. split_and!.
    + apply NoDup_app. split_and!; [done| |apply NoDup_singleton].
      intros id Hi ->%list_elem_of_singleton.
      apply list_elem_of_fmap in Hi as (r & Hr & Hi). specialize (Hseq r Hi). lia.
    + intros r [Hr| ->%list_elem_of_singleton]%elem_of_app; simpl; [|lia].
      specialize (Hseq r Hr). lia.
    + apply NoDup_app. split_and!; [done| |apply NoDup_singleton].
      by intros sid Hi ->%list_elem_of_singleton.
Qed.

Lemma execute_batch_cons v rows db :
  execute_batch (v :: rows) db = execute_batch rows (sql_insert_sms v db).
Proof. reflexivity. Qed.

Lemma execute_batch_keys rows : ∀ db, sms_keys_ok db → sms_keys_ok (execute_batch rows db).
Proof.
  induction rows as [|v rows IH]; intros db Hok; [done|].
  rewrite execute_batch_cons. by apply IH, sql_insert_sms_keys.
Qed.

Lemma execute_batch_sids rows : ∀ db sid,
  sid ∈ sr_message_sid <$> sms_reports (execute_batch rows db)
  ↔ sid ∈ sv_sid <$> rows ∨ sid ∈ sr_message_sid <$> sms_reports db.
Proof.
  induction rows as [|v rows IH]; intros db sid.
  - simpl. rewrite elem_of_nil. tauto.
  - rewrite execute_batch_cons, IH, sql_insert_sms_sids, fmap_cons, elem_of_cons. tauto.
Qed.

Lemma execute_batch_present rows : ∀ db,
  (∀ v, v ∈ rows → sv_sid v ∈ sr_message_sid <$> sms_reports db) →
  sms_reports (execute_batch rows db) = sms_reports db.
Proof.
  induction rows as [|v rows IH]; intros db Hall; [done|].
  rewrite execute_batch_cons, IH.
  - apply sql_insert_sms_present, Hall. by left.
  - intros v' Hv'. apply sql_insert_sms_sids. right. apply Hall. by right.
Qed.

Lemma execute_batch_new rows : ∀ db,
  ∃ new,
    sms_reports (execute_batch rows db) = sms_reports db ++ new
    ∧ ∀ r, r ∈ new →
        ∃ j v, rows !! j = Some v
               ∧ sr_sender_number r = sv_from v ∧ sr_recipient_number r = sv_to v
               ∧ sr_message_body r = sv_body v ∧ sr_message_sid r = sv_sid v
               ∧ (sv_sid v ∉ sr_message_sid <$> sms_reports db)
               ∧ ∀ j' v', (j' < j)%nat → rows !! j' = Some v' → sv_sid v' ≠ sv_sid v.
Proof.
  induction rows as [|v rows IH]; intros db.
  - exists []. split; [by rewrite app_nil_r|]. intros r Hr. by apply elem_of_nil in Hr.
  - rewrite execute_batch_cons.
    destruct (IH (sql_insert_sms v db)) as (new & Hrows & Hnew).
    destruct (decide (sv_sid v ∈ sr_message_sid <$> sms_reports db)) as [Hin|Hin].
    + exists new. rewrite Hrows, sql_insert_sms_present by done. split; [done|].
      intros r Hr. destruct (Hnew r Hr) as (j & v1 & Hj & H1 & H2 & H3 & H4 & Hfresh & Hfirst).
      rewrite sql_insert_sms_sids in Hfresh.
      exists (S j), v1. split_and!; try done; [tauto|].
      intros [|j'] v' Hlt Hj'; simpl in Hj'.
      * injection Hj' as <-. intros Heq. apply Hfresh. by left.
      * apply (Hfirst j'); [lia|done].
    + eexists (_ :: new). split.
      { rewrite Hrows. unfold sql_insert_sms at 1; simpl. rewrite decide_False by done.
        rewrite <- app_assoc. reflexivity. }
      intros r [->|Hr]%elem_of_cons.
      * exists 0%nat, v. simpl. split_and!; try done. intros j' v' Hlt. lia.
      * destruct (Hnew r Hr) as (j & v1 & Hj & H1 & H2 & H3 & H4 & Hfresh & Hfirst).
        rewrite sql_insert_sms_sids in Hfresh.
        exists (S j), v1. split_and!; try done; [tauto|].
        intros [|j'] v' Hlt Hj'; simpl in Hj'.
        -- injection Hj' as <-. intros Heq. apply Hfresh. by left.
        -- apply (Hfirst j'); [lia|done].
Qed.

Lemma sms_tuple_Some msg v :
  sms_tuple msg = Some v ↔
  msg !! "from" = Some (sv_from v) ∧ msg !! "to" = Some (sv_to v)
  ∧ msg !! "body" = Some (sv_body v) ∧ msg !! "messageSid" = Some (sv_sid v).
Proof.
  unfold sms_tuple. split.
  - destruct (msg !! "from") as [f|]; [|done]. destruct (msg !! "to") as [t|]; [|done].
    destruct (msg !! "body") as [b|]; [|done].
    destruct (msg !! "messageSid") as [s|]; [|done]. simpl. by intros [= <-].
  - intros (-> & -> & -> & ->). simpl. by destruct v.
Qed.

Lemma sms_tuple_None msg key :
  key ∈ ["from"; "to"; "body"; "messageSid"] → msg !! key = None → sms_tuple msg = None.
Proof.
  intros Hkey Hnone. unfold sms_tuple.
  repeat (apply elem_of_cons in Hkey as [->|Hkey]);
    [..|by apply elem_of_nil in Hkey]; rewrite ?Hnone; simpl; try done.
  - by destruct (msg !! "from").
  - destruct (msg !! "from"); [|done]. by destruct (msg !! "to").
  - destruct (msg !! "from"); [|done]. destruct (msg !! "to"); [|done].
    by destruct (msg !! "body").
Qed.

(** X19: loading the same file a second time adds no row, whatever the
    file holds and whatever the table held before. *)
Theorem loading_twice_adds_nothing file db :
  sms_reports (main file (main file db).1).1 = sms_reports (main file db).1.
Proof.
  destruct file as [[|msg rest]|]; try done. unfold main, insert_sms_data.
  destruct (mapM sms_tuple (msg :: rest)) as [rows|]; [|done]. simpl.
  apply execute_batch_present. intros v Hv. apply execute_batch_sids. left.
  apply list_elem_of_fmap. by exists v.
Qed.

(** X20: the loader keeps the key discipline of [sms_reports] (ids unique
    and below the sequence, one row per message sid) and keeps every row
    it found. *)
Theorem loader_keeps_keys file db :
  sms_keys_ok db →
  sms_keys_ok (main file db).1 ∧ sms_reports db `prefix_of` sms_reports (main file db).1.
Proof.
  intros Hok. destruct file as [[|msg rest]|]; try done. unfold main, insert_sms_data.
  destruct (mapM sms_tuple (msg :: rest)) as [rows|]; [|done]. simpl. split.
  - by apply execute_batch_keys.
  - destruct (execute_batch_new rows db) as (new & -> & _). by apply prefix_app_r.
Qed.

Lemma loader_keeps_keys_witness :
  sms_keys_ok (main (Some sample_file) empty_sms_db).1.
Proof.
  refine (proj1 (loader_keeps_keys (Some sample_file) empty_sms_db _)).
  split_and!; [apply NoDup_nil_2 | | apply NoDup_nil_2].
  intros r Hr. by apply elem_of_nil in Hr.
Defined.

(** X21: after a load that ran through, every message of the file has a
    row with its sid; each row the load added carries the four fields of a
    message whose sid was not in the table, and of the first message of
    the file with that sid. *)
Theorem loader_first_message_wins msgs db :
  (main (Some msgs) db).2 = Completed →
  ∃ new,
    sms_reports (main (Some msgs) db).1 = sms_reports db ++ new
    ∧ (∀ m, m ∈ msgs →
         ∃ r, r ∈ sms_reports (main (Some msgs) db).1
              ∧ m !! "messageSid" = Some (sr_message_sid r))
    ∧ ∀ r, r ∈ new →
        ∃ j m, msgs !! j = Some m
               ∧ m !! "from" = Some (sr_sender_number r)
               ∧ m !! "to" = Some (sr_recipient_number r)
               ∧ m !! "body" = Some (sr_message_body r)
               ∧ m !! "messageSid" = Some (sr_message_sid r)
               ∧ (sr_message_sid r ∉ sr_message_sid <$> sms_reports db)
               ∧ ∀ j' m', (j' < j)%nat → msgs !! j' = Some m' →
                          m' !! "messageSid" ≠ Some (sr_message_sid r).
Proof.
  destruct msgs as [|msg rest].
  { intros _. exists []. simpl. rewrite app_nil_r. split_and!; [done|..].
    - intros m Hm. by apply elem_of_nil in Hm.
    - intros r Hr. by apply elem_of_nil in Hr. }
  unfold main, insert_sms_data.
  destruct (mapM sms_tuple (msg :: rest)) as [rows|] eqn:Hrows; [|done]. simpl. intros _.
  apply mapM_Some in Hrows.
  destruct (execute_batch_new rows db) as (new & Hnew & Hprov).
  exists new. split_and!; [done|..].
  - intros m Hm. apply list_elem_of_lookup in Hm as [j Hj].
    destruct (Forall2_lookup_l _ _ _ _ _ Hrows Hj) as (v & Hv & Hmv).
    apply sms_tuple_Some in Hmv as (_ & _ & _ & Hsid).
    assert (Hin : sv_sid v ∈ sr_message_sid <$> sms_reports (execute_batch rows db)).
    { apply execute_batch_sids. left. apply list_elem_of_fmap. exists v. split; [done|].
      by eapply list_elem_of_lookup_2. }
    apply list_elem_of_fmap in Hin as (r & Hr & Hin). exists r. by rewrite <- Hr.
  - intros r Hr.
    destruct (Hprov r Hr) as (j & v & Hj & H1 & H2 & H3 & H4 & Hfresh & Hfirst).
    destruct (Forall2_lookup_r _ _ _ _ _ Hrows Hj) as (m & Hm & Hmv).
    apply sms_tuple_Some in Hmv as (Hf & Ht & Hb & Hs).
    exists j, m. rewrite H1, H2, H3, H4. split_and!; try done.
    intros j' m' Hlt Hm' Heq.
    destruct (Forall2_lookup_l _ _ _ _ _ Hrows Hm') as (v' & Hv' & Hmv').
    apply sms_tuple_Some in Hmv' as (_ & _ & _ & Hs').
    apply (Hfirst j' v' Hlt Hv'). congruence.
Qed.

Lemma loader_first_message_wins_witness :
  ∃ new,
    sms_reports (main (Some sample_file) empty_sms_db).1 = [] ++ new
    ∧ ∀ r, r ∈ new → sr_message_sid r = "SM1" → sr_sender_number r = "+911".
Proof.
  destruct (loader_first_message_wins sample_file empty_sms_db eq_refl)
    as (new & Hrows & _ & _).
  exists new. split; [exact Hrows|].
  vm_compute in Hrows. subst new.
  intros r Hr Hsid. repeat (apply elem_of_cons in Hr as [->|Hr]); try done.
  by apply elem_of_nil in Hr.
Defined.

(** X22: when one message of the file lacks one of the four keys, the
    load ends in a KeyError and inserts nothing, not even the complete
    messages that come before it. *)
Theorem loader_missing_key_inserts_nothing msgs db i m key :
  msgs !! i = Some m →
  key ∈ ["from"; "to"; "body"; "messageSid"] →
  m !! key = None →
  main (Some msgs) db = (db, Aborted "KeyError").
Proof.
  intros Hi Hkey Hnone. destruct msgs as [|msg rest]; [done|].
  unfold main, insert_sms_data.
  assert (mapM sms_tuple (msg :: rest) = None) as ->; [|done].
  apply mapM_None, Exists_exists. exists m. split.
  - by eapply list_elem_of_lookup_2.
  - by eapply sms_tuple_None.
Qed.

Lemma loader_missing_key_inserts_nothing_witness :
  main (Some broken_file) empty_sms_db = (empty_sms_db, Aborted "KeyError").
Proof.
  refine (loader_missing_key_inserts_nothing broken_file empty_sms_db 1 _ "messageSid" _ _ _).
  - reflexivity.
  - repeat constructor.
  - reflexivity.
Defined.

End SmsLoaderFacts.

(** ** SMS geocoding: which reports get a row *)

Module SmsGeocoderFacts.
Import Geocoder SmsGeocoder.

Lemma fetch_unprocessed_sms_spec db sms :
  sms ∈ fetch_unprocessed_sms db ↔
  ∃ psr, psr ∈ processed_sms_reports db
         ∧ ps_extracted_location psr = Some (extracted_location sms)
         ∧ extracted_location sms ≠ "Not specified"
         ∧ (ps_id psr ∉ gs_source_sms_id <$> geocoded_sms_data db)
         ∧ original_sms_id sms = ps_id psr
         ∧ extracted_issue sms = ps_extracted_issue psr
         ∧ issue_time sms = ps_issue_time psr
         ∧ original_sms_body sms = ps_original_sms_body psr.
Proof.
  unfold fetch_unprocessed_sms. rewrite list_elem_of_omap. split.
  - intros (psr & Hin & Hsel). exists psr. split; [done|].
    destruct (ps_extracted_location psr) as [l|]; [|done].
    case_decide as Hd; [|done]. injection Hsel as <-. simpl. tauto.
  - intros (psr & Hin & Hloc & Hns & Hfresh & Hid & Hiss & Htime & Hbody).
    exists psr. split; [done|]. rewrite Hloc, decide_True by done.
    f_equal. destruct sms; simpl in *. congruence.
Qed.

Lemma geocode_sms_new clean oracle items : ∀ k db,
  ∃ new,
    geocoded_sms_data (geocode_sms clean oracle k items db).1 = geocoded_sms_data db ++ new
    ∧ processed_sms_reports (geocode_sms clean oracle k items db).1
      = processed_sms_reports db
    ∧ ∀ g, g ∈ new →
        ∃ j sms lat lon,
          items !! j = Some sms
          ∧ oracle (k + j)%nat
              (default (extracted_location sms) (clean (k + j)%nat (extracted_location sms)))
            = GeoFound lat lon
          ∧ gs_source_sms_id g = original_sms_id sms
          ∧ gs_latitude g = Some lat ∧ gs_longitude g = Some lon
          ∧ gs_extracted_location g = Some (extracted_location sms)
          ∧ gs_extracted_issue g = extracted_issue sms
          ∧ gs_issue_time g = issue_time sms
          ∧ gs_original_sms_body g = original_sms_body sms.
Proof.
  induction items as [|sms rest IH]; intros k db; simpl.
  - exists []. rewrite app_nil_r. split_and!; [done..|].
    intros g Hg. by apply elem_of_nil in Hg.
  - unfold clean_location_with_ai.
    destruct (oracle k (default (extracted_location sms) (clean k (extracted_location sms))))
      as [lat lon| |] eqn:Ho.
    + destruct (IH (S k) (insert_geocoded_sms sms lat lon db)) as (new & Hrows & Hps & Hnew).
      assert (Hshift : ∀ g, g ∈ new →
        ∃ j sms0 lat0 lon0,
          (sms :: rest) !! j = Some sms0
          ∧ oracle (k + j)%nat
              (default (extracted_location sms0)
                 (clean (k + j)%nat (extracted_location sms0))) = GeoFound lat0 lon0
          ∧ gs_source_sms_id g = original_sms_id sms0
          ∧ gs_latitude g = Some lat0 ∧ gs_longitude g = Some lon0
          ∧ gs_extracted_location g = Some (extracted_location sms0)
          ∧ gs_extracted_issue g = extracted_issue sms0
          ∧ gs_issue_time g = issue_time sms0
          ∧ gs_original_sms_body g = original_sms_body sms0).
      { intros g Hg. destruct (Hnew g Hg) as (j & s & la & lo & Hj & Hoj & Hrest).
        exists (S j), s, la, lo. by replace (k + S j)%nat with (S k + j)%nat by lia. }
      rewrite Hrows, Hps. unfold insert_geocoded_sms at 1 2; simpl. case_decide as Hin.
      * exists new. done.
      * eexists (_ :: new). rewrite <- app_assoc. split_and!; [reflexivity|done|].
        intros g [->|Hg]%elem_of_cons; [|by apply Hshift].
        exists 0%nat, sms, lat, lon. rewrite Nat.add_0_r. done.
    + destruct (IH (S k) db) as (new & Hrows & Hps & Hnew). exists new.
      split_and!; [done..|]. intros g Hg.
      destruct (Hnew g Hg) as (j & s & la & lo & Hj & Hoj & Hrest).
      exists (S j), s, la, lo. by replace (k + S j)%nat with (S k + j)%nat by lia.
    + exists []. rewrite app_nil_r. split_and!; [done..|].
      intros g Hg. by apply elem_of_nil in Hg.
Qed.

(** X23: every row an SMS geocoding run appends comes from a processed
    report that had no geocoded row and a location other than NULL and
    ['Not specified']. The row is keyed by the id of the processed report,
    stores the location as extracted (not the cleaned text) and the issue,
    time and body of the report; its coordinates are the geocoder's answer
    to the cleaned location, or to the extracted one when cleaning
    failed. *)
Theorem sms_rows_provenance clean oracle db :
  ∃ new,
    geocoded_sms_data (run clean oracle db).1 = geocoded_sms_data db ++ new
    ∧ processed_sms_reports (run clean oracle db).1 = processed_sms_reports db
    ∧ ∀ g, g ∈ new →
        ∃ psr l j lat lon,
          psr ∈ processed_sms_reports db
          ∧ ps_extracted_location psr = Some l ∧ l ≠ "Not specified"
          ∧ (ps_id psr ∉ gs_source_sms_id <$> geocoded_sms_data db)
          ∧ oracle j (default l (clean j l)) = GeoFound lat lon
          ∧ gs_source_sms_id g = ps_id psr
          ∧ gs_latitude g = Some lat ∧ gs_longitude g = Some lon
          ∧ gs_extracted_location g = Some l
          ∧ gs_extracted_issue g = ps_extracted_issue psr
          ∧ gs_issue_time g = ps_issue_time psr
          ∧ gs_original_sms_body g = ps_original_sms_body psr.
Proof.
  unfold run.
  destruct (geocode_sms_new clean oracle (fetch_unprocessed_sms db) 0%nat db)
    as (new & Hrows & Hps & Hnew).
  exists new. split_and!; [done..|]. intros g Hg.
  destruct (Hnew g Hg)
    as (j & sms & lat & lon & Hj & Ho & Hsrc & Hlat & Hlon & Hloc & Hiss & Htime & Hbody).
  apply list_elem_of_lookup_2, fetch_unprocessed_sms_spec in Hj
    as (psr & Hin & Hl & Hns & Hfresh & Hid & Hi & Ht & Hb).
  exists psr, (extracted_location sms), j, lat, lon. simpl in Ho.
  split_and!; try done; congruence.
Qed.

(** X24: a processed report whose location is NULL or ['Not specified']
    gets no geocoded row, whatever the cleaner and the geocoder answer. *)
Theorem unlocated_sms_never_geocoded clean oracle db psr :
  NoDup (ps_id <$> processed_sms_reports db) →
  psr ∈ processed_sms_reports db →
  ps_extracted_location psr = None ∨ ps_extracted_location psr = Some "Not specified" →
  ps_id psr ∉ gs_source_sms_id <$> geocoded_sms_data db →
  ps_id psr ∉ gs_source_sms_id <$> geocoded_sms_data (run clean oracle db).1.
Proof.
  intros Hnd Hin Hloc Hfresh.
  unfold run.
  destruct (geocode_sms_new clean oracle (fetch_unprocessed_sms db) 0%nat db)
    as (new & -> & _ & Hnew).
  rewrite fmap_app. intros [?|Hg]%elem_of_app; [done|].
  apply list_elem_of_fmap in Hg as (g & Hid & Hg).
  destruct (Hnew g Hg) as (j & sms & lat & lon & Hj & _ & Hsrc & _).
  apply list_elem_of_lookup_2, fetch_unprocessed_sms_spec in Hj
    as (psr' & Hin' & Hl & Hns & _ & Hsms & _).
  rewrite Hsms in Hsrc.
  assert (psr' = psr) as ->.
  { apply list_elem_of_lookup in Hin as [a Ha]. apply list_elem_of_lookup in Hin' as [b Hb].
    assert (b = a) as ->; [|congruence].
    eapply NoDup_lookup; [exact Hnd| |].
    - rewrite list_lookup_fmap, Hb. reflexivity.
    - rewrite list_lookup_fmap, Ha. simpl. congruence. }
  destruct Hloc as [Hloc|Hloc]; congruence.
Qed.

Lemma unlocated_sms_never_geocoded_witness :
  NoDup (ps_id <$> processed_sms_reports sample_geo_db)
  ∧ (2 ∉ gs_source_sms_id <$> geocoded_sms_data (run cleaner_down finds_all sample_geo_db).1).
Proof.
  assert (Hnd : NoDup (ps_id <$> processed_sms_reports sample_geo_db)).
  { apply NoDup_cons. split; [|apply NoDup_singleton].
    intros H%list_elem_of_singleton. discriminate H. }
  split; [exact Hnd|].
  refine (unlocated_sms_never_geocoded cleaner_down finds_all sample_geo_db
            {| ps_id := 2; ps_original_sms_id := 12;
               ps_extracted_location := Some "Not specified";
               ps_extracted_issue := Some "Need for medicine";
               ps_issue_time := Some "Not specified";
               ps_original_sms_body := Some "Need medicine" |} Hnd _ _ _).
  - apply elem_of_cons. right. apply list_elem_of_singleton. reflexivity.
  - by right.
  - apply not_elem_of_nil.
Defined.

End SmsGeocoderFacts.

(** ** Combined stage against the two scripts it merges *)

Module CombinedMore.
Import Classifier ClassifierFacts CombinedFacts.

Lemma combined_step_reports extraction classification t db1 db2 :
  incident_reports db1 = incident_reports db2 →
  incident_reports_seq db1 = incident_reports_seq db2 →
  match Combined.process_tweet extraction classification (tw_id t, tw_text t) db1,
        Extractor.process_tweet extraction t db2 with
  | Some a, Some b =>
      incident_reports a = incident_reports b
      ∧ incident_reports_seq a = incident_reports_seq b
  | None, None => True
  | _, _ => False
  end.
Proof.
  intros Hrows Hseq. unfold Combined.process_tweet, Extractor.process_tweet.
  destruct (Extractor.extract_incident_details extraction) as [j|]; simpl.
  - destruct (truthy j); [destruct j as [d|b]|]; simpl; try done.
    + case_decide; simpl; by rewrite Hrows, Hseq.
    + by case_decide.
  - by case_decide.
Qed.

Lemma combined_loop_reports extractor classifier ts : ∀ k db1 db2,
  incident_reports db1 = incident_reports db2 →
  incident_reports_seq db1 = incident_reports_seq db2 →
  let r1 := Combined.process_tweets extractor classifier k
              ((λ t, (tw_id t, tw_text t)) <$> ts) db1 in
  let r2 := Extractor.process_tweets extractor k ts db2 in
  incident_reports r1.1 = incident_reports r2.1
  ∧ incident_reports_seq r1.1 = incident_reports_seq r2.1
  ∧ r1.2 = r2.2.
Proof.
  induction ts as [|t ts IH]; intros k db1 db2 Hrows Hseq; simpl; [done|].
  pose proof (combined_step_reports (extractor k (tw_text t)) (classifier k (tw_text t))
                t db1 db2 Hrows Hseq) as Hstep.
  destruct (Combined.process_tweet _ _ _ db1) as [a|],
           (Extractor.process_tweet _ t db2) as [b|]; try done.
  destruct Hstep as [Ha Hb]. by apply IH.
Qed.

(** X25: the incident reports a combined run writes, and how the run
    ends, do not depend on the classifier: they are those of the
    extractor's loop run over the unclassified tweets. A tweet classified
    as noise gets its report all the same. *)
Theorem combined_reports_as_extractor extractor classifier db :
  let unclassified := filter (λ t, tw_status t = "unclassified") (tweets db) in
  incident_reports (Combined.run extractor classifier db).1
  = incident_reports (Extractor.process_tweets extractor 0 unclassified db).1
  ∧ (Combined.run extractor classifier db).2
    = (Extractor.process_tweets extractor 0 unclassified db).2.
Proof.
  intros unclassified. unfold Combined.run, fetch_unclassified_tweets.
  destruct (combined_loop_reports extractor classifier unclassified 0%nat db db
              eq_refl eq_refl) as (H1 & _ & H2).
  done.
Qed.

(** X26: the two scripts that read [status = 'unclassified'] starve each
    other: after a classifier run the combined script finds no tweet and
    writes nothing, whatever its collaborators would answer, so tweets the
    classifier saw first get no incident report from it; after a combined
    run that ran through, a classifier run changes nothing. *)
Theorem status_column_is_shared extractor classifier oracle db :
  Combined.run extractor classifier (Classifier.run oracle db)
  = (Classifier.run oracle db, Completed)
  ∧ ∀ db', Combined.run extractor classifier db = (db', Completed) →
           Classifier.run oracle db' = db'.
Proof.
  split.
  - unfold Combined.run. by rewrite classifier_run_exhausts.
  - intros db' Hrun. unfold Classifier.run.
    by rewrite (combined_run_exhausts _ _ _ _ Hrun).
Qed.

Lemma status_column_is_shared_witness :
  Combined.run FailureScenario.llm_partial_then_list Scenario.llm_down
    (Classifier.run ClassifierScenario.llm_labels ClassifierScenario.store)
  = (Classifier.run ClassifierScenario.llm_labels ClassifierScenario.store, Completed)
  ∧ Classifier.run ClassifierScenario.llm_labels
      (Combined.run Scenario.llm_up Scenario.llm_down ClassifierScenario.store).1
    = (Combined.run Scenario.llm_up Scenario.llm_down ClassifierScenario.store).1.
Proof.
  split.
  - apply (status_column_is_shared FailureScenario.llm_partial_then_list Scenario.llm_down
             ClassifierScenario.llm_labels ClassifierScenario.store).
  - apply (status_column_is_shared Scenario.llm_up Scenario.llm_down
             ClassifierScenario.llm_labels ClassifierScenario.store).
    reflexivity.
Defined.

End CombinedMore.
